(** * Go-OKD: a shallow embedding of the BB84 key-distribution engine

  The development follows the Go packages of the repository:
  - [Go]        : the fragment of the Go runtime the code relies on
                  (64-bit [int], [float64], panics, [fmt.Sprintf] messages,
                  the random sources, the clock);
  - [Quantum]   : package [quantum] (bits, bases, qubits, bit/byte packing,
                  the simulator backend);
  - [Crypto]    : package [crypto] (Cascade reconciliation, privacy
                  amplification, secure-length computation);
  - [BB84]      : package [qkd], the BB84 driver;
  - [Session]   : package [qkd], the session manager, over the records of
                  package [models/qkd].

  Definitions come first, the theorems about them follow. *)

From Stdlib Require Import ZArith List Floats String Ascii Lia Bool DecimalString.
From stdpp Require Import base option list gmap.

Set Default Proof Using "Type".
Set Warnings "-inexact-float,-register-all,-abstract-large-number".

Local Open Scope Z_scope.

(* ===================================================================== *)
(** ** The Go runtime fragment                                            *)
(* ===================================================================== *)

Module Go.

(** Go's [int] is a 64-bit two's-complement integer on the supported
    platforms; arithmetic wraps around silently. *)
Definition min_int : Z := - 2 ^ 63.
Definition max_int : Z := 2 ^ 63 - 1.

Definition wrap (z : Z) : Z := (z + 2 ^ 63) mod 2 ^ 64 - 2 ^ 63.

Definition in_int (z : Z) : Prop := min_int <= z <= max_int.

(** Run-time panics raised by the code under study. *)
Inductive panic : Type :=
| IndexOutOfRange
| SliceBoundsOutOfRange
| MakeSliceLenOutOfRange
| IntegerDivideByZero
| NilDereference.

(** Formatted messages: [fmt.Sprintf] and [fmt.Errorf] are kept as the
    format string with its operands, so that a message "names" a value
    exactly when the value is one of its operands. *)
Inductive arg : Type :=
| AInt (z : Z)
| AFloat (f : float)
| AStr (s : string)
| AMsg (format : string) (args : list arg).

Definition msg : Type := (string * list arg)%type.

Definition Sprintf (format : string) (args : list arg) : msg := (format, args).

(** [%w] / [%s] of an error value, or [err.Error()] used as operand. *)
Definition AErr (m : msg) : arg := AMsg (fst m) (snd m).

(** The outcome of running a Go function: a value, an [error] value, a
    panic, or the end of the finite resources of the model (random tape,
    loop fuel).  The last case is an artefact of the model; a theorem that
    claims a result proves that it does not occur. *)
Inductive res (A : Type) : Type :=
| Ok (a : A)
| Err (e : msg)
| Panic (p : panic)
| OutOfFuel.
Arguments Ok {A} a.
Arguments Err {A} e.
Arguments Panic {A} p.
Arguments OutOfFuel {A}.

#[global] Instance res_ret : MRet res := fun A a => Ok a.
#[global] Instance res_bind : MBind res := fun A B k r =>
  match r with
  | Ok a => k a
  | Err e => Err e
  | Panic p => Panic p
  | OutOfFuel => OutOfFuel
  end.

(** Integer arithmetic on operands supplied by callers or obtained from a
    [float64] wraps; counters that only count executed loop iterations and
    lengths of slices held in memory cannot reach [2 ^ 63] and are left
    unwrapped. *)

(** [a / b] on [int]: truncated division, panics on a zero divisor. *)
Definition div (a b : Z) : res Z :=
  if b =? 0 then Panic IntegerDivideByZero else Ok (wrap (Z.quot a b)).

(** [l[lo:hi]] on a slice whose capacity is its length. *)
Definition slice {A} (l : list A) (lo hi : Z) : res (list A) :=
  if (0 <=? lo) && (lo <=? hi) && (hi <=? Z.of_nat (length l))
  then Ok (take (Z.to_nat (hi - lo)) (drop (Z.to_nat lo) l))
  else Panic SliceBoundsOutOfRange.

(** [l[i]] *)
Definition index {A} (l : list A) (i : Z) : res A :=
  if i <? 0 then Panic IndexOutOfRange
  else match l !! Z.to_nat i with
       | Some x => Ok x
       | None => Panic IndexOutOfRange
       end.

(** [l[i] = x] *)
Definition store {A} (l : list A) (i : Z) (x : A) : res (list A) :=
  if (0 <=? i) && (i <? Z.of_nat (length l))
  then Ok (<[Z.to_nat i := x]> l)
  else Panic IndexOutOfRange.

(** *** float64 *)

(** [float64(n)] for an [int] [n]. *)
Definition float64_of_int (n : Z) : float :=
  if n =? min_int then (-9223372036854775808)%float
  else if n <? 0
  then PrimFloat.opp (PrimFloat.of_uint63 (Uint63.of_Z (- n)))
  else PrimFloat.of_uint63 (Uint63.of_Z n).

(** [int(f)] for a [float64] [f]: truncation towards zero.  The language
    leaves the result open when the value does not fit; the model wraps
    finite values and yields 0 for infinities and NaN. *)
Definition int_of_float64 (f : float) : Z :=
  match Prim2SF f with
  | S754_finite s m e =>
      let v := if 0 <=? e then Z.pos m * 2 ^ e else Z.quot (Z.pos m) (2 ^ (- e)) in
      wrap (if s then - v else v)
  | _ => 0
  end.

(** *** The world: random sources, identifiers, clock *)

Record World : Type := mkWorld {
  mathInts   : list Z;            (* successive results of [rand.Intn(2)] *)
  mathFloats : list float;        (* successive results of [rand.Float64()] *)
  cryptoInts : list (option Z);   (* raw draws of [crypto/rand], [None]: reader error *)
  uuids      : list positive;     (* successive results of [uuid.New()] *)
  clock      : list Z             (* successive results of [time.Now()], in ns *)
}.

(** State-and-error monad over the world; the world survives errors. *)
Definition M (A : Type) : Type := World -> res A * World.

Definition ret {A} (a : A) : M A := fun w => (Ok a, w).
Definition fail {A} (e : msg) : M A := fun w => (Err e, w).
Definition lift {A} (r : res A) : M A := fun w => (r, w).

Definition bind {A B} (m : M A) (k : A -> M B) : M B :=
  fun w =>
    match m w with
    | (Ok a, w') => k a w'
    | (Err e, w') => (Err e, w')
    | (Panic p, w') => (Panic p, w')
    | (OutOfFuel, w') => (OutOfFuel, w')
    end.

(** [x, err := m]: the error, if any, becomes a value the caller inspects. *)
Definition catch {A} (m : M A) : M (A + msg) :=
  fun w =>
    match m w with
    | (Ok a, w') => (Ok (inl a), w')
    | (Err e, w') => (Ok (inr e), w')
    | (Panic p, w') => (Panic p, w')
    | (OutOfFuel, w') => (OutOfFuel, w')
    end.

(** [x, err := m; if err != nil { return nil, wrapper(err) }] *)
Definition try_wrap {A} (m : M A) (wrapper : msg -> msg) : M A :=
  fun w =>
    match m w with
    | (Err e, w') => (Err (wrapper e), w')
    | r => r
    end.

(** [rand.Intn(2)] *)
Definition rand_Intn2 : M Z :=
  fun w =>
    match mathInts w with
    | [] => (OutOfFuel, w)
    | r :: rest =>
        (Ok (r mod 2), mkWorld rest (mathFloats w) (cryptoInts w) (uuids w) (clock w))
    end.

(** [rand.Float64()] *)
Definition rand_Float64 : M float :=
  fun w =>
    match mathFloats w with
    | [] => (OutOfFuel, w)
    | r :: rest =>
        (Ok r, mkWorld (mathInts w) rest (cryptoInts w) (uuids w) (clock w))
    end.

(** [uuid.New()] *)
Definition uuid_New : M positive :=
  fun w =>
    match uuids w with
    | [] => (OutOfFuel, w)
    | u :: rest =>
        (Ok u, mkWorld (mathInts w) (mathFloats w) (cryptoInts w) rest (clock w))
    end.

(** [time.Now()] *)
Definition time_Now : M Z :=
  fun w =>
    match clock w with
    | [] => (OutOfFuel, w)
    | t :: rest =>
        (Ok t, mkWorld (mathInts w) (mathFloats w) (cryptoInts w) (uuids w) rest)
    end.

(** [fmt.Sprintf("%d", n)] as bytes. *)
Definition itoa (n : Z) : list Z :=
  map (fun c => Z.of_N (N_of_ascii c))
      (list_ascii_of_string (NilZero.string_of_int (Z.to_int n))).

End Go.

Export Go.

Declare Scope go_scope.
Delimit Scope go_scope with go.
Notation "x <- m ;; k" := (Go.bind m (fun x => k))
(at level 100, m at next level, right associativity) : go_scope.

(* ===================================================================== *)
(** ** Package quantum                                                    *)
(* ===================================================================== *)

Module Quantum.

(** [type Basis int], [type Bit int] *)
Definition Basis : Type := Z.
Definition RectilinearBasis : Basis := 0.
Definition DiagonalBasis : Basis := 1.

Definition Bit : Type := Z.
Definition Zero : Bit := 0.
Definition One : Bit := 1.

(** A value of type [Bit] that really is a bit. *)
Definition is_bit (b : Bit) : Prop := b = Zero \/ b = One.

Record Qubit : Type := mkQubit {
  ClassicalValue : Bit;
  PreparationBasis : Basis
}.

Record MeasurementResult : Type := mkMeasurementResult {
  MeasuredBit : Bit;
  MeasurementBasis : Basis
}.

Record QuantumChannel : Type := mkQuantumChannel {
  NoiseLevel : float;
  InterceptProbability : float
}.

Definition NewQuantumChannel (noiseLevel interceptProbability : float) : QuantumChannel :=
  mkQuantumChannel noiseLevel interceptProbability.

(** *** Qubits and the channel *)

Local Open Scope go_scope.

(** [x = 1 - x] on a [Bit]. *)
Definition flip (b : Bit) : Bit := wrap (1 - b).

Definition flipped (q : Qubit) : Qubit :=
  mkQubit (flip (ClassicalValue q)) (PreparationBasis q).

(** [func (qc *QuantumChannel) Transmit(qubit Qubit) Qubit] *)
Definition Transmit (qc : QuantumChannel) (qubit : Qubit) : M Qubit :=
  r1 <- rand_Float64 ;;
  qubit <- (if (r1 <? InterceptProbability qc)%float
            then
              eveBasis <- rand_Intn2 ;;
              if negb (eveBasis =? PreparationBasis qubit)
              then
                r2 <- rand_Float64 ;;
                ret (if (r2 <? 0.5)%float then flipped qubit else qubit)
              else ret qubit
            else ret qubit) ;;
  r3 <- rand_Float64 ;;
  ret (if (r3 <? NoiseLevel qc)%float then flipped qubit else qubit).

(** [func PrepareQubit(bit Bit, basis Basis) Qubit] *)
Definition PrepareQubit (bit : Bit) (basis : Basis) : Qubit := mkQubit bit basis.

(** [func MeasureQubit(qubit Qubit, measurementBasis Basis) MeasurementResult] *)
Definition MeasureQubit (qubit : Qubit) (measurementBasis : Basis) : M MeasurementResult :=
  let measuredBit := ClassicalValue qubit in
  measuredBit <- (if negb (measurementBasis =? PreparationBasis qubit)
                  then
                    r <- rand_Float64 ;;
                    ret (if (r <? 0.5)%float then flip measuredBit else measuredBit)
                  else ret measuredBit) ;;
  ret (mkMeasurementResult measuredBit measurementBasis).

Fixpoint GenerateRandom_loop (n : nat) : M (list Z) :=
  match n with
  | O => ret []
  | S n' =>
      b <- rand_Intn2 ;;
      rest <- GenerateRandom_loop n' ;;
      ret (b :: rest)
  end.

(** [func GenerateRandomBits(length int) []Bit] *)
Definition GenerateRandomBits (length : Z) : M (list Bit) :=
  if length <? 0 then lift (Panic MakeSliceLenOutOfRange)
  else GenerateRandom_loop (Z.to_nat length).

(** [func GenerateRandomBases(length int) []Basis] *)
Definition GenerateRandomBases (length : Z) : M (list Basis) :=
  if length <? 0 then lift (Panic MakeSliceLenOutOfRange)
  else GenerateRandom_loop (Z.to_nat length).

(** *** Backends *)

(** [type QuantumBackend interface] *)
Class QuantumBackend (B : Type) : Type := {
  Name : B -> string;
  PrepareAndSend : B -> list Bit -> list Basis -> M (list Qubit);
  ReceiveAndMeasure : B -> list Qubit -> list Basis -> M (list MeasurementResult);
  GetNoiseLevel : B -> float;
  IsSimulator : B -> bool
}.

Record SimulatorBackend : Type := mkSimulatorBackend {
  name : string;
  channel : QuantumChannel;
  simulateNoise : bool;
  noiseLevel : float
}.

(** [func NewSimulatorBackend(simulateNoise bool, noiseLevel float64) *SimulatorBackend] *)
Definition NewSimulatorBackend (simulateNoise : bool) (noiseLevel : float) : SimulatorBackend :=
  mkSimulatorBackend "QuantumSimulator" (NewQuantumChannel noiseLevel 0) simulateNoise noiseLevel.

(** The loop of [PrepareAndSend]; the two slices have the same length. *)
Fixpoint Simulator_prepare (s : SimulatorBackend) (bits : list Bit) (bases : list Basis)
  : M (list Qubit) :=
  match bits, bases with
  | bit :: bits', basis :: bases' =>
      let q := PrepareQubit bit basis in
      q <- (if simulateNoise s then Transmit (channel s) q else ret q) ;;
      rest <- Simulator_prepare s bits' bases' ;;
      ret (q :: rest)
  | _, _ => ret []
  end.

(** [func (s *SimulatorBackend) PrepareAndSend(bits []Bit, bases []Basis) ([]Qubit, error)] *)
Definition Simulator_PrepareAndSend (s : SimulatorBackend) (bits : list Bit) (bases : list Basis)
  : M (list Qubit) :=
  if negb (length bits =? length bases)%nat
  then fail (Sprintf "bits and bases must have the same length" [])
  else Simulator_prepare s bits bases.

(** The loop of [ReceiveAndMeasure]. *)
Fixpoint Simulator_measure (qubits : list Qubit) (bases : list Basis)
  : M (list MeasurementResult) :=
  match qubits, bases with
  | q :: qubits', basis :: bases' =>
      r <- MeasureQubit q basis ;;
      rest <- Simulator_measure qubits' bases' ;;
      ret (r :: rest)
  | _, _ => ret []
  end.

(** [func (s *SimulatorBackend) ReceiveAndMeasure(qubits []Qubit, bases []Basis)
     ([]MeasurementResult, error)] *)
Definition Simulator_ReceiveAndMeasure (s : SimulatorBackend) (qubits : list Qubit)
  (bases : list Basis) : M (list MeasurementResult) :=
  if negb (length qubits =? length bases)%nat
  then fail (Sprintf "qubits and bases must have the same length" [])
  else Simulator_measure qubits bases.

#[global] Instance SimulatorBackend_QuantumBackend : QuantumBackend SimulatorBackend := {
  Name := name;
  PrepareAndSend := Simulator_PrepareAndSend;
  ReceiveAndMeasure := Simulator_ReceiveAndMeasure;
  GetNoiseLevel := noiseLevel;
  IsSimulator := fun _ => true
}.

(** *** Bit and byte packing *)

(** One iteration of the loop of [BitsToBytes]:
    [if bit == One { bytes[i/8] |= 1 << (7 - i%8) }]. *)
Definition BitsToBytes_step (bytes : list Z) (i : nat) (bit : Bit) : list Z :=
  if bit =? One
  then alter (fun b => Z.lor b (Z.shiftl 1 (7 - Z.of_nat (i mod 8)))) (i / 8)%nat bytes
  else bytes.

Fixpoint BitsToBytes_loop (bits : list Bit) (i : nat) (bytes : list Z) : list Z :=
  match bits with
  | [] => bytes
  | bit :: rest => BitsToBytes_loop rest (S i) (BitsToBytes_step bytes i bit)
  end.

(** [func BitsToBytes(bits []Bit) []byte] *)
Definition BitsToBytes (bits : list Bit) : list Z :=
  let numBytes := ((length bits + 7) / 8)%nat in
  BitsToBytes_loop bits 0 (replicate numBytes 0).

(** The loop of [BytesToBits], from index [i], [n] iterations left. *)
Fixpoint BytesToBits_loop (bytes : list Z) (i n : nat) : res (list Bit) :=
  match n with
  | O => Ok []
  | S n' =>
      match bytes !! (i / 8)%nat with
      | None => Panic IndexOutOfRange
      | Some b =>
          let bit :=
            if Z.land b (Z.shiftl 1 (7 - Z.of_nat (i mod 8))) =? 0 then Zero else One in
          match BytesToBits_loop bytes (S i) n' with
          | Ok rest => Ok (bit :: rest)
          | r => r
          end
      end
  end.

(** [func BytesToBits(bytes []byte, bitLength int) []Bit] *)
Definition BytesToBits (bytes : list Z) (bitLength : Z) : res (list Bit) :=
  if bitLength <? 0 then Panic MakeSliceLenOutOfRange
  else BytesToBits_loop bytes 0 (Z.to_nat bitLength).

(** The bit of a packed byte string at bit index [p], most significant
    bit of each byte first. *)
Definition bit_at (bytes : list Z) (p : nat) : bool :=
  Z.testbit (nth (p / 8) bytes 0) (7 - Z.of_nat (p mod 8)).

End Quantum.

(* ===================================================================== *)
(** ** Package crypto                                                     *)
(* ===================================================================== *)

Module Crypto.
Import Quantum.

(** *** Cascade error reconciliation (error_correction.go) *)

Record CascadeCorrector : Type := mkCascadeCorrector {
  passes : Z;
  blockSize : Z;
  errorRate : float
}.

(** [func NewCascadeCorrector(errorRate float64) *CascadeCorrector] *)
Definition NewCascadeCorrector (errorRate : float) : CascadeCorrector :=
  let blockSize :=
    if (0 <? errorRate)%float
    then
      let blockSize := int_of_float64 (0.73 / errorRate)%float in
      if blockSize <? 1 then 1 else blockSize
    else 1 in
  mkCascadeCorrector 4 blockSize errorRate.

Record Block : Type := mkBlock {
  StartIndex : Z;
  EndIndex : Z;
  Parity : Bit
}.

(** [func CalculateParity(bits []quantum.Bit) quantum.Bit] *)
Definition CalculateParity (bits : list Bit) : Bit :=
  fold_left (fun parity bit => Z.lxor parity bit) bits Zero.

(** The loop of [binarySearch].  [disclosedBits] is the counter of the
    source; [compared] is a ghost counter of the parity comparisons
    ([aliceParity != bobParity]) evaluated. *)
Fixpoint binarySearch_loop (fuel : nat) (aliceKey bobKey : list Bit)
  (start end_ disclosedBits compared : Z) : res (Z * Z * Z) :=
  if start <? wrap (end_ - 1) then
    match fuel with
    | O => OutOfFuel
    | S fuel' =>
        mid ← div (wrap (start + end_)) 2;
        aliceBlock ← slice aliceKey start mid;
        bobBlock ← slice bobKey start mid;
        let aliceParity := CalculateParity aliceBlock in
        let bobParity := CalculateParity bobBlock in
        let disclosedBits := disclosedBits + 1 in
        let compared := compared + 1 in
        if negb (aliceParity =? bobParity)
        then binarySearch_loop fuel' aliceKey bobKey start mid disclosedBits compared
        else binarySearch_loop fuel' aliceKey bobKey mid end_ disclosedBits compared
    end
  else Ok (start, disclosedBits, compared).

(** [func (c *CascadeCorrector) binarySearch(aliceKey, bobKey []quantum.Bit,
     start, end int) (int, int)], with the ghost count as third component.
    Every iteration that does not panic shrinks [end - start], so the fuel
    is never exhausted. *)
Definition binarySearch (c : CascadeCorrector) (aliceKey bobKey : list Bit)
  (start end_ : Z) : res (Z * Z * Z) :=
  binarySearch_loop (S (Z.to_nat (end_ - start))) aliceKey bobKey start end_ 0 0.

(** [blocks[i]] as filled by the first inner loop of [Correct]. *)
Definition make_block (keyLength blockSize i : Z) : Block :=
  let startIdx := wrap (i * blockSize) in
  let endIdx := wrap (startIdx + blockSize) in
  let endIdx := if endIdx >? keyLength then keyLength else endIdx in
  mkBlock startIdx endIdx 0.

(** The state of the second inner loop: [corrected], [totalDisclosedBits]
    and the ghost count of parity comparisons. *)
Definition cascade_state : Type := (list Bit * Z * Z)%type.

(** One iteration of [for i := range blocks]. *)
Definition Correct_block (c : CascadeCorrector) (aliceKey : list Bit)
  (st : cascade_state) (blk : Block) : res cascade_state :=
  let '(corrected, totalDisclosedBits, compared) := st in
  aliceBlock ← slice aliceKey (StartIndex blk) (EndIndex blk);
  bobBlock ← slice corrected (StartIndex blk) (EndIndex blk);
  let aliceParity := CalculateParity aliceBlock in
  let bobParity := CalculateParity bobBlock in
  let compared := compared + 1 in
  st' ← (if negb (aliceParity =? bobParity)
         then
           '(errorIdx, disclosed, cmp) ←
             binarySearch c aliceKey corrected (StartIndex blk) (EndIndex blk);
           let totalDisclosedBits := totalDisclosedBits + disclosed in
           if 0 <=? errorIdx
           then
             old ← index corrected errorIdx;
             corrected' ← store corrected errorIdx (flip old);
             Ok (corrected', totalDisclosedBits, compared + cmp)
           else Ok (corrected, totalDisclosedBits, compared + cmp)
         else Ok (corrected, totalDisclosedBits, compared));
  let '(corrected, totalDisclosedBits, compared) := st' in
  Ok (corrected, totalDisclosedBits + 1, compared).

Fixpoint Correct_blocks (c : CascadeCorrector) (aliceKey : list Bit)
  (blocks : list Block) (st : cascade_state) : res cascade_state :=
  match blocks with
  | [] => Ok st
  | blk :: rest =>
      st' ← Correct_block c aliceKey st blk;
      Correct_blocks c aliceKey rest st'
  end.

(** One iteration of [for pass := 0; pass < c.passes; pass++]. *)
Definition Correct_pass (c : CascadeCorrector) (aliceKey : list Bit)
  (blockSize : Z) (st : cascade_state) : res cascade_state :=
  let keyLength := Z.of_nat (length aliceKey) in
  numBlocks ← div (wrap (wrap (keyLength + blockSize) - 1)) blockSize;
  if numBlocks <? 0 then Panic MakeSliceLenOutOfRange
  else
    let blocks := map (fun i => make_block keyLength blockSize (Z.of_nat i))
                      (seq 0 (Z.to_nat numBlocks)) in
    Correct_blocks c aliceKey blocks st.

Fixpoint Correct_passes (c : CascadeCorrector) (aliceKey : list Bit)
  (n : nat) (blockSize : Z) (st : cascade_state) : res cascade_state :=
  match n with
  | O => Ok st
  | S n' =>
      st' ← Correct_pass c aliceKey blockSize st;
      Correct_passes c aliceKey n' (wrap (blockSize * 2)) st'
  end.

(** [Correct] together with the ghost count of parity comparisons. *)
Definition Correct_traced (c : CascadeCorrector) (aliceKey bobKey : list Bit)
  : res cascade_state :=
  if negb (length aliceKey =? length bobKey)%nat
  then Err (Sprintf "keys must have the same length" [])
  else Correct_passes c aliceKey (Z.to_nat (passes c)) (blockSize c) (bobKey, 0, 0).

(** [func (c *CascadeCorrector) Correct(aliceKey, bobKey []quantum.Bit)
     ([]quantum.Bit, int, error)] *)
Definition Correct (c : CascadeCorrector) (aliceKey bobKey : list Bit)
  : res (list Bit * Z) :=
  '(corrected, totalDisclosedBits, _) ← Correct_traced c aliceKey bobKey;
  Ok (corrected, totalDisclosedBits).






(** [func VerifyKeyCorrectness(aliceKey, bobKey []quantum.Bit) (bool, float64)] *)
Definition VerifyKeyCorrectness (aliceKey bobKey : list Bit) : bool * float :=
  if negb (length aliceKey =? length bobKey)%nat then (false, 1%float)
  else
    let errors :=
      Z.of_nat (length (filter (fun ab => fst ab <> snd ab) (zip aliceKey bobKey))) in
    let errorRate := (float64_of_int errors / float64_of_int (Z.of_nat (length aliceKey)))%float in
    (errors =? 0, errorRate).

(** [func CalculateInformationLeakage(disclosedBits int, keyLength int) float64] *)
Definition CalculateInformationLeakage (disclosedBits keyLength : Z) : float :=
  if keyLength =? 0 then 0%float
  else (float64_of_int disclosedBits / float64_of_int keyLength)%float.

(** *** The simple parity corrector (error_correction.go) *)





(** [func (l *LDPCCorrector) Correct(aliceKey, bobKey []quantum.Bit)
     ([]quantum.Bit, int, error)]: falls back to Cascade at 5%. *)
Definition LDPCCorrector_Correct (aliceKey bobKey : list Bit) : res (list Bit * Z) :=
  Correct (NewCascadeCorrector 0.05%float) aliceKey bobKey.

(** *** Privacy amplification (privacy_amplification.go) *)

Definition AmplificationMethod : Type := string.
Definition SHA256Method : AmplificationMethod := "SHA256"%string.
Definition SHA512Method : AmplificationMethod := "SHA512"%string.
Definition SHA3_256Method : AmplificationMethod := "SHA3-256"%string.
Definition SHA3_512Method : AmplificationMethod := "SHA3-512"%string.

Record PrivacyAmplifier : Type := mkPrivacyAmplifier {
  method : AmplificationMethod
}.

(** [func NewPrivacyAmplifier(method AmplificationMethod) *PrivacyAmplifier] *)
Definition NewPrivacyAmplifier (method : AmplificationMethod) : PrivacyAmplifier :=
  mkPrivacyAmplifier method.

(** The digests of [crypto/sha256], [crypto/sha512] and
    [golang.org/x/crypto/sha3] are libraries outside the repository: they
    are taken as parameters, with their output sizes in bytes. *)
Class HashFamily : Type := {
  sha256_Sum : list Z -> list Z;
  sha512_Sum : list Z -> list Z;
  sha3_256_Sum : list Z -> list Z;
  sha3_512_Sum : list Z -> list Z;
  sha256_size : forall x, length (sha256_Sum x) = 32%nat;
  sha512_size : forall x, length (sha512_Sum x) = 64%nat;
  sha3_256_size : forall x, length (sha3_256_Sum x) = 32%nat;
  sha3_512_size : forall x, length (sha3_512_Sum x) = 64%nat
}.

(** A stand-in family used to run the model on concrete inputs: every
    digest is the input padded or cut to the digest size. *)
Definition pad_digest (n : nat) (x : list Z) : list Z := take n (x ++ replicate n 0).

Lemma pad_digest_length n x : length (pad_digest n x) = n.
Proof.
  unfold pad_digest. rewrite length_take, length_app, length_replicate. lia.
Qed.

Definition padding_hashes : HashFamily := {|
  sha256_Sum := pad_digest 32;
  sha512_Sum := pad_digest 64;
  sha3_256_Sum := pad_digest 32;
  sha3_512_Sum := pad_digest 64;
  sha256_size := pad_digest_length 32;
  sha512_size := pad_digest_length 64;
  sha3_256_size := pad_digest_length 32;
  sha3_512_size := pad_digest_length 64
|}.

(** The four methods [getHasher] knows. *)
Definition valid_method (m : AmplificationMethod) : Prop :=
  m = SHA256Method \/ m = SHA512Method \/ m = SHA3_256Method \/ m = SHA3_512Method.

(** The error of [getHasher]. *)
Definition unknown_method_error (pa : PrivacyAmplifier) : msg :=
  Sprintf "unknown amplification method: %s" [AStr (method pa)].

(** The error of the secure-length gate of [Amplify]. *)
Definition insufficient_security (targetLength maxSecure : Z) : msg :=
  Sprintf "cannot generate secure key of length %d: max secure length is %d bits"
    [AInt targetLength; AInt maxSecure].

Section PrivacyAmplification.
Context {hashes : HashFamily}.

(** [func (pa *PrivacyAmplifier) getHasher() (hash.Hash, error)]: the hash
    (or [nil]) and the error (or [nil]).  A hash is represented by the
    digest it computes of everything written to it. *)
Definition getHasher (pa : PrivacyAmplifier) : option (list Z -> list Z) * option msg :=
  if String.eqb (method pa) SHA256Method then (Some sha256_Sum, None)
  else if String.eqb (method pa) SHA512Method then (Some sha512_Sum, None)
  else if String.eqb (method pa) SHA3_256Method then (Some sha3_256_Sum, None)
  else if String.eqb (method pa) SHA3_512Method then (Some sha3_512_Sum, None)
  else (None, Some (unknown_method_error pa)).

(** The loop [for len(finalKey)*8 < targetLength] of [Amplify]. *)
Fixpoint Amplify_loop (fuel : nat) (pa : PrivacyAmplifier) (keyBytes finalKey : list Z)
  (counter targetLength : Z) : res (list Z) :=
  if Z.of_nat (length finalKey) * 8 <? targetLength then
    match fuel with
    | O => OutOfFuel
    | S fuel' =>
        let '(h, _) := getHasher pa in
        match h with
        | None => Panic NilDereference          (* h.Write on a nil interface *)
        | Some h =>
            let hashResult := h (keyBytes ++ itoa counter) in
            Amplify_loop fuel' pa keyBytes (finalKey ++ hashResult) (counter + 1) targetLength
        end
    end
  else Ok finalKey.

(** [leakedBits := int(informationLeakage * float64(len(key)))] *)
Definition leakedBits (key : list Bit) (informationLeakage : float) : Z :=
  int_of_float64 (informationLeakage * float64_of_int (Z.of_nat (length key)))%float.

(** The leaked bits in the words of the specification,
    [floor(information_leakage * L)]: the floor of the exact product, the
    leakage being the real number that its [float64] denotes.  To be
    compared with [leakedBits], which truncates the rounded product. *)
Definition spec_leaked (informationLeakage : float) (L : Z) : Z :=
  match Prim2SF informationLeakage with
  | S754_finite s m e =>
      let n := (if s then - Z.pos m else Z.pos m) * L in
      if 0 <=? e then n * 2 ^ e else n / 2 ^ (- e)
  | _ => 0
  end.

(** [maxSecureLength := len(key) - leakedBits - securityParameter] *)
Definition maxSecureLength (key : list Bit) (informationLeakage : float) : Z :=
  let securityParameter := 64 in
  wrap (wrap (Z.of_nat (length key) - leakedBits key informationLeakage) - securityParameter).

(** [func (pa *PrivacyAmplifier) Amplify(key []quantum.Bit,
     informationLeakage float64, targetLength int) ([]byte, error)] *)
Definition Amplify (pa : PrivacyAmplifier) (key : list Bit) (informationLeakage : float)
  (targetLength : Z) : res (list Z) :=
  if (length key =? 0)%nat then Err (Sprintf "input key is empty" [])
  else if targetLength <=? 0 then Err (Sprintf "target length must be positive" [])
  else
    let maxSecureLength := maxSecureLength key informationLeakage in
    if maxSecureLength <? targetLength
    then Err (insufficient_security targetLength maxSecureLength)
    else
      let keyBytes := BitsToBytes key in
      finalKey ← Amplify_loop (S (Z.to_nat targetLength)) pa keyBytes [] 0 targetLength;
      let targetBytes := Z.quot (wrap (targetLength + 7)) 8 in
      if Z.of_nat (length finalKey) >? targetBytes
      then slice finalKey 0 targetBytes
      else Ok finalKey.

End PrivacyAmplification.

(** *** The 2-universal variant (privacy_amplification.go) *)









(** *** Secure key length *)

(** [func math_log(x float64) float64] *)
Definition math_log (x : float) : float :=
  if (x <=? 0)%float then 0%float
  else
    let z := ((x - 1) / (x + 1))%float in
    (2 * z * (1 + z * z / 3 + z * z * z * z / 5))%float.

(** [func math_log2(x float64) float64] *)
Definition math_log2 (x : float) : float :=
  let ln2 := 0.693147180559945309417232121458%float in
  if (x <=? 0)%float then 0%float
  else (math_log x / ln2)%float.

(** [func binaryEntropy(p float64) float64] *)
Definition binaryEntropy (p : float) : float :=
  if (p <=? 0)%float || (1 <=? p)%float then 0%float
  else
    let log2 := fun x : float => if (x <=? 0)%float then 0%float else math_log2 x in
    (PrimFloat.opp p * log2 p - (1 - p) * log2 (1 - p))%float.

(** [func CalculateSecureKeyLength(rawKeyLength int, qber float64,
     disclosedBits int, securityParameter int) int] *)
Definition CalculateSecureKeyLength (rawKeyLength : Z) (qber : float)
  (disclosedBits securityParameter : Z) : Z :=
  let shannonLeakage := (binaryEntropy qber * float64_of_int rawKeyLength)%float in
  let totalLeakage := wrap (int_of_float64 shannonLeakage + disclosedBits) in
  let secureLength := wrap (wrap (rawKeyLength - totalLeakage) - securityParameter) in
  if secureLength <? 0 then 0 else secureLength.

End Crypto.

(* ===================================================================== *)
(** ** Package qkd: the BB84 driver                                       *)
(* ===================================================================== *)

Module AliceSession.
Record t : Type := mk {
  Bits : list Quantum.Bit;
  Bases : list Quantum.Basis;
  Qubits : list Quantum.Qubit;
  Key : list Quantum.Bit
}.
End AliceSession.

Module BobSession.
Record t : Type := mk {
  Bases : list Quantum.Basis;
  Measurements : list Quantum.MeasurementResult;
  Key : list Quantum.Bit
}.
End BobSession.

Module SiftedKey.
Record t : Type := mk {
  AliceKey : list Quantum.Bit;
  BobKey : list Quantum.Bit;
  Indices : list Z
}.
End SiftedKey.

Module KeyExchangeResult.
Record t : Type := mk {
  Key : list Z;
  RawKeyLength : Z;
  FinalKeyLength : Z;
  QBER : float;
  Secure : bool;
  Message : msg
}.
(** [&KeyExchangeResult{}] *)
Definition zero : t := mk [] 0 0 0%float false (Sprintf "" []).
End KeyExchangeResult.

Module BB84.
Import Quantum.
Local Open Scope go_scope.

(** [func cryptoRandInt(max int) (int, error)]; [rand.Int] draws uniformly
    from [[0, max)]. *)
Definition cryptoRandInt (max : Z) : M Z :=
  if max <=? 0 then fail (Sprintf "max must be positive" [])
  else
    fun w =>
      match cryptoInts w with
      | [] => (OutOfFuel, w)
      | r :: rest =>
          let w' := mkWorld (mathInts w) (mathFloats w) rest (uuids w) (clock w) in
          match r with
          | None => (Err (Sprintf "crypto/rand: reader failure" []), w')
          | Some r => (Ok (r mod max), w')
          end
      end.

Section Protocol.
Context {B : Type} `{QuantumBackend B}.

Record BB84Protocol : Type := mkBB84Protocol {
  backend : B;
  keyLength : Z;
  qberThreshold : float;
  sampleSize : float
}.

(** [func NewBB84Protocol(backend quantum.QuantumBackend, keyLength int) *BB84Protocol] *)
Definition NewBB84Protocol (backend : B) (keyLength : Z) : BB84Protocol :=
  mkBB84Protocol backend keyLength 0.11%float 0.10%float.

(** [func (bb *BB84Protocol) SetQBERThreshold(threshold float64)] *)
Definition SetQBERThreshold (bb : BB84Protocol) (threshold : float) : BB84Protocol :=
  mkBB84Protocol (backend bb) (keyLength bb) threshold (sampleSize bb).

(** [func (bb *BB84Protocol) SetSampleSize(size float64)] *)
Definition SetSampleSize (bb : BB84Protocol) (size : float) : BB84Protocol :=
  if (0 <? size)%float && (size <? 1)%float
  then mkBB84Protocol (backend bb) (keyLength bb) (qberThreshold bb) size
  else bb.

(** [func (bb *BB84Protocol) AliceGenerateQubits() ( *AliceSession, error)] *)
Definition AliceGenerateQubits (bb : BB84Protocol) : M AliceSession.t :=
  let transmissionLength := wrap (keyLength bb * 4) in
  bits <- GenerateRandomBits transmissionLength ;;
  bases <- GenerateRandomBases transmissionLength ;;
  qubits <- try_wrap (PrepareAndSend (backend bb) bits bases)
              (fun err => Sprintf "failed to prepare qubits: %w" [AErr err]) ;;
  ret (AliceSession.mk bits bases qubits []).

(** [func (bb *BB84Protocol) BobMeasureQubits(qubits []quantum.Qubit) ( *BobSession, error)] *)
Definition BobMeasureQubits (bb : BB84Protocol) (qubits : list Qubit) : M BobSession.t :=
  bases <- GenerateRandomBases (Z.of_nat (length qubits)) ;;
  measurements <- try_wrap (ReceiveAndMeasure (backend bb) qubits bases)
                    (fun err => Sprintf "failed to measure qubits: %w" [AErr err]) ;;
  ret (BobSession.mk bases measurements []).

(** The loop of [BasisReconciliation] over the positions. *)
Fixpoint BasisReconciliation_loop (alice : AliceSession.t) (bob : BobSession.t)
  (positions : list nat) (sifted : SiftedKey.t) : res SiftedKey.t :=
  match positions with
  | [] => Ok sifted
  | i :: rest =>
      let i := Z.of_nat i in
      aliceBasis ← index (AliceSession.Bases alice) i;
      bobBasis ← index (BobSession.Bases bob) i;
      if aliceBasis =? bobBasis
      then
        aliceBit ← index (AliceSession.Bits alice) i;
        m ← index (BobSession.Measurements bob) i;
        BasisReconciliation_loop alice bob rest
          (SiftedKey.mk (SiftedKey.AliceKey sifted ++ [aliceBit])
                        (SiftedKey.BobKey sifted ++ [MeasuredBit m])
                        (SiftedKey.Indices sifted ++ [i]))
      else BasisReconciliation_loop alice bob rest sifted
  end.

(** [func (bb *BB84Protocol) BasisReconciliation(alice *AliceSession, bob *BobSession)
     ( *SiftedKey, error)] *)
Definition BasisReconciliation (bb : BB84Protocol) (alice : AliceSession.t)
  (bob : BobSession.t) : res SiftedKey.t :=
  if negb (length (AliceSession.Bases alice) =? length (BobSession.Bases bob))%nat
  then Err (Sprintf "alice and bob must have same number of bases" [])
  else BasisReconciliation_loop alice bob (seq 0 (length (AliceSession.Bases alice)))
         (SiftedKey.mk [] [] []).

(** The loop [for len(sampledIndices) < sampleCount] of [EstimateQBER];
    every iteration consumes one draw, the tape bounds the fuel. *)
Fixpoint EstimateQBER_sample (fuel : nat) (n sampleCount : Z) (sampledIndices : gset Z)
  : M (gset Z) :=
  if Z.of_nat (size sampledIndices) <? sampleCount then
    match fuel with
    | O => lift OutOfFuel
    | S fuel' =>
        idx <- cryptoRandInt n ;;
        EstimateQBER_sample fuel' n sampleCount ({[ idx ]} ∪ sampledIndices)
    end
  else ret sampledIndices.

(** The loop [for idx := range sampledIndices] of [EstimateQBER]. *)
Fixpoint EstimateQBER_errors (sifted : SiftedKey.t) (idxs : list Z) (errors : Z) : res Z :=
  match idxs with
  | [] => Ok errors
  | idx :: rest =>
      a ← index (SiftedKey.AliceKey sifted) idx;
      b ← index (SiftedKey.BobKey sifted) idx;
      EstimateQBER_errors sifted rest (if negb (a =? b) then errors + 1 else errors)
  end.

(** [func (bb *BB84Protocol) EstimateQBER(sifted *SiftedKey) (float64, error)] *)
Definition EstimateQBER (bb : BB84Protocol) (sifted : SiftedKey.t) : M float :=
  let n := Z.of_nat (length (SiftedKey.AliceKey sifted)) in
  if n =? 0 then fail (Sprintf "sifted key is empty" [])
  else
    let sampleCount := int_of_float64 (float64_of_int n * sampleSize bb)%float in
    let sampleCount := if sampleCount <? 1 then 1 else sampleCount in
    let sampleCount := if sampleCount >? n then n else sampleCount in
    sampledIndices <- (fun w =>
      EstimateQBER_sample (S (length (cryptoInts w))) n sampleCount ∅ w) ;;
    errors <- lift (EstimateQBER_errors sifted (elements sampledIndices) 0) ;;
    ret (float64_of_int errors / float64_of_int sampleCount)%float.

(** The loop of [RemoveSampledBits] over the positions. *)
Fixpoint RemoveSampledBits_loop (sifted : SiftedKey.t) (toRemove : gset Z)
  (positions : list nat) (newSifted : SiftedKey.t) : res SiftedKey.t :=
  match positions with
  | [] => Ok newSifted
  | i :: rest =>
      let i := Z.of_nat i in
      if negb (bool_decide (i ∈ toRemove))
      then
        a ← index (SiftedKey.AliceKey sifted) i;
        b ← index (SiftedKey.BobKey sifted) i;
        k ← index (SiftedKey.Indices sifted) i;
        RemoveSampledBits_loop sifted toRemove rest
          (SiftedKey.mk (SiftedKey.AliceKey newSifted ++ [a])
                        (SiftedKey.BobKey newSifted ++ [b])
                        (SiftedKey.Indices newSifted ++ [k]))
      else RemoveSampledBits_loop sifted toRemove rest newSifted
  end.

(** [func (bb *BB84Protocol) RemoveSampledBits(sifted *SiftedKey, sampledIndices []int)
     *SiftedKey] *)
Definition RemoveSampledBits (bb : BB84Protocol) (sifted : SiftedKey.t)
  (sampledIndices : list Z) : res SiftedKey.t :=
  let toRemove : gset Z := list_to_set sampledIndices in
  RemoveSampledBits_loop sifted toRemove (seq 0 (length (SiftedKey.AliceKey sifted)))
    (SiftedKey.mk [] [] []).

(** Step 6 of [PerformKeyExchange]: the loop [for len(sampledMap) < sampleCount]
    drawing the indices to remove. *)
Fixpoint removal_sample (fuel : nat) (n sampleCount : Z) (sampledMap : gset Z)
  (sampledIndices : list Z) : M (list Z) :=
  if Z.of_nat (size sampledMap) <? sampleCount then
    match fuel with
    | O => lift OutOfFuel
    | S fuel' =>
        idx <- cryptoRandInt n ;;
        if negb (bool_decide (idx ∈ sampledMap))
        then removal_sample fuel' n sampleCount ({[ idx ]} ∪ sampledMap)
               (sampledIndices ++ [idx])
        else removal_sample fuel' n sampleCount sampledMap sampledIndices
    end
  else ret sampledIndices.

(** Step 6 of [PerformKeyExchange]: [sampleCount] and the indices drawn. *)
Definition removal_indices (bb : BB84Protocol) (sifted : SiftedKey.t) : M (list Z) :=
  let n := Z.of_nat (length (SiftedKey.AliceKey sifted)) in
  let sampleCount := int_of_float64 (float64_of_int n * sampleSize bb)%float in
  fun w => removal_sample (S (length (cryptoInts w))) n sampleCount ∅ [] w.

(** The loop comparing [alice.Key] and [bob.Key]; both have [keyLength] bits. *)
Fixpoint keys_match (aliceKey bobKey : list Bit) : bool :=
  match aliceKey, bobKey with
  | a :: aliceKey', b :: bobKey' => if negb (a =? b) then false else keys_match aliceKey' bobKey'
  | _, _ => true
  end.

Definition insecure_message (qber threshold : float) : msg :=
  Sprintf "INSECURE: QBER (%.2f%%) exceeds threshold (%.2f%%). Possible eavesdropping detected!"
    [AFloat (qber * 100)%float; AFloat (threshold * 100)%float].

(** [func (bb *BB84Protocol) PerformKeyExchange() ( *KeyExchangeResult, error)] *)
Definition PerformKeyExchange (bb : BB84Protocol) : M KeyExchangeResult.t :=
  alice <- try_wrap (AliceGenerateQubits bb)
             (fun err => Sprintf "alice qubit generation failed: %w" [AErr err]) ;;
  bob <- try_wrap (BobMeasureQubits bb (AliceSession.Qubits alice))
           (fun err => Sprintf "bob measurement failed: %w" [AErr err]) ;;
  sifted <- try_wrap (lift (BasisReconciliation bb alice bob))
              (fun err => Sprintf "basis reconciliation failed: %w" [AErr err]) ;;
  let rawKeyLength := Z.of_nat (length (SiftedKey.AliceKey sifted)) in
  if rawKeyLength =? 0
  then fail (Sprintf "no matching bases found - sifted key is empty" [])
  else
    qber <- try_wrap (EstimateQBER bb sifted)
              (fun err => Sprintf "QBER estimation failed: %w" [AErr err]) ;;
    if (qberThreshold bb <? qber)%float
    then
      ret (KeyExchangeResult.mk [] rawKeyLength 0 qber false
             (insecure_message qber (qberThreshold bb)))
    else
      sampledIndices <- removal_indices bb sifted ;;
      finalSifted <- lift (RemoveSampledBits bb sifted sampledIndices) ;;
      let finalLength := Z.of_nat (length (SiftedKey.AliceKey finalSifted)) in
      if finalLength <? keyLength bb
      then
        ret (KeyExchangeResult.mk [] rawKeyLength 0 qber false
               (Sprintf "Insufficient key material: got %d bits, need %d bits"
                  [AInt finalLength; AInt (keyLength bb)]))
      else
        aliceKey <- lift (slice (SiftedKey.AliceKey finalSifted) 0 (keyLength bb)) ;;
        bobKey <- lift (slice (SiftedKey.BobKey finalSifted) 0 (keyLength bb)) ;;
        if negb (keys_match aliceKey bobKey)
        then
          ret (KeyExchangeResult.mk [] rawKeyLength 0 qber false
                 (Sprintf "Key mismatch detected after sifting" []))
        else
          ret (KeyExchangeResult.mk (BitsToBytes aliceKey) rawKeyLength
                 (Z.of_nat (length aliceKey)) qber true
                 (Sprintf "Secure key generated successfully! QBER: %.2f%%"
                    [AFloat (qber * 100)%float])).

End Protocol.
End BB84.

(* ===================================================================== *)
(** ** Package models/qkd and the session manager                         *)
(* ===================================================================== *)

(** [type SessionStatus string] with its six constants. *)
Inductive SessionStatus : Type :=
| SessionInitiating
| SessionWaitingForBob
| SessionActive
| SessionCompleted
| SessionAborted
| SessionFailed.

#[global] Instance SessionStatus_eq_dec : EqDecision SessionStatus.
Proof. solve_decision. Defined.

Module QKDSession.
Record t : Type := mk {
  SessionID : positive;
  AliceID : string;
  BobID : string;
  Status : SessionStatus;
  Backend : string;
  KeyLength : Z;
  QBER : float;
  RawKeyLength : Z;
  FinalKeyLength : Z;
  IsSecure : bool;
  Message : msg;
  CreatedAt : Z;
  CompletedAt : option Z;
  ExpiresAt : Z
}.

Definition with_status (s : t) (st : SessionStatus) : t :=
  mk (SessionID s) (AliceID s) (BobID s) st (Backend s) (KeyLength s) (QBER s)
     (RawKeyLength s) (FinalKeyLength s) (IsSecure s) (Message s) (CreatedAt s)
     (CompletedAt s) (ExpiresAt s).
End QKDSession.

Module QuantumKey.
Record t : Type := mk {
  KeyID : positive;
  SessionID : positive;
  KeyMaterial : list Z;
  KeyLength : Z;
  GeneratedAt : Z;
  ExpiresAt : Z;
  UsedAt : option Z;
  IsActive : bool
}.
End QuantumKey.

Module SessionCreateRequest.
Record t : Type := mk {
  AliceID : string;
  KeyLength : Z;
  Backend : string;
  TTLMinutes : Z
}.
End SessionCreateRequest.

Module Session.
Import Quantum Crypto BB84.
Local Open Scope go_scope.

Definition ErrInvalidAliceID : msg := Sprintf "invalid Alice ID" [].
Definition ErrInvalidKeyLength : msg := Sprintf "key length must be between 128 and 4096 bits" [].
Definition ErrInvalidTTL : msg := Sprintf "TTL must be between 1 and 10080 minutes" [].
Definition ErrSessionNotFound : msg := Sprintf "session not found" [].
Definition ErrSessionExpired : msg := Sprintf "session has expired" [].
Definition ErrSessionInProgress : msg := Sprintf "session already in progress" [].

Definition BackendSimulator : string := "simulator".

(** [time.Minute] and [time.Hour] in nanoseconds. *)
Definition Minute : Z := 60 * 1000000000.
Definition Hour : Z := 60 * Minute.

(** [func (r *SessionCreateRequest) Validate() error]: the request with its
    defaults filled in, and the error. *)
Definition Validate (r : SessionCreateRequest.t) : SessionCreateRequest.t * option msg :=
  if String.eqb (SessionCreateRequest.AliceID r) "" then (r, Some ErrInvalidAliceID)
  else if (SessionCreateRequest.KeyLength r <? 128) || (SessionCreateRequest.KeyLength r >? 4096)
  then (r, Some ErrInvalidKeyLength)
  else
    let backend := if String.eqb (SessionCreateRequest.Backend r) ""
                   then BackendSimulator else SessionCreateRequest.Backend r in
    let ttl := if SessionCreateRequest.TTLMinutes r =? 0
               then 1440 else SessionCreateRequest.TTLMinutes r in
    let r := SessionCreateRequest.mk (SessionCreateRequest.AliceID r)
               (SessionCreateRequest.KeyLength r) backend ttl in
    if (ttl <? 1) || (ttl >? 10080) then (r, Some ErrInvalidTTL) else (r, None).

Section Manager.
Context {B : Type} `{QuantumBackend B} {hashes : HashFamily}.

(** [type SessionManager struct]; the mutex is not modelled, calls run one
    after the other. *)
Record SessionManager : Type := mkSessionManager {
  sessions : gmap positive QKDSession.t;
  keys : gmap positive QuantumKey.t;
  backend : B
}.

(** [func NewSessionManager(backend quantum.QuantumBackend) *SessionManager] *)
Definition NewSessionManager (backend : B) : SessionManager :=
  mkSessionManager ∅ ∅ backend.

(** What a method of the manager returns: the manager after the call,
    and the value or the error. *)
Definition outcome (A : Type) : Type := (SessionManager * (A + msg))%type.

(** [func (sm *SessionManager) CreateSession(req *qkd.SessionCreateRequest)
     ( *qkd.QKDSession, error)] *)
Definition CreateSession (sm : SessionManager) (req : SessionCreateRequest.t)
  : M (outcome QKDSession.t) :=
  match Validate req with
  | (_, Some err) => ret (sm, inr err)
  | (req, None) =>
      sessionID <- uuid_New ;;
      now <- time_Now ;;
      let session :=
        QKDSession.mk sessionID (SessionCreateRequest.AliceID req) "" SessionWaitingForBob
          (SessionCreateRequest.Backend req) (SessionCreateRequest.KeyLength req)
          0%float 0 0 false (Sprintf "" []) now None
          (now + SessionCreateRequest.TTLMinutes req * Minute) in
      ret (mkSessionManager (<[sessionID := session]> (sessions sm)) (keys sm) (backend sm),
           inl session)
  end.

(** [func (sm *SessionManager) JoinSession(sessionID uuid.UUID, bobID string)
     ( *qkd.QKDSession, error)] *)
Definition JoinSession (sm : SessionManager) (sessionID : positive) (bobID : string)
  : M (outcome QKDSession.t) :=
  match sessions sm !! sessionID with
  | None => ret (sm, inr ErrSessionNotFound)
  | Some session =>
      now <- time_Now ;;
      if QKDSession.ExpiresAt session <? now
      then
        let session := QKDSession.with_status session SessionAborted in
        ret (mkSessionManager (<[sessionID := session]> (sessions sm)) (keys sm) (backend sm),
             inr ErrSessionExpired)
      else if negb (bool_decide (QKDSession.Status session = SessionWaitingForBob))
      then ret (sm, inr ErrSessionInProgress)
      else
        let session :=
          QKDSession.mk (QKDSession.SessionID session) (QKDSession.AliceID session) bobID
            SessionActive (QKDSession.Backend session) (QKDSession.KeyLength session)
            (QKDSession.QBER session) (QKDSession.RawKeyLength session)
            (QKDSession.FinalKeyLength session) (QKDSession.IsSecure session)
            (QKDSession.Message session) (QKDSession.CreatedAt session)
            (QKDSession.CompletedAt session) (QKDSession.ExpiresAt session) in
        ret (mkSessionManager (<[sessionID := session]> (sessions sm)) (keys sm) (backend sm),
             inl session)
  end.

(** [func (sm *SessionManager) updateSessionStatus(sessionID uuid.UUID,
     status qkd.SessionStatus, qber float64, rawKeyLen, finalKeyLen int,
     secure bool, message string)] *)
Definition updateSessionStatus (sm : SessionManager) (sessionID : positive)
  (status : SessionStatus) (qber : float) (rawKeyLen finalKeyLen : Z) (secure : bool)
  (message : msg) : M SessionManager :=
  match sessions sm !! sessionID with
  | None => ret sm
  | Some session =>
      completedAt <-
        (if bool_decide (status = SessionCompleted) || bool_decide (status = SessionFailed)
            || bool_decide (status = SessionAborted)
         then now <- time_Now ;; ret (Some now)
         else ret (QKDSession.CompletedAt session)) ;;
      let session :=
        QKDSession.mk (QKDSession.SessionID session) (QKDSession.AliceID session)
          (QKDSession.BobID session) status (QKDSession.Backend session)
          (QKDSession.KeyLength session) qber rawKeyLen finalKeyLen secure message
          (QKDSession.CreatedAt session) completedAt (QKDSession.ExpiresAt session) in
      ret (mkSessionManager (<[sessionID := session]> (sessions sm)) (keys sm) (backend sm))
  end.

(** The tail shared by both execute methods: store the generated key. *)
Definition store_key (sm : SessionManager) (sessionID : positive) (material : list Z)
  (keyLength : Z) : M (outcome QuantumKey.t) :=
  keyID <- uuid_New ;;
  now <- time_Now ;;
  let quantumKey :=
    QuantumKey.mk keyID sessionID material keyLength now (now + 24 * Hour) None true in
  ret (mkSessionManager (sessions sm) (<[keyID := quantumKey]> (keys sm)) (backend sm),
       inl quantumKey).

(** [func (sm *SessionManager) ExecuteKeyExchange(sessionID uuid.UUID)
     ( *qkd.QuantumKey, error)] *)
Definition ExecuteKeyExchange (sm : SessionManager) (sessionID : positive)
  : M (outcome QuantumKey.t) :=
  match sessions sm !! sessionID with
  | None => ret (sm, inr ErrSessionNotFound)
  | Some session =>
      if negb (bool_decide (QKDSession.Status session = SessionActive))
      then ret (sm, inr (Sprintf "session is not active" []))
      else
        let session := QKDSession.with_status session SessionInitiating in
        let sm := mkSessionManager (<[sessionID := session]> (sessions sm)) (keys sm)
                    (backend sm) in
        let bb84 := NewBB84Protocol (backend sm) (QKDSession.KeyLength session) in
        r <- catch (PerformKeyExchange bb84) ;;
        match r with
        | inr err =>
            sm <- updateSessionStatus sm sessionID SessionFailed 0%float 0 0 false err ;;
            ret (sm, inr (Sprintf "key exchange failed: %w" [AErr err]))
        | inl result =>
            sm <- updateSessionStatus sm sessionID SessionCompleted
                    (KeyExchangeResult.QBER result) (KeyExchangeResult.RawKeyLength result)
                    (KeyExchangeResult.FinalKeyLength result)
                    (KeyExchangeResult.Secure result) (KeyExchangeResult.Message result) ;;
            if negb (KeyExchangeResult.Secure result)
            then ret (sm, inr (Sprintf "key generation was not secure: %s"
                                 [AErr (KeyExchangeResult.Message result)]))
            else store_key sm sessionID (KeyExchangeResult.Key result)
                   (KeyExchangeResult.FinalKeyLength result)
        end
  end.

(** [sm.updateSessionStatus(sessionID, qkd.SessionFailed, ...); return nil, err] *)
Definition fail_session (sm : SessionManager) (sessionID : positive) (qber : float)
  (rawKeyLen finalKeyLen : Z) (message err : msg) : M (outcome QuantumKey.t) :=
  sm <- updateSessionStatus sm sessionID SessionFailed qber rawKeyLen finalKeyLen false message ;;
  ret (sm, inr err).

(** Steps 2 and 3 of [ExecuteKeyExchangeWithPostProcessing]: error
    correction and privacy amplification of the sifted key. *)
Definition post_process (sm : SessionManager) (sessionID : positive)
  (session : QKDSession.t) (bb84 : @BB84Protocol B) (sifted : SiftedKey.t) (qber : float)
  : M (outcome QuantumKey.t) :=
  let rawLen := Z.of_nat (length (SiftedKey.AliceKey sifted)) in
  let corrector := NewCascadeCorrector qber in
  r <- catch (lift (Correct corrector (SiftedKey.AliceKey sifted) (SiftedKey.BobKey sifted))) ;;
  match r with
  | inr err => fail_session sm sessionID qber rawLen 0 err err
  | inl (bobCorrected, disclosedBits) =>
      let '(keysMatch, errorRate) :=
        VerifyKeyCorrectness (SiftedKey.AliceKey sifted) bobCorrected in
      if negb keysMatch
      then
        let msg := Sprintf "Error correction failed: remaining error rate %.2f%%"
                     [AFloat (errorRate * 100)%float] in
        fail_session sm sessionID qber rawLen 0 msg msg
      else
        let amplifier := NewPrivacyAmplifier SHA3_256Method in
        let sampleBits := int_of_float64 (float64_of_int rawLen * sampleSize bb84)%float in
        let totalLeakage :=
          (float64_of_int (wrap (sampleBits + disclosedBits)) / float64_of_int rawLen)%float in
        let secureLength := CalculateSecureKeyLength rawLen qber disclosedBits 64 in
        if secureLength <? QKDSession.KeyLength session
        then
          let msg := Sprintf "Cannot generate requested key length: max secure length is %d bits"
                       [AInt secureLength] in
          fail_session sm sessionID qber rawLen secureLength msg msg
        else
          r <- catch (lift (Amplify amplifier (SiftedKey.AliceKey sifted) totalLeakage
                              (QKDSession.KeyLength session))) ;;
          match r with
          | inr err => fail_session sm sessionID qber rawLen 0 err err
          | inl finalKey =>
              let finalBits := Z.of_nat (length finalKey) * 8 in
              let msg := Sprintf "Secure key generated! QBER: %.2f%%, Disclosed bits: %d"
                           [AFloat (qber * 100)%float; AInt disclosedBits] in
              sm <- updateSessionStatus sm sessionID SessionCompleted qber rawLen finalBits
                      true msg ;;
              store_key sm sessionID finalKey finalBits
          end
  end.

(** [func (sm *SessionManager) ExecuteKeyExchangeWithPostProcessing(sessionID uuid.UUID)
     ( *qkd.QuantumKey, error)] *)
Definition ExecuteKeyExchangeWithPostProcessing (sm : SessionManager) (sessionID : positive)
  : M (outcome QuantumKey.t) :=
  match sessions sm !! sessionID with
  | None => ret (sm, inr ErrSessionNotFound)
  | Some session =>
      if negb (bool_decide (QKDSession.Status session = SessionActive))
      then ret (sm, inr (Sprintf "session is not active" []))
      else
        let session := QKDSession.with_status session SessionInitiating in
        let sm := mkSessionManager (<[sessionID := session]> (sessions sm)) (keys sm)
                    (backend sm) in
        let bb84 := NewBB84Protocol (backend sm) (wrap (QKDSession.KeyLength session * 4)) in
        r <- catch (AliceGenerateQubits bb84) ;;
        match r with
        | inr err => fail_session sm sessionID 0%float 0 0 err err
        | inl alice =>
        r <- catch (BobMeasureQubits bb84 (AliceSession.Qubits alice)) ;;
        match r with
        | inr err => fail_session sm sessionID 0%float 0 0 err err
        | inl bob =>
        r <- catch (lift (BasisReconciliation bb84 alice bob)) ;;
        match r with
        | inr err => fail_session sm sessionID 0%float 0 0 err err
        | inl sifted =>
        r <- catch (EstimateQBER bb84 sifted) ;;
        match r with
        | inr err => fail_session sm sessionID 0%float 0 0 err err
        | inl qber =>
            if (qberThreshold bb84 <? qber)%float
            then
              let msg := Sprintf "QBER too high: %.2f%% (threshold: %.2f%%)"
                           [AFloat (qber * 100)%float; AFloat (qberThreshold bb84 * 100)%float] in
              sm <- updateSessionStatus sm sessionID SessionAborted qber
                      (Z.of_nat (length (SiftedKey.AliceKey sifted))) 0 false msg ;;
              ret (sm, inr msg)
            else post_process sm sessionID session bb84 sifted qber
        end end end end
  end.

Definition ErrKeyNotFound : msg := Sprintf "key not found" [].
Definition ErrKeyExpired : msg := Sprintf "key has expired" [].
Definition ErrUnauthorized : msg := Sprintf "unauthorized access" [].

(** [func (sm *SessionManager) GetSession(sessionID uuid.UUID) ( *qkd.QKDSession, error)] *)
Definition GetSession (sm : SessionManager) (sessionID : positive) : QKDSession.t + msg :=
  match sessions sm !! sessionID with
  | None => inr ErrSessionNotFound
  | Some session => inl session
  end.

Definition deactivated (key : QuantumKey.t) (usedAt : option Z) : QuantumKey.t :=
  QuantumKey.mk (QuantumKey.KeyID key) (QuantumKey.SessionID key)
    (QuantumKey.KeyMaterial key) (QuantumKey.KeyLength key) (QuantumKey.GeneratedAt key)
    (QuantumKey.ExpiresAt key) usedAt false.

(** [func (sm *SessionManager) GetKey(keyID uuid.UUID, userID string)
     ( *qkd.QuantumKey, error)] *)
Definition GetKey (sm : SessionManager) (keyID : positive) (userID : string)
  : M (outcome QuantumKey.t) :=
  match keys sm !! keyID with
  | None => ret (sm, inr ErrKeyNotFound)
  | Some key =>
      match sessions sm !! QuantumKey.SessionID key with
      | None => ret (sm, inr ErrSessionNotFound)
      | Some session =>
          if negb (String.eqb (QKDSession.AliceID session) userID)
             && negb (String.eqb (QKDSession.BobID session) userID)
          then ret (sm, inr ErrUnauthorized)
          else
            now <- time_Now ;;
            if QuantumKey.ExpiresAt key <? now
            then
              let key := deactivated key (QuantumKey.UsedAt key) in
              ret (mkSessionManager (sessions sm) (<[keyID := key]> (keys sm)) (backend sm),
                   inr ErrKeyExpired)
            else ret (sm, inl key)
      end
  end.

(** [func (sm *SessionManager) RevokeKey(keyID uuid.UUID) error] *)
Definition RevokeKey (sm : SessionManager) (keyID : positive)
  : M (SessionManager * option msg) :=
  match keys sm !! keyID with
  | None => ret (sm, Some ErrKeyNotFound)
  | Some key =>
      now <- time_Now ;;
      let key := deactivated key (Some now) in
      ret (mkSessionManager (sessions sm) (<[keyID := key]> (keys sm)) (backend sm), None)
  end.

(** [func (sm *SessionManager) CleanupExpiredSessions() int]: the two
    [range] loops delete the entries whose expiry lies before [now]. *)
Definition CleanupExpiredSessions (sm : SessionManager) : M (SessionManager * Z) :=
  now <- time_Now ;;
  let sessions' :=
    filter (fun kv => ~ QKDSession.ExpiresAt (snd kv) < now) (sessions sm) in
  let keys' :=
    filter (fun kv => ~ QuantumKey.ExpiresAt (snd kv) < now) (keys sm) in
  let removed :=
    (Z.of_nat (size (sessions sm)) - Z.of_nat (size sessions'))
    + (Z.of_nat (size (keys sm)) - Z.of_nat (size keys')) in
  ret (mkSessionManager sessions' keys' (backend sm), removed).

End Manager.
End Session.

(* ===================================================================== *)
(** ** Concrete runs                                                      *)
(* ===================================================================== *)

Module Scenarios.
Import Quantum Crypto BB84 Session.
Local Open Scope go_scope.

(** A world in which every random bit and basis is 0 (so all bases match),
    every [rand.Float64()] returns [r], and [crypto/rand] draws
    0, 1, 2, ... *)
Definition flat_world (ints floats draws : nat) (r : float) : World :=
  mkWorld (repeat 0 ints) (repeat r floats)
          (map (fun i => Some (Z.of_nat i)) (seq 0 draws))
          [7; 8; 9]%positive [100; 200; 300; 400; 500; 600].

(** A noisy simulator whose every noise draw (0.1) is below the noise
    level (0.25): every transmitted bit is flipped. *)
Definition noisy_backend : SimulatorBackend := NewSimulatorBackend true 0.25%float.
Definition noisy_world : World := flat_world 1536 1024 64 0.1%float.

(** Alice creates a 128-bit session, Bob joins, the exchange is executed
    over the noisy channel. *)
Definition noisy_session_run : res (@outcome SimulatorBackend QuantumKey.t) :=
  fst ((x <- CreateSession (NewSessionManager noisy_backend)
              (SessionCreateRequest.mk "alice" 128 "" 60) ;;
        x <- JoinSession (fst x) 7%positive "bob" ;;
        ExecuteKeyExchange (fst x) 7%positive) noisy_world).

(** A noise-free exchange of a 16-bit key with a 1% sample. *)
Definition small_protocol : @BB84Protocol SimulatorBackend :=
  SetSampleSize (NewBB84Protocol (NewSimulatorBackend false 0%float) 16) 0.01%float.
Definition small_world : World := flat_world 192 0 4 0%float.

(** The sifted key of that exchange: 64 matching positions, all bits 0. *)
Definition small_sifted : SiftedKey.t :=
  SiftedKey.mk (repeat 0 64) (repeat 0 64) (map Z.of_nat (seq 0 64)).

(** The world once the key is sifted, and once the QBER sample (the single
    position 0) is drawn. *)
Definition small_world_sifted : World := flat_world 0 0 4 0%float.
Definition small_world_sampled : World :=
  mkWorld [] [] [Some 1; Some 2; Some 3] [7; 8; 9]%positive [100; 200; 300; 400; 500; 600].

(** A channel with 5% noise whose noise draws hit exactly the positions
    0, 100, 200, ...: the second draw of each transmitted qubit decides the
    flip. *)
Definition sparse_floats : list float :=
  flat_map (fun i => [0.9%float; if (i mod 100 =? 0)%nat then 0%float else 0.9%float])
           (seq 0 2048).
Definition sparse_world : World :=
  mkWorld (repeat 0 6144) sparse_floats (map (fun i => Some (Z.of_nat i)) (seq 0 300))
          [7; 8; 9]%positive [100; 200; 300; 400; 500; 600].

(** The manager and the world after Alice created a 128-bit session and
    Bob joined it. *)
Definition joined : @SessionManager SimulatorBackend * World :=
  let sm := NewSessionManager (NewSimulatorBackend true 0.05%float) in
  match (x <- CreateSession sm (SessionCreateRequest.mk "alice" 128 "" 60) ;;
         JoinSession (fst x) 7%positive "bob") sparse_world with
  | (Ok x, w) => (fst x, w)
  | (_, w) => (sm, w)
  end.

(** The post-processed exchange of that session, with the stand-in hashes. *)
Definition processed : res (@outcome SimulatorBackend QuantumKey.t) * World :=
  ExecuteKeyExchangeWithPostProcessing (hashes := padding_hashes)
    (fst joined) 7%positive (snd joined).

(** The manager and the key returned by a call, with a default. *)
Definition manager_of {B A : Type} (default : @SessionManager B)
  (r : res (@outcome B A)) : @SessionManager B :=
  match r with
  | Ok (sm, _) => sm
  | _ => default
  end.

Definition key_of {B : Type} (r : res (@outcome B QuantumKey.t)) : QuantumKey.t :=
  match r with
  | Ok (_, inl key) => key
  | _ => QuantumKey.mk 1 1 [] 0 0 0 None false
  end.

Definition processed_manager : @SessionManager SimulatorBackend :=
  manager_of (fst joined) (fst processed).

Definition processed_key : QuantumKey.t := key_of (fst processed).


(** A world with identifiers and a clock only. *)
Definition quiet_world : World := flat_world 0 0 0 0%float.

(** A noise-free simulator and an empty manager over it. *)
Definition quiet_backend : SimulatorBackend := NewSimulatorBackend false 0%float.
Definition fresh_manager : @SessionManager SimulatorBackend := NewSessionManager quiet_backend.

Definition active_session : QKDSession.t :=
  QKDSession.mk 7 "alice" "bob" SessionActive "simulator" 128 0 0 0 false
    (Sprintf "" []) 100 None 3600000000100.


(** A manager whose session 7 expires at instant 50 and holds key 8, which
    expires at instant 5000. *)
Definition stored_key : QuantumKey.t :=
  QuantumKey.mk 8 7 [165; 90] 16 10 5000 None true.
Definition keyed_manager : @SessionManager SimulatorBackend :=
  mkSessionManager
    {[ 7%positive := QKDSession.mk 7 "alice" "bob" SessionCompleted "simulator" 16 0 64 16
                       true (Sprintf "" []) 1 (Some 10) 50 ]}
    {[ 8%positive := stored_key ]} quiet_backend.

End Scenarios.

(* ===================================================================== *)
(** * Theorems                                                            *)
(* ===================================================================== *)

(** ** Bit and byte packing *)

Module PackingFacts.
Import Quantum.

#[local] Arguments Nat.div : simpl never.
#[local] Arguments Nat.modulo : simpl never.

Lemma mask_test (b k : Z) :
  0 <= k -> (Z.land b (Z.shiftl 1 k) =? 0) = negb (Z.testbit b k).
Proof.
  intros Hk.
  rewrite Z.shiftl_1_l.
  destruct (Z.testbit b k) eqn:Hb; simpl.
  - apply Z.eqb_neq. intros H0.
    apply (f_equal (fun z => Z.testbit z k)) in H0.
    rewrite Z.land_spec, Hb, Z.pow2_bits_true, Z.bits_0 in H0 by lia.
    discriminate.
  - apply Z.eqb_eq. apply Z.bits_inj'. intros n Hn.
    rewrite Z.land_spec, Z.bits_0, Z.pow2_bits_eqb by lia.
    destruct (Z.eqb_spec k n) as [->|]; [by rewrite Hb|apply andb_false_r].
Qed.

Lemma setbit_test (b k j : Z) :
  0 <= k -> 0 <= j ->
  Z.testbit (Z.lor b (Z.shiftl 1 k)) j = Z.testbit b j || (k =? j).
Proof.
  intros Hk Hj. rewrite Z.lor_spec, Z.shiftl_1_l, Z.pow2_bits_eqb by lia. done.
Qed.

(** A bit index is determined by its byte index and its offset. *)
Lemma index_split (p i : nat) :
  (p / 8 = i / 8)%nat -> (p mod 8 = i mod 8)%nat -> p = i.
Proof.
  intros Hd Hm.
  rewrite (Nat.div_mod_eq p 8), (Nat.div_mod_eq i 8). lia.
Qed.

Lemma BitsToBytes_step_length bytes i bit :
  length (BitsToBytes_step bytes i bit) = length bytes.
Proof.
  unfold BitsToBytes_step. destruct (bit =? One); [apply length_alter|done].
Qed.

Lemma nth_lookup_Z (l : list Z) (i : nat) :
  nth i l 0 = default 0 (l !! i).
Proof. revert i. induction l; intros [|i]; simpl; auto. Qed.

Lemma bit_at_step bytes i bit p :
  (i / 8 < length bytes)%nat ->
  bit_at (BitsToBytes_step bytes i bit) p =
  bit_at bytes p || ((bit =? One) && Nat.eqb p i).
Proof.
  intros Hi. unfold bit_at, BitsToBytes_step.
  destruct (bit =? One); simpl; [|by rewrite orb_false_r].
  pose proof (Nat.mod_upper_bound p 8 ltac:(lia)) as Hp8.
  pose proof (Nat.mod_upper_bound i 8 ltac:(lia)) as Hi8.
  rewrite !nth_lookup_Z.
  destruct (decide (p / 8 = i / 8)%nat) as [Heq|Hne].
  - rewrite Heq, list_lookup_alter_eq.
    destruct (lookup_lt_is_Some_2 bytes (i / 8)%nat Hi) as [b Hb].
    rewrite Hb. simpl. rewrite setbit_test by lia.
    f_equal.
    destruct (Nat.eqb_spec p i) as [->|Hpi].
    + apply Z.eqb_eq. lia.
    + apply Z.eqb_neq. intros Hk. apply Hpi, index_split; lia.
  - rewrite list_lookup_alter_ne by done.
    destruct (Nat.eqb_spec p i) as [->|Hpi]; [done|by rewrite orb_false_r].
Qed.

Ltac nat_cases :=
  repeat match goal with
    | |- context [Nat.leb ?a ?b] => destruct (Nat.leb_spec a b)
    | |- context [Nat.ltb ?a ?b] => destruct (Nat.ltb_spec a b)
    | |- context [Nat.eqb ?a ?b] => destruct (Nat.eqb_spec a b)
    end; try lia.

Lemma bit_at_loop bits : forall i bytes p,
  (i + length bits <= 8 * length bytes)%nat ->
  bit_at (BitsToBytes_loop bits i bytes) p =
  bit_at bytes p ||
    (Nat.leb i p && Nat.ltb p (i + length bits) && (nth (p - i) bits 0 =? One)).
Proof.
  induction bits as [|bit rest IH]; intros i bytes p Hlen;
    cbn [BitsToBytes_loop length] in *.
  - nat_cases; cbn [andb]; by rewrite orb_false_r.
  - rewrite IH by (rewrite BitsToBytes_step_length; lia).
    rewrite bit_at_step by (apply Nat.Div0.div_lt_upper_bound; lia).
    rewrite <- orb_assoc. f_equal.
    nat_cases; subst; cbn [andb orb]; rewrite ?andb_false_r, ?andb_true_r; cbn [orb].
    + replace (p - i)%nat with (S (p - S i)) by lia. done.
    + by rewrite Nat.sub_diag, orb_false_r.
Qed.

Lemma BitsToBytes_loop_length bits : forall i bytes,
  length (BitsToBytes_loop bits i bytes) = length bytes.
Proof.
  induction bits as [|bit rest IH]; intros i bytes; simpl; [done|].
  by rewrite IH, BitsToBytes_step_length.
Qed.

Lemma BitsToBytes_length bits :
  length (BitsToBytes bits) = ((length bits + 7) / 8)%nat.
Proof.
  unfold BitsToBytes. by rewrite BitsToBytes_loop_length, length_replicate.
Qed.

Lemma bit_at_zeros n p : bit_at (replicate n 0) p = false.
Proof.
  unfold bit_at. rewrite nth_lookup_Z.
  destruct (replicate n 0 !! (p / 8)%nat) as [z|] eqn:Hz; simpl.
  - apply lookup_replicate in Hz as [-> _]. apply Z.bits_0.
  - apply Z.bits_0.
Qed.

Lemma ceil8_bound (n : nat) : (n <= 8 * ((n + 7) / 8))%nat.
Proof.
  pose proof (Nat.div_mod_eq (n + 7) 8).
  pose proof (Nat.mod_upper_bound (n + 7) 8 ltac:(lia)). lia.
Qed.

(** The packed bit at index [p] is bit [p] of the input; padding is zero. *)
Lemma bit_at_BitsToBytes bits p :
  bit_at (BitsToBytes bits) p =
  Nat.ltb p (length bits) && (nth p bits 0 =? One).
Proof.
  unfold BitsToBytes.
  rewrite bit_at_loop by (rewrite length_replicate; apply ceil8_bound).
  rewrite bit_at_zeros, Nat.sub_0_r. simpl.
  by replace (0 <=? p)%nat with true by (symmetry; apply Nat.leb_le; lia).
Qed.

Lemma BytesToBits_loop_ok bytes n : forall i,
  (i + n <= 8 * length bytes)%nat ->
  BytesToBits_loop bytes i n =
  Ok (map (fun p => if bit_at bytes p then One else Zero) (seq i n)).
Proof.
  induction n as [|n IH]; intros i Hn; simpl; [done|].
  assert (i / 8 < length bytes)%nat as Hi
    by (apply Nat.Div0.div_lt_upper_bound; lia).
  destruct (lookup_lt_is_Some_2 bytes (i / 8)%nat Hi) as [b Hb].
  rewrite Hb, IH by lia.
  pose proof (Nat.mod_upper_bound i 8 ltac:(lia)).
  rewrite mask_test by lia.
  unfold bit_at at 2. rewrite nth_lookup_Z, Hb. simpl.
  by destruct (Z.testbit b _).
Qed.


Lemma map_seq_bits (bits : list Bit) :
  Forall is_bit bits ->
  map (fun p => if Nat.ltb p (length bits) && (nth p bits 0 =? One)
                then One else Zero)
      (seq 0 (length bits)) = bits.
Proof.
  intros Hbits.
  set (f := fun p : nat => _).
  apply nth_ext with (d := f 0%nat) (d' := 0).
  - by rewrite length_map, length_seq.
  - rewrite length_map, length_seq. intros n Hn.
    rewrite map_nth, seq_nth by lia. subst f. cbn beta.
    rewrite Nat.add_0_l.
    replace (n <? length bits)%nat with true by (symmetry; apply Nat.ltb_lt; lia).
    cbn [andb].
    assert (is_bit (nth n bits 0)) as [->| ->]; [|done..].
    rewrite Forall_forall in Hbits. apply Hbits, list_elem_of_In, nth_In. lia.
Qed.

(** C7: packing a bit sequence and unpacking it at its own length gives
    the sequence back; the packing is most-significant-bit first (bit [p]
    of the input is bit [7 - p mod 8] of byte [p / 8]) and the unused
    trailing bits of the last byte are zero. *)
Theorem BytesToBits_BitsToBytes (bits : list Bit) :
  Forall is_bit bits ->
  BytesToBits (BitsToBytes bits) (Z.of_nat (length bits)) = Ok bits
  /\ length (BitsToBytes bits) = ((length bits + 7) / 8)%nat
  /\ (forall p, (p < length bits)%nat ->
        Z.testbit (nth (p / 8) (BitsToBytes bits) 0) (7 - Z.of_nat (p mod 8))
        = (nth p bits 0 =? One))
  /\ (forall p, (length bits <= p)%nat ->
        Z.testbit (nth (p / 8) (BitsToBytes bits) 0) (7 - Z.of_nat (p mod 8))
        = false).
Proof.
  intros Hbits. repeat split.
  - unfold BytesToBits.
    replace (Z.of_nat (length bits) <? 0) with false by (symmetry; apply Z.ltb_ge; lia).
    rewrite Nat2Z.id, BytesToBits_loop_ok
      by (rewrite BitsToBytes_length; apply ceil8_bound).
    f_equal. etrans; [|exact (map_seq_bits bits Hbits)].
    apply map_ext. intros p. by rewrite bit_at_BitsToBytes.
  - apply BitsToBytes_length.
  - intros p Hp. fold (bit_at (BitsToBytes bits) p).
    rewrite bit_at_BitsToBytes.
    by replace (p <? length bits)%nat with true by (symmetry; apply Nat.ltb_lt; lia).
  - intros p Hp. fold (bit_at (BitsToBytes bits) p).
    rewrite bit_at_BitsToBytes.
    by replace (p <? length bits)%nat with false by (symmetry; apply Nat.ltb_ge; lia).
Qed.

Lemma BytesToBits_BitsToBytes_witness :
  BytesToBits (BitsToBytes [1; 0; 1; 1; 0; 0; 0; 0; 1; 1]) 10
  = Ok [1; 0; 1; 1; 0; 0; 0; 0; 1; 1].
Proof.
  refine (proj1 (BytesToBits_BitsToBytes [1; 0; 1; 1; 0; 0; 0; 0; 1; 1] _)).
  repeat constructor; (by left) || (by right).
Defined.



End PackingFacts.

(** ** Facts about the Go runtime fragment *)

Module GoFacts.

Lemma wrap_id z : min_int <= z <= max_int -> wrap z = z.
Proof.
  unfold wrap, min_int, max_int. intros Hz.
  rewrite Z.mod_small; lia.
Qed.

Lemma div_nat (a b : nat) :
  b <> 0%nat -> Z.of_nat a <= max_int ->
  div (Z.of_nat a) (Z.of_nat b) = Ok (Z.of_nat (a / b)).
Proof.
  intros Hb Ha. unfold div.
  destruct (Z.eqb_spec (Z.of_nat b) 0); [lia|].
  rewrite Z.quot_div_nonneg, <- Nat2Z.inj_div by lia.
  rewrite wrap_id; [done|].
  pose proof (Nat.Div0.div_le_upper_bound a b a).
  unfold min_int, max_int in *. nia.
Qed.

Lemma slice_nat {A} (l : list A) (s e : nat) :
  (s <= e <= length l)%nat ->
  slice l (Z.of_nat s) (Z.of_nat e) = Ok (take (e - s) (drop s l)).
Proof.
  intros Hse. unfold slice.
  destruct (Z.leb_spec 0 (Z.of_nat s)); [|lia].
  destruct (Z.leb_spec (Z.of_nat s) (Z.of_nat e)); [|lia].
  destruct (Z.leb_spec (Z.of_nat e) (Z.of_nat (length l))); [|lia].
  cbn. by rewrite <- Nat2Z.inj_sub, !Nat2Z.id by lia.
Qed.

Lemma index_nat {A} (l : list A) (i : nat) (x : A) :
  l !! i = Some x -> index l (Z.of_nat i) = Ok x.
Proof.
  intros Hi. unfold index.
  destruct (Z.ltb_spec (Z.of_nat i) 0); [lia|].
  by rewrite Nat2Z.id, Hi.
Qed.

Lemma store_nat {A} (l : list A) (i : nat) (x : A) :
  (i < length l)%nat -> store l (Z.of_nat i) x = Ok (<[i := x]> l).
Proof.
  intros Hi. unfold store.
  destruct (Z.leb_spec 0 (Z.of_nat i)); [|lia].
  destruct (Z.ltb_spec (Z.of_nat i) (Z.of_nat (length l))); [|lia].
  cbn. by rewrite Nat2Z.id.
Qed.

Lemma wrap_high z : max_int < z <= 2 * max_int + 1 -> wrap z = z - 2 ^ 64.
Proof.
  unfold wrap, max_int. intros Hz.
  replace (z + 2 ^ 63) with ((z - 2 ^ 63) + 1 * 2 ^ 64) by lia.
  rewrite Z_mod_plus_full, Z.mod_small; lia.
Qed.

Lemma quot2_negative z : - 2 ^ 63 <= z <= -2 -> - 2 ^ 63 <= Z.quot z 2 <= -1.
Proof.
  intros Hz.
  rewrite <- (Z.opp_involutive z), Z.quot_opp_l by lia.
  assert (1 <= Z.quot (- z) 2) by (apply Z.quot_le_lower_bound; lia).
  assert (Z.quot (- z) 2 <= 2 ^ 63) by (apply Z.quot_le_upper_bound; lia).
  lia.
Qed.

Lemma slice_not_OutOfFuel {A} (l : list A) (lo hi : Z) : slice l lo hi <> OutOfFuel.
Proof. unfold slice. by destruct (_ && _). Qed.

Lemma slice_Ok_inv {A} (l out : list A) (lo hi : Z) :
  slice l lo hi = Ok out -> 0 <= lo <= hi /\ hi <= Z.of_nat (length l).
Proof.
  unfold slice.
  destruct (Z.leb_spec 0 lo); [|done].
  destruct (Z.leb_spec lo hi); [|done].
  destruct (Z.leb_spec hi (Z.of_nat (length l))); [|done]. lia.
Qed.

End GoFacts.

(** ** binary64 rounding

    The operations on [float64] are those of IEEE 754 as [SpecFloat]
    defines them; the lemmas below bound the rounded product of a number
    of the unit interval and an exactly represented integer. *)

Module FloatFacts.

Lemma digits2_pos_bounds (m : positive) :
  2 ^ (Z.pos (digits2_pos m) - 1) <= Z.pos m < 2 ^ Z.pos (digits2_pos m).
Proof.
  induction m as [m IH|m IH|]; cbn [digits2_pos].
  - rewrite Pos2Z.inj_succ, Z.pow_succ_r by lia.
    replace (Z.succ (Z.pos (digits2_pos m)) - 1) with (Z.succ (Z.pos (digits2_pos m) - 1)) by lia.
    rewrite Z.pow_succ_r by lia. lia.
  - rewrite Pos2Z.inj_succ, Z.pow_succ_r by lia.
    replace (Z.succ (Z.pos (digits2_pos m)) - 1) with (Z.succ (Z.pos (digits2_pos m) - 1)) by lia.
    rewrite Z.pow_succ_r by lia. lia.
  - simpl. lia.
Qed.

Lemma digits2_pos_le (m : positive) (k : Z) :
  Z.pos m < 2 ^ k -> Z.pos (digits2_pos m) <= k.
Proof.
  intros Hm. pose proof (digits2_pos_bounds m) as [Hlo _].
  destruct (Z.le_gt_cases (Z.pos (digits2_pos m)) k) as [|Hgt]; [done|].
  assert (0 <= k).
  { destruct (Z.le_gt_cases 0 k); [done|]. rewrite Z.pow_neg_r in Hm by lia. lia. }
  assert (2 ^ k <= 2 ^ (Z.pos (digits2_pos m) - 1)) by (apply Z.pow_le_mono_r; lia).
  lia.
Qed.

Lemma iter_pos_iter {A} (f : A -> A) (p : positive) (x : A) :
  SpecFloat.iter_pos f p x = Pos.iter f x p.
Proof.
  revert x. induction p as [p IH|p IH|]; intros x; cbn [SpecFloat.iter_pos Pos.iter].
  - by rewrite !IH, <- !Pos.iter_swap.
  - by rewrite !IH.
  - done.
Qed.

Lemma shr_1_spec (mrs : shr_record) :
  0 <= shr_m mrs ->
  shr_m (shr_1 mrs) = shr_m mrs / 2
  /\ shr_r (shr_1 mrs) = Z.odd (shr_m mrs)
  /\ shr_s (shr_1 mrs) = shr_r mrs || shr_s mrs.
Proof.
  destruct mrs as [m r s]. cbn [shr_m shr_r shr_s]. intros Hm.
  destruct m as [|[p|p|]|p]; cbn [shr_1 shr_m shr_r shr_s]; try lia.
  - done.
  - split; [|done]. rewrite Pos2Z.inj_xI. apply Z.div_unique with 1; lia.
  - split; [|done]. rewrite Pos2Z.inj_xO. apply Z.div_unique with 0; lia.
  - done.
Qed.

(** Shifting [M] right by [p] bits: the quotient, and no sticky bit when
    the shift is exact. *)
Lemma shr_iter_spec (M : Z) (p : positive) :
  0 <= M ->
  let mrs := SpecFloat.iter_pos shr_1 p {| shr_m := M; shr_r := false; shr_s := false |} in
  shr_m mrs = M / 2 ^ Z.pos p
  /\ (M mod 2 ^ Z.pos p = 0 -> shr_r mrs = false /\ shr_s mrs = false).
Proof.
  intros HM. cbv zeta. rewrite iter_pos_iter.
  apply Pos.iter_ind with (P := fun p mrs =>
    shr_m mrs = M / 2 ^ Z.pos p
    /\ (M mod 2 ^ Z.pos p = 0 -> shr_r mrs = false /\ shr_s mrs = false)).
  - destruct (shr_1_spec {| shr_m := M; shr_r := false; shr_s := false |} HM)
      as (-> & -> & ->). cbn [shr_m shr_r shr_s].
    split; [done|]. intros Hmod. split; [|done].
    rewrite Z.pow_1_r in Hmod. rewrite <- Z.negb_even, Zeven_mod, Hmod. done.
  - clear p. intros p mrs [Hm Hex].
    assert (0 <= shr_m mrs) as Hpos by (rewrite Hm; apply Z.div_pos; lia).
    destruct (shr_1_spec mrs Hpos) as (-> & -> & ->).
    rewrite Pos2Z.inj_succ, Z.pow_succ_r by lia.
    split.
    + rewrite Hm, Z.div_div by lia. f_equal. lia.
    + intros Hmod.
      assert (0 < 2 ^ Z.pos p) by (apply Z.pow_pos_nonneg; lia).
      pose proof (Z.div_mod M (2 * 2 ^ Z.pos p) ltac:(lia)) as Hdm.
      rewrite Hmod in Hdm.
      assert (M = 2 ^ Z.pos p * (2 * (M / (2 * 2 ^ Z.pos p)))) as HM2 by lia.
      assert (M mod 2 ^ Z.pos p = 0) as Hmod'.
      { rewrite HM2 at 1. rewrite Z.mul_comm. apply Z.mod_mul. lia. }
      destruct (Hex Hmod') as [-> ->]. split; [|done].
      rewrite Hm. rewrite HM2 at 1.
      rewrite Z.mul_comm, Z.div_mul by lia.
      rewrite <- Z.negb_even, Z.even_mul. done.
Qed.


Lemma fexp_eq (e : Z) : fexp prec emax e = Z.max (e - 53) (- 1074).
Proof. reflexivity. Qed.

Lemma round_nearest_even_cases (m : Z) (l : location) :
  round_nearest_even m l = m
  \/ (round_nearest_even m l = m + 1 /\ l <> loc_Exact).
Proof.
  destruct l as [|[]]; cbn [round_nearest_even];
    try (by left); try (by right).
  destruct (Z.even m); [by left|by right].
Qed.

(** First half of IEEE rounding on an exact product [M * 2 ^ E] that
    lies between the integers [K] and [L]: the rounded mantissa stays
    between them on the grid of the result. *)
Lemma shr_fexp_round_between (M : positive) (E K L : Z) :
  E <= 0 -> 0 <= K -> L < 2 ^ 53 ->
  K * 2 ^ (- E) <= Z.pos M <= L * 2 ^ (- E) ->
  forall mrs e, shr_fexp prec emax (Z.pos M) E loc_Exact = (mrs, e) ->
  e <= 0
  /\ K * 2 ^ (- e)
     <= round_nearest_even (shr_m mrs) (loc_of_shr_record mrs)
     <= L * 2 ^ (- e).
Proof.
  intros HE HK HL [HKM HM] mrs e.
  unfold shr_fexp, shr, shr_record_of_loc. cbn [Zdigits2].
  set (d := Z.pos (digits2_pos M)).
  assert (0 < 2 ^ (- E)) as HpowE by (apply Z.pow_pos_nonneg; lia).
  assert (d + E <= 53) as Hd.
  { assert (d <= 53 - E); [|lia]. apply digits2_pos_le.
    assert (0 < L) by nia.
    assert (L * 2 ^ (- E) < 2 ^ 53 * 2 ^ (- E))
      by (apply Z.mul_lt_mono_pos_r; lia).
    rewrite <- Z.pow_add_r in * by lia.
    replace (53 - E) with (53 + - E) by lia. lia. }
  rewrite fexp_eq.
  destruct (Z.max (d + E - 53) (- 1074) - E) as [|p|p] eqn:Hn.
  - intros [= <- <-]. cbn [shr_m loc_of_shr_record round_nearest_even]. lia.
  - intros [= <- <-].
    destruct (shr_iter_spec (Z.pos M) p ltac:(lia)) as [Hm Hex].
    set (mrs := SpecFloat.iter_pos shr_1 p _) in *.
    split; [lia|].
    assert (0 < 2 ^ Z.pos p) as Hpow by (apply Z.pow_pos_nonneg; lia).
    assert (2 ^ (- E) = 2 ^ (- (E + Z.pos p)) * 2 ^ Z.pos p) as Hsplit.
    { rewrite <- Z.pow_add_r by lia. f_equal. lia. }
    rewrite Hsplit, !Z.mul_assoc in HM, HKM.
    set (X := L * 2 ^ (- (E + Z.pos p))) in *.
    set (Y := K * 2 ^ (- (E + Z.pos p))) in *.
    pose proof (Z.div_mod (Z.pos M) (2 ^ Z.pos p) ltac:(lia)) as Hdm.
    pose proof (Z.mod_pos_bound (Z.pos M) (2 ^ Z.pos p) Hpow) as Hr.
    rewrite <- Hm in Hdm.
    assert (Y <= shr_m mrs <= X) as Hle by nia.
    destruct (round_nearest_even_cases (shr_m mrs) (loc_of_shr_record mrs))
      as [->|[-> Hloc]]; [lia|].
    split; [lia|].
    assert (Z.pos M mod 2 ^ Z.pos p <> 0) as Hne.
    { intros H0. destruct (Hex H0) as [Hr0 Hs0].
      apply Hloc. destruct mrs as [m r s]. cbn in Hr0, Hs0. by subst. }
    nia.
  - intros [= <- <-]. cbn [shr_m loc_of_shr_record round_nearest_even]. lia.
Qed.

(** Second half: the renormalising shift only truncates. *)
Lemma shr_fexp_trunc (m e : Z) :
  0 <= m ->
  forall mrs e', shr_fexp prec emax m e loc_Exact = (mrs, e') ->
  e' = Z.max e (fexp prec emax (Zdigits2 m + e))
  /\ shr_m mrs = m / 2 ^ (e' - e).
Proof.
  intros Hm mrs e'.
  unfold shr_fexp, shr, shr_record_of_loc.
  destruct (fexp prec emax (Zdigits2 m + e) - e) as [|p|p] eqn:Hn.
  - intros [= <- <-]. cbn [shr_m]. rewrite Z.sub_diag, Z.pow_0_r, Z.div_1_r. lia.
  - intros [= <- <-].
    destruct (shr_iter_spec m p Hm) as [-> _].
    split; [lia|]. do 2 f_equal. lia.
  - intros [= <- <-]. cbn [shr_m]. rewrite Z.sub_diag, Z.pow_0_r, Z.div_1_r. lia.
Qed.

(** Rounding an exact nonnegative value [M * 2 ^ E] that lies between the
    integers [K] and [L] to binary64, and truncating the result to an
    integer, stays between [K] and [L]. *)
Lemma binary_round_aux_between (M : positive) (E K L : Z) :
  E <= 0 -> 0 <= K -> L < 2 ^ 53 ->
  K * 2 ^ (- E) <= Z.pos M <= L * 2 ^ (- E) ->
  match binary_round_aux prec emax false (Z.pos M) E loc_Exact with
  | S754_zero s => s = false /\ K = 0
  | S754_finite s m e =>
      s = false
      /\ K <= (if 0 <=? e then Z.pos m * 2 ^ e else Z.quot (Z.pos m) (2 ^ (- e))) <= L
  | _ => False
  end.
Proof.
  intros HE HK HL HM. unfold binary_round_aux.
  destruct (shr_fexp prec emax (Z.pos M) E loc_Exact) as [mrs' e'] eqn:H1.
  destruct (shr_fexp_round_between M E K L HE HK HL HM mrs' e' H1) as [He' Hm2].
  set (m2 := round_nearest_even _ _) in *.
  assert (0 < 2 ^ (- e')) as Hpow' by (apply Z.pow_pos_nonneg; lia).
  assert (0 <= m2) as Hm2pos by nia.
  destruct (shr_fexp prec emax m2 e' loc_Exact) as [mrs'' e''] eqn:H2.
  destruct (shr_fexp_trunc m2 e' Hm2pos mrs'' e'' H2) as [He'' Hm3].
  assert (e'' <= 0) as Hhi.
  { rewrite fexp_eq in He''.
    assert (Zdigits2 m2 + e' <= 53); [|lia].
    destruct m2 as [|q|q] eqn:Hq; cbn [Zdigits2]; [lia| |lia].
    assert (Z.pos (digits2_pos q) <= 53 - e'); [|lia].
    apply digits2_pos_le.
    assert (0 < L) by nia.
    assert (L * 2 ^ (- e') < 2 ^ 53 * 2 ^ (- e'))
      by (apply Z.mul_lt_mono_pos_r; lia).
    rewrite <- Z.pow_add_r in * by lia.
    replace (53 - e') with (53 + - e') by lia. lia. }
  assert (0 < 2 ^ (e'' - e')) as Hpow by (apply Z.pow_pos_nonneg; lia).
  assert (0 < 2 ^ (- e'')) as Hpow'' by (apply Z.pow_pos_nonneg; lia).
  assert (2 ^ (- e') = 2 ^ (- e'') * 2 ^ (e'' - e')) as Hsplit
    by (rewrite <- Z.pow_add_r by lia; f_equal; lia).
  rewrite Hsplit, !Z.mul_assoc in Hm2.
  assert (K * 2 ^ (- e'') <= shr_m mrs'' <= L * 2 ^ (- e'')) as Hm3b.
  { rewrite Hm3. split.
    - apply Z.div_le_lower_bound; lia.
    - apply Z.div_le_upper_bound; lia. }
  destruct (shr_m mrs'') as [|m|m] eqn:Hshr; [split; [done|nia]| |lia].
  destruct (Z.leb_spec e'' (emax - prec)) as [_|Hbad];
    [|change (emax - prec) with 971 in Hbad; lia].
  split; [done|].
  destruct (Z.leb_spec 0 e'') as [Hnn|Hneg].
  - replace e'' with 0 in * by lia. change (2 ^ (- 0)) with 1 in Hm3b.
    change (2 ^ 0) with 1. lia.
  - rewrite Z.quot_div_nonneg by lia. split.
    + apply Z.div_le_lower_bound; lia.
    + apply Z.div_le_upper_bound; lia.
Qed.

Lemma binary_round_aux_exact (m : positive) (e : Z) :
  Z.pos (digits2_pos m) = 53 -> - 1074 <= e <= 971 ->
  binary_round_aux prec emax false (Z.pos m) e loc_Exact = S754_finite false m e.
Proof.
  intros Hd He. unfold binary_round_aux.
  assert (shr_fexp prec emax (Z.pos m) e loc_Exact
          = ({| shr_m := Z.pos m; shr_r := false; shr_s := false |}, e)) as ->.
  { unfold shr_fexp, shr_record_of_loc. cbn [Zdigits2]. rewrite Hd, fexp_eq.
    replace (Z.max (53 + e - 53) (- 1074) - e) with 0 by lia. done. }
  cbn [shr_m loc_of_shr_record round_nearest_even].
  assert (shr_fexp prec emax (Z.pos m) e loc_Exact
          = ({| shr_m := Z.pos m; shr_r := false; shr_s := false |}, e)) as ->.
  { unfold shr_fexp, shr_record_of_loc. cbn [Zdigits2]. rewrite Hd, fexp_eq.
    replace (Z.max (53 + e - 53) (- 1074) - e) with 0 by lia. done. }
  cbn [shr_m].
  destruct (Z.leb_spec e (emax - prec)) as [|Hbad]; [done|].
  change (emax - prec) with 971 in Hbad. lia.
Qed.

Lemma iter_xO_spec (p q : positive) :
  digits2_pos (Pos.iter xO p q) = (digits2_pos p + q)%positive
  /\ Z.pos (Pos.iter xO p q) = Z.pos p * 2 ^ Z.pos q.
Proof.
  apply Pos.iter_ind with (P := fun q x =>
    digits2_pos x = (digits2_pos p + q)%positive
    /\ Z.pos x = Z.pos p * 2 ^ Z.pos q).
  - cbn [digits2_pos]. split; [lia|]. rewrite Z.pow_1_r. lia.
  - clear q. intros q x [Hd Hx]. cbn [digits2_pos]. split; [lia|].
    rewrite Pos2Z.inj_succ, Z.pow_succ_r by lia. lia.
Qed.

(** [float64(L)] is exact below [2 ^ 53]. *)
Lemma float64_of_int_exact (L : Z) :
  0 < L < 2 ^ 53 ->
  exists m e, Prim2SF (float64_of_int L) = S754_finite false m e
              /\ e <= 0 /\ Z.pos m = L * 2 ^ (- e).
Proof.
  intros HL. unfold float64_of_int.
  destruct (Z.eqb_spec L min_int) as [Heq|_]; [unfold min_int in Heq; lia|].
  destruct (Z.ltb_spec L 0) as [|_]; [lia|].
  rewrite of_uint63_spec, Uint63.of_Z_spec.
  rewrite Z.mod_small by (change Uint63.wB with (2 ^ 63); lia).
  destruct L as [|p|p]; [lia| |lia].
  cbn [binary_normalize]. unfold binary_round, shl_align.
  pose proof (digits2_pos_bounds p) as [Hlo _].
  assert (Z.pos (digits2_pos p) <= 53) as Hd by (apply digits2_pos_le; lia).
  rewrite fexp_eq.
  destruct (Z.max (Z.pos (digits2_pos p) + 0 - 53) (- 1074) - 0) as [|q|q] eqn:Hq.
  - exists p, 0. rewrite binary_round_aux_exact by lia. split; [done|]. simpl. lia.
  - lia.
  - destruct (iter_xO_spec p q) as [Hdq Hpq].
    eexists _, _. rewrite binary_round_aux_exact.
    + split; [reflexivity|]. split; [lia|].
      rewrite Hpq. do 2 f_equal. lia.
    + rewrite Hdq. lia.
    + lia.
Qed.

(** A [float64] in [[0, 1]] is a zero or a positive finite number whose
    mantissa does not exceed the weight of its exponent. *)
Lemma unit_interval_float (x : float) :
  (0 <=? x)%float = true -> (x <=? 1)%float = true ->
  (exists s, Prim2SF x = S754_zero s)
  \/ exists m e, Prim2SF x = S754_finite false m e /\ e <= - 52 /\ Z.pos m <= 2 ^ (- e).
Proof.
  rewrite !leb_spec.
  replace (Prim2SF 0) with (S754_zero false) by (vm_compute; reflexivity).
  replace (Prim2SF 1) with (S754_finite false (2 ^ 52) (- 52)) by (vm_compute; reflexivity).
  pose proof (Prim2SF_valid x) as Hvalid.
  destruct (Prim2SF x) as [s|s| |s m e]; unfold SFleb, SFcompare.
  - intros _ _. left. eauto.
  - by destruct s.
  - done.
  - destruct s; [done|]. intros _ Hle. right. exists m, e. split; [done|].
    destruct (Z.compare_spec e (- 52)) as [->|Hlt|Hgt]; [| |done].
    + split; [lia|].
      rewrite Pos.compare_cont_spec in Hle. cbn [Pos.switch_Eq] in Hle.
      replace (2 ^ (- - 52)) with (Z.pos (2 ^ 52)) by (vm_compute; reflexivity).
      destruct (Pos.compare_spec m (2 ^ 52)); [| |done]; lia.
    + split; [lia|].
      cbn [SpecFloat.valid_binary] in Hvalid. unfold bounded, canonical_mantissa in Hvalid.
      apply andb_true_iff in Hvalid as [Hcan _].
      apply Z.eqb_eq in Hcan. rewrite fexp_eq in Hcan.
      pose proof (digits2_pos_bounds m) as [_ Hhi].
      assert (2 ^ Z.pos (digits2_pos m) <= 2 ^ (- e)) by (apply Z.pow_le_mono_r; lia).
      lia.
Qed.

End FloatFacts.

(** ** Cascade *)

Module CascadeFacts.
Import Quantum Crypto GoFacts.

#[local] Arguments Nat.div : simpl never.
#[local] Arguments Nat.modulo : simpl never.

(** The segment [[s, e)] of a key. *)
#[local] Abbreviation seg l s e := (take (e - s) (drop s l)).


Lemma parity_fold (l : list Bit) (acc : Z) :
  fold_left (fun parity bit => Z.lxor parity bit) l acc
  = Z.lxor acc (CalculateParity l).
Proof.
  unfold CalculateParity. revert acc.
  induction l as [|x l IH]; intros acc; simpl.
  - by rewrite Z.lxor_0_r.
  - rewrite IH, (IH (Z.lxor Zero x)). unfold Zero.
    by rewrite Z.lxor_0_l, Z.lxor_assoc.
Qed.

Lemma parity_app (x y : list Bit) :
  CalculateParity (x ++ y) = Z.lxor (CalculateParity x) (CalculateParity y).
Proof.
  unfold CalculateParity at 1. rewrite fold_left_app.
  fold (CalculateParity x). apply parity_fold.
Qed.

Lemma parity_single (x : Bit) : CalculateParity [x] = x.
Proof. unfold CalculateParity. simpl. apply Z.lxor_0_l. Qed.

Lemma seg_split (l : list Bit) (s m e : nat) :
  (s <= m <= e)%nat -> seg l s e = seg l s m ++ seg l m e.
Proof.
  intros Hm.
  replace (e - s)%nat with ((m - s) + (e - m))%nat by lia.
  rewrite <- take_take_drop, drop_drop.
  by replace (s + (m - s))%nat with m by lia.
Qed.

Lemma seg_single (l : list Bit) (p : nat) (x : Bit) :
  l !! p = Some x -> seg l p (S p) = [x].
Proof.
  intros Hp. replace (S p - p)%nat with 1%nat by lia.
  rewrite (drop_S l x p Hp). by destruct (drop (S p) l).
Qed.







(** The fuel of [binarySearch] is never exhausted: an iteration either
    panics on a slice or strictly shrinks [end - start]. *)
Lemma binarySearch_loop_fuel (a b : list Bit) :
  forall fuel s e d g,
    in_int s -> in_int e ->
    (e <> min_int /\ e - s < Z.of_nat fuel) \/ (e = min_int /\ (1 <= fuel)%nat) ->
    binarySearch_loop fuel a b s e d g <> OutOfFuel.
Proof.
  unfold in_int, min_int, max_int.
  induction fuel as [|fuel IH]; intros s e d g Hs He Hfuel; cbn [binarySearch_loop].
  { destruct Hfuel as [[Hne Hfuel]|[_ ?]]; [|lia].
    rewrite wrap_id by (unfold min_int, max_int; lia).
    by destruct (Z.ltb_spec s (e - 1)); [lia|]. }
  destruct (s <? wrap (e - 1)) eqn:Hcond; [|done].
  apply Z.ltb_lt in Hcond.
  unfold div. cbn [Z.eqb mbind res_bind].
  set (mid := wrap (Z.quot (wrap (s + e)) 2)).
  destruct (slice a s mid) as [aliceBlock| | |] eqn:Hslice; cbn [mbind res_bind]; try done;
    [|by apply slice_not_OutOfFuel in Hslice].
  apply slice_Ok_inv in Hslice as [Hsm _].
  destruct (slice b s mid) as [bobBlock| | |] eqn:Hslice; cbn [mbind res_bind]; try done;
    [|by apply slice_not_OutOfFuel in Hslice].
  assert (s < mid < e /\ in_int mid) as [Hmid Hin].
  { subst mid. unfold in_int, min_int, max_int.
    destruct (decide (e = - 2 ^ 63)) as [->|Hne].
    - exfalso.
      replace (- 2 ^ 63 - 1) with ((2 ^ 63 - 1) + (-1) * 2 ^ 64) in Hcond by lia.
      unfold wrap in Hcond. rewrite <- Z.add_assoc, (Z.add_comm _ (2 ^ 63)), Z.add_assoc,
        Z_mod_plus_full, Z.mod_small in Hcond by lia.
      assert (- 2 ^ 63 <= s + - 2 ^ 63 <= -2) as Hrange by lia.
      rewrite (wrap_id (s + - 2 ^ 63)) in Hsm by (unfold min_int, max_int; lia).
      pose proof (quot2_negative _ Hrange) as Hq.
      rewrite wrap_id in Hsm by (unfold min_int, max_int; lia). lia.
    - rewrite wrap_id in Hcond by (unfold min_int, max_int; lia).
      destruct (Z.le_gt_cases (s + e) (2 ^ 63 - 1)).
      + rewrite (wrap_id (s + e)) in * by (unfold min_int, max_int; lia).
        rewrite Z.quot_div_nonneg in * by lia.
        assert (s + 1 <= (s + e) / 2) by (apply Z.div_le_lower_bound; lia).
        assert ((s + e) / 2 < e) by (apply Z.div_lt_upper_bound; lia).
        rewrite wrap_id by (unfold min_int, max_int; lia). lia.
      + exfalso.
        rewrite (wrap_high (s + e)) in Hsm by (unfold max_int; lia).
        assert (- 2 ^ 63 <= s + e - 2 ^ 64 <= -2) as Hrange by lia.
        pose proof (quot2_negative _ Hrange) as Hq.
        rewrite wrap_id in Hsm by (unfold min_int, max_int; lia). lia. }
  assert (e <> - 2 ^ 63) as Hne by lia.
  destruct Hfuel as [[_ Hfuel]|[? _]]; [|done].
  unfold in_int, min_int, max_int in Hin.
  destruct (negb _); apply IH; try lia; left; lia.
Qed.

Lemma binarySearch_total (c : CascadeCorrector) (a b : list Bit) (s e : Z) :
  in_int s -> in_int e -> binarySearch c a b s e <> OutOfFuel.
Proof.
  intros Hs He. unfold binarySearch. apply binarySearch_loop_fuel; try done.
  destruct (decide (e = min_int)); [right; split; [done|lia]|left; split; [done|lia]].
Qed.

(** Whatever the keys, every disclosed bit of the binary search is one
    parity comparison. *)
Lemma binarySearch_loop_counts (a b : list Bit) :
  forall fuel s e d g i d' g',
    binarySearch_loop fuel a b s e d g = Ok (i, d', g') ->
    d' - d = g' - g /\ d <= d'.
Proof.
  induction fuel as [|fuel IH]; intros s e d g i d' g'; cbn [binarySearch_loop];
    destruct (s <? wrap (e - 1)); try done; try (intros [= <- <- <-]; lia).
  destruct (div _ 2) as [mid| | |]; cbn [mbind res_bind]; try done.
  destruct (slice a s mid) as [aliceBlock| | |]; cbn [mbind res_bind]; try done.
  destruct (slice b s mid) as [bobBlock| | |]; cbn [mbind res_bind]; try done.
  destruct (negb _); intros Hrec; apply IH in Hrec; lia.
Qed.

Lemma Correct_block_counts (c : CascadeCorrector) (a cur cur' : list Bit) (blk : Block)
  (d g d' g' : Z) :
  Correct_block c a (cur, d, g) blk = Ok (cur', d', g') ->
  d' - d = g' - g /\ d <= d'.
Proof.
  unfold Correct_block.
  destruct (slice a _ _) as [aliceBlock| | |]; cbn [mbind res_bind]; try done.
  destruct (slice cur _ _) as [bobBlock| | |]; cbn [mbind res_bind]; try done.
  destruct (negb _); [|cbn; intros [= <- <- <-]; lia].
  unfold binarySearch.
  destruct (binarySearch_loop _ _ _ _ _ _ _) as [[[errorIdx disclosed] cmp]| | |] eqn:Hsearch;
    cbn [mbind res_bind]; try done.
  apply binarySearch_loop_counts in Hsearch.
  destruct (0 <=? errorIdx); [|cbn; intros [= <- <- <-]; lia].
  destruct (index cur errorIdx) as [old| | |]; cbn [mbind res_bind]; try done.
  destruct (store cur errorIdx _) as [corrected| | |]; cbn [mbind res_bind]; try done.
  intros [= <- <- <-]. lia.
Qed.

Lemma Correct_blocks_counts (c : CascadeCorrector) (a : list Bit) :
  forall blocks cur d g cur' d' g',
    Correct_blocks c a blocks (cur, d, g) = Ok (cur', d', g') ->
    d' - d = g' - g /\ d <= d'.
Proof.
  induction blocks as [|blk blocks IH]; intros cur d g cur' d' g'; cbn [Correct_blocks].
  { intros [= <- <- <-]. lia. }
  destruct (Correct_block c a (cur, d, g) blk) as [[[cur1 d1] g1]| | |] eqn:Hblk;
    cbn [mbind res_bind]; try done.
  apply Correct_block_counts in Hblk.
  intros Hrest. apply IH in Hrest. lia.
Qed.

Lemma Correct_passes_counts (c : CascadeCorrector) (a : list Bit) :
  forall n bs cur d g cur' d' g',
    Correct_passes c a n bs (cur, d, g) = Ok (cur', d', g') ->
    d' - d = g' - g /\ d <= d'.
Proof.
  induction n as [|n IH]; intros bs cur d g cur' d' g'; cbn [Correct_passes].
  { intros [= <- <- <-]. lia. }
  destruct (Correct_pass c a bs (cur, d, g)) as [[[cur1 d1] g1]| | |] eqn:Hpass;
    cbn [mbind res_bind]; try done.
  intros Hrest. apply IH in Hrest.
  unfold Correct_pass in Hpass.
  destruct (div _ bs) as [numBlocks| | |]; cbn [mbind res_bind] in Hpass; try done.
  destruct (numBlocks <? 0); [done|].
  apply Correct_blocks_counts in Hpass. lia.
Qed.

(** Whenever [Correct] returns, the disclosed-bit count equals the number
    of parity comparisons made. *)
Lemma Correct_traced_counts (c : CascadeCorrector) (a b corrected : list Bit) (d g : Z) :
  Correct_traced c a b = Ok (corrected, d, g) -> d = g /\ 0 <= d.
Proof.
  unfold Correct_traced. destruct (negb _); [done|].
  intros Hpasses. apply Correct_passes_counts in Hpasses. lia.
Qed.

(** The corrector built by [NewCascadeCorrector] always has four passes and
    a positive block size. *)
Lemma NewCascadeCorrector_shape (errorRate : float) :
  passes (NewCascadeCorrector errorRate) = 4
  /\ 1 <= blockSize (NewCascadeCorrector errorRate).
Proof.
  unfold NewCascadeCorrector. cbn [passes blockSize]. split; [done|].
  destruct (0 <? errorRate)%float; [|done].
  destruct (Z.ltb_spec (int_of_float64 (0.73 / errorRate)) 1); lia.
Qed.

Lemma flip_bit (x y : Bit) : is_bit x -> is_bit y -> x <> y -> flip y = x.
Proof. intros [-> | ->] [-> | ->] Hne; done. Qed.

Lemma flip_is_bit (y : Bit) : is_bit y -> is_bit (flip y).
Proof. intros [-> | ->]; [by right|by left]. Qed.

Lemma is_bit_lookup (l : list Bit) (i : nat) (x : Bit) :
  Forall is_bit l -> l !! i = Some x -> is_bit x.
Proof. intros Hl Hi. by eapply Forall_lookup_1. Qed.


Lemma make_block_nat (n bs i : nat) :
  (i * bs < n)%nat -> Z.of_nat n + Z.of_nat bs <= max_int ->
  make_block (Z.of_nat n) (Z.of_nat bs) (Z.of_nat i)
  = mkBlock (Z.of_nat (i * bs)) (Z.of_nat (Nat.min (i * bs + bs) n)) 0.
Proof.
  intros Hi Hmax. unfold make_block, max_int in *.
  rewrite <- Nat2Z.inj_mul.
  rewrite (wrap_id (Z.of_nat (i * bs))) by (unfold min_int, max_int; lia).
  rewrite <- Nat2Z.inj_add.
  rewrite wrap_id by (unfold min_int, max_int; lia).
  f_equal.
  destruct (Z.gtb_spec (Z.of_nat (i * bs + bs)) (Z.of_nat n)); f_equal; lia.
Qed.











(** Scenario 4 of the specification: ten flipped bits at 5, 15, ..., 95 of
    a 100-bit key are all repaired, with 58 disclosed bits. *)
Example Cascade_ten_errors :
  let alice := concat (replicate 25 [0; 1; 0; 1]) in
  let bob := fold_left (fun l i => alter (fun b => 1 - b) i l)
               [5; 15; 25; 35; 45; 55; 65; 75; 85; 95]%nat alice in
  Correct (NewCascadeCorrector 0.1) alice bob = Ok (alice, 58).
Proof. vm_compute. reflexivity. Qed.

End CascadeFacts.

(** ** Privacy amplification *)

Module AmplifyFacts.
Import Quantum Crypto GoFacts FloatFacts.

Section WithHashes.
Context {hashes : HashFamily}.

Lemma getHasher_valid pa :
  valid_method (method pa) ->
  exists h, getHasher pa = (Some h, None) /\ forall x, (32 <= length (h x))%nat.
Proof.
  unfold getHasher.
  intros [-> | [-> | [-> | ->]]]; cbn; eexists; (split; [reflexivity|]); intros x.
  - by rewrite sha256_size.
  - rewrite sha512_size. lia.
  - by rewrite sha3_256_size.
  - rewrite sha3_512_size. lia.
Qed.

Lemma getHasher_unknown pa :
  ~ valid_method (method pa) ->
  getHasher pa = (None, Some (unknown_method_error pa)).
Proof.
  intros Hbad. unfold getHasher, valid_method in *.
  repeat match goal with
    | |- context [String.eqb ?a ?b] => destruct (String.eqb_spec a b); [tauto|]
    end.
  done.
Qed.

Lemma Amplify_loop_not_Err fuel pa keyBytes : forall finalKey counter t e,
  Amplify_loop fuel pa keyBytes finalKey counter t <> Err e.
Proof.
  induction fuel as [|fuel IH]; intros finalKey counter t e; simpl;
    destruct (_ <? t); try done.
  destruct (getHasher pa) as [[h|] ?]; [apply IH|done].
Qed.

Lemma Amplify_loop_Ok_enough fuel pa keyBytes : forall finalKey counter t out,
  Amplify_loop fuel pa keyBytes finalKey counter t = Ok out ->
  t <= Z.of_nat (length out) * 8.
Proof.
  induction fuel as [|fuel IH]; intros finalKey counter t out; simpl;
    destruct (Z.ltb_spec (Z.of_nat (length finalKey) * 8) t); try done.
  - by intros [= <-].
  - destruct (getHasher pa) as [[h|] ?]; [apply IH|done].
  - by intros [= <-].
Qed.

Lemma Amplify_loop_terminates fuel pa keyBytes h :
  getHasher pa = (Some h, None) ->
  (forall x, (32 <= length (h x))%nat) ->
  forall finalKey counter t,
    t - Z.of_nat (length finalKey) * 8 < Z.of_nat fuel ->
    exists out, Amplify_loop fuel pa keyBytes finalKey counter t = Ok out.
Proof.
  intros Hh Hlen.
  induction fuel as [|fuel IH]; intros finalKey counter t Hfuel; simpl;
    destruct (Z.ltb_spec (Z.of_nat (length finalKey) * 8) t); try lia; eauto.
  rewrite Hh. apply IH. rewrite length_app. specialize (Hlen (keyBytes ++ itoa counter)). lia.
Qed.

Lemma Amplify_loop_unknown fuel pa keyBytes finalKey counter t :
  ~ valid_method (method pa) ->
  Z.of_nat (length finalKey) * 8 < t ->
  Amplify_loop (S fuel) pa keyBytes finalKey counter t = Panic NilDereference.
Proof.
  intros Hbad Hlt. simpl.
  destruct (Z.ltb_spec (Z.of_nat (length finalKey) * 8) t); [|lia].
  by rewrite getHasher_unknown.
Qed.

(** The guards of [Amplify] that come before the hashing loop. *)
Lemma Amplify_unfold pa key leak t :
  key <> [] -> 0 < t ->
  Amplify pa key leak t =
  if maxSecureLength key leak <? t
  then Err (insufficient_security t (maxSecureLength key leak))
  else
    finalKey ← Amplify_loop (S (Z.to_nat t)) pa (BitsToBytes key) [] 0 t;
    if Z.of_nat (length finalKey) >? Z.quot (wrap (t + 7)) 8
    then slice finalKey 0 (Z.quot (wrap (t + 7)) 8)
    else Ok finalKey.
Proof.
  intros Hkey Ht. unfold Amplify.
  destruct key; [done|]. cbn [length Nat.eqb].
  by destruct (Z.leb_spec t 0); [lia|].
Qed.

Lemma getHasher_cases pa :
  (exists h, getHasher pa = (Some h, None) /\ forall x, (32 <= length (h x))%nat)
  \/ getHasher pa = (None, Some (unknown_method_error pa)).
Proof.
  unfold getHasher.
  repeat match goal with
    | |- context [String.eqb ?a ?b] => destruct (String.eqb a b)
    end; [left; eexists; split; [reflexivity|intros x]..|by right].
  - by rewrite sha256_size.
  - rewrite sha512_size. lia.
  - by rewrite sha3_256_size.
  - rewrite sha3_512_size. lia.
Qed.

(** The fuel given to the hashing loop by [Amplify] always suffices. *)
Lemma Amplify_not_OutOfFuel pa key leak t : Amplify pa key leak t <> OutOfFuel.
Proof.
  unfold Amplify.
  destruct (length key =? 0)%nat; [done|].
  destruct (Z.leb_spec t 0); [done|].
  destruct (_ <? t); [done|].
  destruct (getHasher_cases pa) as [(h & Hh & Hsize)|Hnone].
  - destruct (Amplify_loop_terminates (S (Z.to_nat t)) pa (BitsToBytes key) h Hh Hsize [] 0 t)
      as [out ->]; [simpl; lia|].
    cbn [mbind res_bind]. destruct (_ >? _); [|done].
    unfold slice. by destruct (_ && _).
  - cbn [Amplify_loop length]. destruct (Z.ltb_spec (Z.of_nat 0 * 8) t); [|lia].
    by rewrite Hnone.
Qed.

(** C9: a method outside the four constants makes [getHasher] return a nil
    hash with the unknown-method error; [Amplify] drops the error and, once
    its guards are passed, panics on the nil hash.  It never returns the
    unknown-method error.  With one of the four methods it does not panic
    (for a target length [t] with [t + 7] representable). *)
Theorem Amplify_unknown_method_panics (pa : PrivacyAmplifier) :
  (~ valid_method (method pa) ->
     getHasher pa = (None, Some (unknown_method_error pa))
     /\ forall key leak t,
          key <> [] -> 0 < t -> t <= maxSecureLength key leak ->
          Amplify pa key leak t = Panic NilDereference)
  /\ (forall key leak t, Amplify pa key leak t <> Err (unknown_method_error pa))
  /\ (valid_method (method pa) ->
       forall key leak t p, t <= max_int - 7 -> Amplify pa key leak t <> Panic p).
Proof.
  split; [|split].
  - intros Hbad. split; [by apply getHasher_unknown|].
    intros key leak t Hkey Ht Hsecure.
    rewrite Amplify_unfold by done.
    destruct (Z.ltb_spec (maxSecureLength key leak) t); [lia|].
    by rewrite Amplify_loop_unknown by (done || simpl; lia).
  - intros key leak t. unfold Amplify.
    destruct (length key =? 0)%nat; [done|].
    destruct (t <=? 0); [done|].
    destruct (_ <? t); [done|].
    destruct (Amplify_loop _ _ _ _ _ _) as [finalKey| e | |] eqn:Hloop; simpl; try done.
    + destruct (_ >? _); [|done]. unfold slice. by destruct (_ && _).
    + by apply Amplify_loop_not_Err in Hloop.
  - intros Hvalid key leak t p Ht. unfold Amplify.
    destruct (length key =? 0)%nat; [done|].
    destruct (Z.leb_spec t 0); [done|].
    destruct (_ <? t); [done|].
    destruct (getHasher_valid pa Hvalid) as (h & Hh & Hlen).
    destruct (Amplify_loop_terminates (S (Z.to_nat t)) pa (BitsToBytes key) h Hh Hlen [] 0 t)
      as [out Hout]; [simpl; lia|].
    rewrite Hout. simpl.
    rewrite wrap_id by (unfold min_int, max_int in *; lia).
    destruct (Z.gtb_spec (Z.of_nat (length out)) (Z.quot (t + 7) 8)); [|done].
    unfold slice.
    assert (0 <= Z.quot (t + 7) 8) by (apply Z.quot_pos; lia).
    destruct (Z.leb_spec 0 0); [|lia].
    destruct (Z.leb_spec 0 (Z.quot (t + 7) 8)); [|lia].
    by destruct (Z.leb_spec (Z.quot (t + 7) 8) (Z.of_nat (length out))); [|lia].
Qed.

(** A leakage in [[0, 1]] leaks at most the key: the binary64 product
    [leakage * float64(L)], truncated, lies in [[0, L]]; it is the floor
    of the exact product or one more. *)
Lemma leakedBits_unit_interval (key : list Bit) (leak : float) :
  Z.of_nat (length key) < 2 ^ 53 ->
  (0 <=? leak)%float = true -> (leak <=? 1)%float = true ->
  let L := Z.of_nat (length key) in
  0 <= leakedBits key leak <= L
  /\ spec_leaked leak L <= leakedBits key leak <= spec_leaked leak L + 1.
Proof.
  intros HL H0 H1 L. subst L. unfold leakedBits, int_of_float64, spec_leaked.
  rewrite mul_spec. unfold SF64mul.
  destruct (Z.eq_dec (Z.of_nat (length key)) 0) as [Hz|Hnz].
  - rewrite Hz.
    replace (Prim2SF (float64_of_int 0)) with (S754_zero false) by (vm_compute; reflexivity).
    destruct (unit_interval_float leak H0 H1) as [[s ->]|(m & e & -> & He & _)];
      cbn [SFmul]; [lia|].
    destruct (Z.leb_spec 0 e); [lia|].
    rewrite Z.mul_0_r, Z.div_0_l; [lia|].
    apply Z.pow_nonzero; lia.
  - destruct (float64_of_int_exact (Z.of_nat (length key)) ltac:(lia))
      as (mL & eL & -> & HeL & HmL).
    destruct (unit_interval_float leak H0 H1) as [[s ->]|(m & e & -> & He & Hm)];
      cbn [SFmul xorb]; [lia|].
    destruct (Z.leb_spec 0 e) as [|_]; [lia|].
    set (L := Z.of_nat (length key)) in *.
    set (K := Z.pos m * L / 2 ^ (- e)).
    assert (0 < 2 ^ (- e)) as Hpe by (apply Z.pow_pos_nonneg; lia).
    assert (0 < 2 ^ (- eL)) as HpL by (apply Z.pow_pos_nonneg; lia).
    assert (2 ^ (- (e + eL)) = 2 ^ (- e) * 2 ^ (- eL)) as Hsplit
      by (rewrite <- Z.pow_add_r by lia; f_equal; lia).
    pose proof (Z.div_mod (Z.pos m * L) (2 ^ (- e)) ltac:(lia)) as Hdm.
    pose proof (Z.mod_pos_bound (Z.pos m * L) (2 ^ (- e)) Hpe) as Hr.
    fold K in Hdm.
    assert (0 <= K) as HK by (apply Z.div_pos; lia).
    assert (K <= L) as HKL by (apply Z.div_le_upper_bound; nia).
    assert (K * 2 ^ (- (e + eL)) <= Z.pos (m * mL)) as Hlow.
    { rewrite Pos2Z.inj_mul, HmL, Hsplit. nia. }
    assert (Z.pos (m * mL) <= Z.min L (K + 1) * 2 ^ (- (e + eL))) as Hupp.
    { rewrite Pos2Z.inj_mul, HmL, Hsplit.
      destruct (Z.min_spec L (K + 1)) as [[_ ->]|[_ ->]]; nia. }
    pose proof (binary_round_aux_between (m * mL) (e + eL) K (Z.min L (K + 1))
                  ltac:(lia) HK ltac:(lia) (conj Hlow Hupp)) as Hround.
    destruct (binary_round_aux prec emax false (Z.pos (m * mL)) (e + eL) loc_Exact)
      as [s|s| |s m' e']; [lia|done|done|].
    destruct Hround as [-> Hv].
    rewrite wrap_id; [lia|]. unfold min_int, max_int. lia.
Qed.

(** C6 (amended): for a nonempty key of [L < 2 ^ 53] bits (so that
    [float64(L)] is exact), a leakage in [[0, 1]] and a target [t > 0], the
    leaked bits of the code are [leaked = int(leakage * float64(L))], the
    truncation of the binary64 product: they lie in [[0, L]] and are the
    floor of the exact product or one more (700 against 699 for a leakage
    of 0.7 and 1000 bits).  [Amplify] fails with the insufficient-security
    error carrying [t] and [L - leaked - 64] exactly when
    [L - leaked - 64 < t]; every successful call returns exactly
    [(t + 7) / 8] bytes; and with one of the four hash methods the call
    succeeds whenever the gate is passed. *)
Theorem Amplify_gate_and_length (pa : PrivacyAmplifier) (key : list Bit)
  (leak : float) (t : Z) :
  key <> [] ->
  Z.of_nat (length key) < 2 ^ 53 ->
  0 < t ->
  (0 <=? leak)%float = true -> (leak <=? 1)%float = true ->
  let L := Z.of_nat (length key) in
  let leaked := int_of_float64 (leak * float64_of_int L)%float in
  (0 <= leaked <= L /\ spec_leaked leak L <= leaked <= spec_leaked leak L + 1)
  /\ (Amplify pa key leak t = Err (insufficient_security t (L - leaked - 64))
        <-> L - leaked - 64 < t)
  /\ (forall out, Amplify pa key leak t = Ok out ->
         Z.of_nat (length out) = (t + 7) / 8)
  /\ (valid_method (method pa) -> t <= L - leaked - 64 ->
         exists out, Amplify pa key leak t = Ok out).
Proof.
  intros Hkey HL Ht Hleak0 Hleak1 L leaked.
  pose proof (leakedBits_unit_interval key leak HL Hleak0 Hleak1) as [Hleaked Hfloor].
  change (leakedBits key leak) with leaked in Hleaked, Hfloor.
  fold L in Hleaked, Hfloor.
  split; [done|].
  assert (maxSecureLength key leak = L - leaked - 64) as Hmax.
  { unfold maxSecureLength. cbv zeta.
    change (leakedBits key leak) with leaked. fold L.
    rewrite (wrap_id (L - leaked)) by (unfold min_int, max_int; lia).
    apply wrap_id. unfold min_int, max_int. lia. }
  rewrite Amplify_unfold by done. rewrite Hmax.
  destruct (Z.ltb_spec (L - leaked - 64) t) as [Hlt|Hge].
  - split; [done|]. split; [done|lia].
  - assert (wrap (t + 7) = t + 7) as Hwrap
      by (apply wrap_id; unfold min_int, max_int in *; lia).
    rewrite Hwrap, Z.quot_div_nonneg by lia.
    assert (forall out,
      (finalKey ← Amplify_loop (S (Z.to_nat t)) pa (BitsToBytes key) [] 0 t;
       if Z.of_nat (length finalKey) >? (t + 7) / 8
       then slice finalKey 0 ((t + 7) / 8)
       else Ok finalKey) = Ok out ->
      Z.of_nat (length out) = (t + 7) / 8) as Hlen.
    { intros out.
      destruct (Amplify_loop _ _ _ _ _ _) as [finalKey| | |] eqn:Hloop; simpl; try done.
      apply Amplify_loop_Ok_enough in Hloop.
      assert (0 <= (t + 7) / 8) by (apply Z.div_pos; lia).
      destruct (Z.gtb_spec (Z.of_nat (length finalKey)) ((t + 7) / 8)) as [Hgt|Hle].
      - unfold slice.
        destruct (_ && _); [|done]. intros [= <-].
        rewrite length_take, length_drop. lia.
      - intros [= <-].
        assert ((t + 7) / 8 < Z.of_nat (length finalKey) + 1); [|lia].
        apply Z.div_lt_upper_bound; lia. }
    split; [|split].
    + split; [|lia]. intros Herr. exfalso.
      destruct (Amplify_loop _ _ _ _ _ _) as [finalKey| e | |] eqn:Hloop; simpl in Herr;
        try done.
      * destruct (_ >? _); [|done]. unfold slice in Herr. by destruct (_ && _).
      * by apply Amplify_loop_not_Err in Hloop.
    + exact Hlen.
    + intros Hvalid _.
      destruct (getHasher_valid pa Hvalid) as (h & Hh & Hsize).
      destruct (Amplify_loop_terminates (S (Z.to_nat t)) pa (BitsToBytes key) h Hh Hsize [] 0 t)
        as [finalKey Hloop]; [simpl; lia|].
      rewrite Hloop. simpl.
      assert (0 <= (t + 7) / 8) by (apply Z.div_pos; lia).
      destruct (Z.gtb_spec (Z.of_nat (length finalKey)) ((t + 7) / 8)); [|eauto].
      unfold slice.
      destruct (Z.leb_spec 0 0); [|lia].
      destruct (Z.leb_spec 0 ((t + 7) / 8)); [|lia].
      destruct (Z.leb_spec ((t + 7) / 8) (Z.of_nat (length finalKey))); [|lia].
      simpl. eauto.
Qed.

End WithHashes.

Lemma Amplify_unknown_method_panics_witness :
  @Amplify padding_hashes (NewPrivacyAmplifier "MD5"%string) (replicate 100 1) 0%float 10
  = Panic NilDereference.
Proof.
  refine (proj2 (proj1 (@Amplify_unknown_method_panics padding_hashes
                          (NewPrivacyAmplifier "MD5"%string)) _)
                (replicate 100 1) 0%float 10 _ _ _).
  - unfold valid_method. cbn. intros [|[|[|]]]; discriminate.
  - discriminate.
  - lia.
  - vm_compute. discriminate.
Defined.

Lemma Amplify_gate_and_length_witness :
  (0 <= 700 <= 1000 /\ 699 <= 700 <= 699 + 1)
  /\ (@Amplify padding_hashes (NewPrivacyAmplifier SHA256Method) (replicate 1000 1)
        0.7%float 237
      = Err (insufficient_security 237 (1000 - 700 - 64))
      <-> 1000 - 700 - 64 < 237)
  /\ (forall out,
        @Amplify padding_hashes (NewPrivacyAmplifier SHA256Method) (replicate 1000 1)
          0.7%float 237 = Ok out ->
        Z.of_nat (length out) = 30).
Proof.
  pose proof (@Amplify_gate_and_length padding_hashes
                (NewPrivacyAmplifier SHA256Method) (replicate 1000 1) 0.7%float 237)
    as Hgate.
  cbv zeta in Hgate.
  match type of Hgate with
  | context [int_of_float64 ?x] =>
      assert (int_of_float64 x = 700) as Hleaked by (vm_compute; reflexivity)
  end.
  match type of Hgate with
  | context [spec_leaked ?x ?n] =>
      assert (spec_leaked x n = 699) as Hfloor by (vm_compute; reflexivity)
  end.
  match type of Hgate with
  | context [Z.of_nat ?n] =>
      assert (Z.of_nat n = 1000) as Hlength by (vm_compute; reflexivity)
  end.
  rewrite Hleaked, Hfloor, Hlength in Hgate.
  destruct Hgate as (Hbounds & Hiff & Hlen & _).
  - discriminate.
  - lia.
  - lia.
  - vm_compute. reflexivity.
  - vm_compute. reflexivity.
  - split; [exact Hbounds|]. split; [exact Hiff|exact Hlen].
Defined.

(** C6 as stated fails for a key of 1000 bits, a leakage of 0.7 and a
    target of 237 bits: the floor of the exact product is 699, so that
    [1000 - 699 - 64 = 237] is not below the target, but the binary64
    product rounds to 700.0 and [Amplify] fails, naming 236. *)
Lemma Amplify_exact_floor_gate_fails :
  ~ ((exists maxSecure,
        @Amplify padding_hashes (NewPrivacyAmplifier SHA256Method) (replicate 1000 1)
          0.7%float 237
        = Err (insufficient_security 237 maxSecure))
     <-> 1000 - spec_leaked 0.7 1000 - 64 < 237).
Proof.
  intros [Hgate _].
  assert (spec_leaked 0.7 1000 = 699) as Hfloor by (vm_compute; reflexivity).
  rewrite Hfloor in Hgate.
  enough (1000 - 699 - 64 < 237) by lia.
  apply Hgate. exists 236. vm_compute. reflexivity.
Qed.

End AmplifyFacts.

(** ** Secure key length *)

Module SecureLengthFacts.
Import Crypto.

(** C2: at QBER 0.5 the series used for the logarithm gives an entropy
    below 1, and a million raw bits with 100 disclosed bits and security
    parameter 64 leave 43 "secure" bits instead of 0. *)
Theorem CalculateSecureKeyLength_half_nonzero :
  (binaryEntropy 0.5 <? 1)%float = true
  /\ CalculateSecureKeyLength 1000000 0.5 100 64 = 43.
Proof. split; vm_compute; reflexivity. Qed.

End SecureLengthFacts.

(** ** The BB84 driver *)

Module BB84Facts.
Import Quantum Crypto BB84 Scenarios.

(** C3: when the four phases succeed and the estimated QBER exceeds the
    threshold, [PerformKeyExchange] returns a result and a nil error; the
    result is not secure, carries no key, and its message has the observed
    QBER and the threshold (both as percentages) as operands. *)
Theorem PerformKeyExchange_high_qber {B : Type} `{QuantumBackend B}
  (bb : BB84Protocol) (w w1 w2 w3 : World)
  (alice : AliceSession.t) (bob : BobSession.t) (sifted : SiftedKey.t) (qber : float) :
  AliceGenerateQubits bb w = (Ok alice, w1) ->
  BobMeasureQubits bb (AliceSession.Qubits alice) w1 = (Ok bob, w2) ->
  BasisReconciliation bb alice bob = Ok sifted ->
  EstimateQBER bb sifted w2 = (Ok qber, w3) ->
  (qberThreshold bb <? qber)%float = true ->
  exists result,
    PerformKeyExchange bb w = (Ok result, w3)
    /\ KeyExchangeResult.Secure result = false
    /\ KeyExchangeResult.Key result = []
    /\ KeyExchangeResult.QBER result = qber
    /\ KeyExchangeResult.Message result =
        Sprintf "INSECURE: QBER (%.2f%%) exceeds threshold (%.2f%%). Possible eavesdropping detected!"
          [AFloat (qber * 100)%float; AFloat (qberThreshold bb * 100)%float].
Proof.
  intros Halice Hbob Hsift Hqber Hhigh.
  assert ((Z.of_nat (length (SiftedKey.AliceKey sifted)) =? 0) = false) as Hlen.
  { unfold EstimateQBER in Hqber.
    destruct (Z.of_nat (length (SiftedKey.AliceKey sifted)) =? 0); [|done].
    discriminate. }
  eexists. split.
  - unfold PerformKeyExchange, bind, try_wrap, lift.
    rewrite Halice, Hbob, Hsift, Hlen, Hqber, Hhigh. reflexivity.
  - done.
Qed.

Lemma PerformKeyExchange_high_qber_witness :
  exists result w',
    PerformKeyExchange (NewBB84Protocol noisy_backend 128) noisy_world = (Ok result, w')
    /\ KeyExchangeResult.Secure result = false.
Proof.
  destruct (PerformKeyExchange_high_qber
              (NewBB84Protocol noisy_backend 128) noisy_world
              (flat_world 512 0 64 0.1%float) (flat_world 0 0 64 0.1%float)
              (mkWorld [] [] (map (fun i => Some (Z.of_nat i)) (seq 51 13))
                       [7; 8; 9]%positive [100; 200; 300; 400; 500; 600])
              (AliceSession.mk (repeat 0 512) (repeat 0 512)
                 (repeat (mkQubit 1 0) 512) [])
              (BobSession.mk (repeat 0 512) (repeat (mkMeasurementResult 1 0) 512) [])
              (SiftedKey.mk (repeat 0 512) (repeat 1 512) (map Z.of_nat (seq 0 512)))
              1%float)
    as (result & Hrun & Hsecure & _); try (vm_compute; reflexivity).
  exists result. eexists. split; [exact Hrun|exact Hsecure].
Defined.

(** The removal step draws nothing when [int(m * sampleSize)] is below 1:
    it has no lower clamp. *)
Lemma removal_indices_none {B : Type}
  (bb : @BB84Protocol B) (sifted : SiftedKey.t) (w : World) :
  int_of_float64 (float64_of_int (Z.of_nat (length (SiftedKey.AliceKey sifted)))
                  * sampleSize bb)%float <= 0 ->
  removal_indices bb sifted w = (Ok [], w).
Proof.
  intros Hcount. unfold removal_indices. cbn [removal_sample].
  rewrite size_empty.
  by destruct (Z.ltb_spec (Z.of_nat 0) (int_of_float64
       (float64_of_int (Z.of_nat (length (SiftedKey.AliceKey sifted))) * sampleSize bb)%float));
    [lia|].
Qed.

(** C4: with 64 sifted bits and a 1% sample, QBER estimation discloses one
    position ([max(1, floor(0.64))], here position 0) but the removal step
    draws no index and removes nothing: the final sifted key still has 64
    bits and the exchange succeeds with the disclosed position 0 inside the
    key. *)
Theorem removal_step_removes_nothing :
  (exists alice bob w1,
     AliceGenerateQubits small_protocol small_world = (Ok alice, w1)
     /\ BobMeasureQubits small_protocol (AliceSession.Qubits alice) w1
         = (Ok bob, small_world_sifted)
     /\ BasisReconciliation small_protocol alice bob = Ok small_sifted)
  /\ EstimateQBER small_protocol small_sifted small_world_sifted
      = (Ok 0%float, small_world_sampled)
  /\ removal_indices small_protocol small_sifted small_world_sampled
      = (Ok [], small_world_sampled)
  /\ RemoveSampledBits small_protocol small_sifted [] = Ok small_sifted
  /\ PerformKeyExchange small_protocol small_world
      = (Ok (KeyExchangeResult.mk [0; 0] 64 16 0%float true
               (Sprintf "Secure key generated successfully! QBER: %.2f%%" [AFloat 0%float])),
         small_world_sampled).
Proof.
  split; [|split; [|split; [|split]]; vm_compute; reflexivity].
  exists (AliceSession.mk (repeat 0 64) (repeat 0 64) (repeat (mkQubit 0 0) 64) []),
         (BobSession.mk (repeat 0 64) (repeat (mkMeasurementResult 0 0) 64) []),
         (flat_world 64 0 4 0%float).
  split; [|split]; vm_compute; reflexivity.
Qed.

End BB84Facts.

(** ** The session manager *)

Module SessionFacts.
Import Quantum Crypto BB84 Session Scenarios.

Section WithBackend.
Context {B : Type} `{QuantumBackend B} {hashes : HashFamily}.

Lemma fail_session_no_key (sm sm' : @SessionManager B) id qber raw final m err w w' key :
  fail_session sm id qber raw final m err w <> (Ok (sm', inl key), w').
Proof.
  unfold fail_session, bind, ret.
  destruct (updateSessionStatus _ _ _ _ _ _ _ _ _) as [[?| | |] ?]; congruence.
Qed.

Lemma store_key_inv (sm sm' : @SessionManager B) id material len w w' key :
  store_key sm id material len w = (Ok (sm', inl key), w') ->
  QuantumKey.KeyMaterial key = material
  /\ QuantumKey.SessionID key = id
  /\ keys sm' !! QuantumKey.KeyID key = Some key
  /\ sessions sm' = sessions sm.
Proof.
  unfold store_key, bind, ret.
  destruct (uuid_New w) as [[keyID| | |] w1]; try done.
  destruct (time_Now w1) as [[now| | |] w2]; try done.
  intros [= <- <- <-]. cbn. by rewrite lookup_insert_eq.
Qed.

(** C8: when [ExecuteKeyExchangeWithPostProcessing] returns a key, the key
    material is the output of [Amplify] (SHA3-256) on Alice's whole sifted
    key as produced by [BasisReconciliation]; Cascade, too, ran on the
    whole sifted keys.  The QBER sample enters only through the count
    [int(len * sampleSize)] inside the leakage fraction. *)
Theorem post_processing_uses_entire_sifted_key
  (sm sm' : @SessionManager B) (sessionID : positive) (w w' : World) (key : QuantumKey.t) :
  ExecuteKeyExchangeWithPostProcessing sm sessionID w = (Ok (sm', inl key), w') ->
  exists session alice bob sifted qber bobCorrected disclosedBits w1 w2 w3,
    let bb84 := NewBB84Protocol (backend sm) (wrap (QKDSession.KeyLength session * 4)) in
    let rawLen := Z.of_nat (length (SiftedKey.AliceKey sifted)) in
    let sampleBits := int_of_float64 (float64_of_int rawLen * sampleSize bb84)%float in
    let totalLeakage :=
      (float64_of_int (wrap (sampleBits + disclosedBits)) / float64_of_int rawLen)%float in
    sessions sm !! sessionID = Some session
    /\ AliceGenerateQubits bb84 w = (Ok alice, w1)
    /\ BobMeasureQubits bb84 (AliceSession.Qubits alice) w1 = (Ok bob, w2)
    /\ BasisReconciliation bb84 alice bob = Ok sifted
    /\ EstimateQBER bb84 sifted w2 = (Ok qber, w3)
    /\ Correct (NewCascadeCorrector qber) (SiftedKey.AliceKey sifted) (SiftedKey.BobKey sifted)
        = Ok (bobCorrected, disclosedBits)
    /\ Amplify (NewPrivacyAmplifier SHA3_256Method) (SiftedKey.AliceKey sifted)
          totalLeakage (QKDSession.KeyLength session)
        = Ok (QuantumKey.KeyMaterial key)
    /\ keys sm' !! QuantumKey.KeyID key = Some key.
Proof.
  unfold ExecuteKeyExchangeWithPostProcessing.
  destruct (sessions sm !! sessionID) as [session|] eqn:Hsession; [|done].
  destruct (negb _); [done|].
  cbn [backend QKDSession.with_status QKDSession.KeyLength].
  set (sm0 := mkSessionManager _ _ _).
  set (bb84 := NewBB84Protocol _ _).
  unfold bind at 1. unfold catch at 1.
  destruct (AliceGenerateQubits bb84 w) as [[alice|e| |] w1] eqn:Halice;
    [|by intros ?%fail_session_no_key|done..].
  unfold bind at 1. unfold catch at 1.
  destruct (BobMeasureQubits bb84 (AliceSession.Qubits alice) w1) as [[bob|e| |] w2] eqn:Hbob;
    [|by intros ?%fail_session_no_key|done..].
  unfold bind at 1. unfold catch at 1. unfold lift at 1.
  destruct (BasisReconciliation bb84 alice bob) as [sifted|e| |] eqn:Hsifted;
    [|by intros ?%fail_session_no_key|done..].
  unfold bind at 1. unfold catch at 1.
  destruct (EstimateQBER bb84 sifted w2) as [[qber|e| |] w3] eqn:Hqber;
    [|by intros ?%fail_session_no_key|done..].
  destruct (_ <? _)%float.
  { unfold bind, ret. destruct (updateSessionStatus _ _ _ _ _ _ _ _ _) as [[?| | |] ?]; done. }
  unfold post_process.
  unfold bind at 1. unfold catch at 1. unfold lift at 1.
  destruct (Correct _ _ _) as [[bobCorrected disclosedBits]|e| |] eqn:Hcorrect;
    [|by intros ?%fail_session_no_key|done..].
  destruct (VerifyKeyCorrectness _ _) as [keysMatch errorRate].
  destruct (negb keysMatch); [by intros ?%fail_session_no_key|].
  destruct (_ <? _); [by intros ?%fail_session_no_key|].
  unfold bind at 1. unfold catch at 1. unfold lift at 1.
  destruct (Amplify _ _ _ _) as [finalKey|e| |] eqn:Hamplify;
    [|by intros ?%fail_session_no_key|done..].
  unfold bind at 1.
  destruct (updateSessionStatus _ _ _ _ _ _ _ _ _) as [[sm1| | |] w4]; try done.
  intros (Hmaterial & _ & Hstored & _)%store_key_inv.
  exists session, alice, bob, sifted, qber, bobCorrected, disclosedBits, w1, w2, w3.
  cbv zeta. rewrite Hmaterial. by repeat split.
Qed.

End WithBackend.

Lemma post_processing_uses_entire_sifted_key_witness :
  exists session alice bob sifted qber bobCorrected disclosedBits w1 w2 w3,
    let bb84 := NewBB84Protocol (backend (fst joined))
                  (wrap (QKDSession.KeyLength session * 4)) in
    let rawLen := Z.of_nat (length (SiftedKey.AliceKey sifted)) in
    let sampleBits := int_of_float64 (float64_of_int rawLen * sampleSize bb84)%float in
    let totalLeakage :=
      (float64_of_int (wrap (sampleBits + disclosedBits)) / float64_of_int rawLen)%float in
    sessions (fst joined) !! 7%positive = Some session
    /\ AliceGenerateQubits bb84 (snd joined) = (Ok alice, w1)
    /\ BobMeasureQubits bb84 (AliceSession.Qubits alice) w1 = (Ok bob, w2)
    /\ BasisReconciliation bb84 alice bob = Ok sifted
    /\ EstimateQBER bb84 sifted w2 = (Ok qber, w3)
    /\ Correct (NewCascadeCorrector qber) (SiftedKey.AliceKey sifted) (SiftedKey.BobKey sifted)
        = Ok (bobCorrected, disclosedBits)
    /\ @Amplify padding_hashes (NewPrivacyAmplifier SHA3_256Method) (SiftedKey.AliceKey sifted)
          totalLeakage (QKDSession.KeyLength session)
        = Ok (QuantumKey.KeyMaterial processed_key)
    /\ keys processed_manager !! QuantumKey.KeyID processed_key = Some processed_key.
Proof.
  apply (@post_processing_uses_entire_sifted_key SimulatorBackend _ padding_hashes
           (fst joined) processed_manager 7%positive (snd joined) (snd processed)
           processed_key).
  vm_compute. reflexivity.
Defined.

Section ExecuteStatus.
Context {B : Type} `{QuantumBackend B}.

(** Whatever the session and the world: when the BB84 driver returns a
    result that is not secure, [ExecuteKeyExchange] marks the session
    [Completed], stores no key and returns an error. *)
Lemma ExecuteKeyExchange_insecure (sm : @SessionManager B) (sessionID : positive)
  (session : QKDSession.t) (w w1 : World) (result : KeyExchangeResult.t) :
  sessions sm !! sessionID = Some session ->
  QKDSession.Status session = SessionActive ->
  PerformKeyExchange (NewBB84Protocol (backend sm) (QKDSession.KeyLength session)) w
    = (Ok result, w1) ->
  KeyExchangeResult.Secure result = false ->
  clock w1 <> [] ->
  exists sm' err w' session',
    ExecuteKeyExchange sm sessionID w = (Ok (sm', inr err), w')
    /\ sessions sm' !! sessionID = Some session'
    /\ QKDSession.Status session' = SessionCompleted
    /\ keys sm' = keys sm.
Proof.
  intros Hsession Hactive Hrun Hinsecure Hclock.
  unfold ExecuteKeyExchange. rewrite Hsession, Hactive.
  cbn [bool_decide negb backend QKDSession.with_status QKDSession.KeyLength].
  rewrite bool_decide_eq_true_2 by done. cbn [negb].
  unfold bind at 1. unfold catch. rewrite Hrun.
  unfold bind at 1. unfold updateSessionStatus. cbn [sessions].
  rewrite lookup_insert_eq.
  unfold bind at 1. cbn [bool_decide orb].
  rewrite (bool_decide_eq_true_2 (SessionCompleted = SessionCompleted)) by done.
  cbn [orb]. unfold bind at 1. unfold time_Now.
  destruct (clock w1) as [|now rest]; [done|].
  unfold ret. rewrite Hinsecure. cbn [negb].
  eexists _, _, _, _. split; [reflexivity|].
  cbn [sessions keys]. rewrite lookup_insert_eq. by repeat split.
Qed.

End ExecuteStatus.

(** C1: an exchange whose QBER (1.0) exceeds the threshold (0.11) leaves
    the session [Completed], not [Aborted]; no key is stored and the
    caller gets an error. *)
Theorem ExecuteKeyExchange_insecure_is_completed :
  exists sm err s,
    noisy_session_run = Ok (sm, inr err)
    /\ sessions sm !! 7%positive = Some s
    /\ QKDSession.Status s = SessionCompleted
    /\ QKDSession.IsSecure s = false
    /\ (0.11 <? QKDSession.QBER s)%float = true
    /\ keys sm = ∅.
Proof.
  vm_compute.
  eexists _, _, _. split; [reflexivity|]. repeat split; reflexivity.
Qed.

End SessionFacts.

(** ** Keys and parities *)

Module VerificationFacts.
Import Quantum Crypto GoFacts.

Lemma zip_filter_nil (a b : list Bit) :
  length a = length b ->
  filter (fun ab : Bit * Bit => fst ab <> snd ab) (zip a b) = [] <-> a = b.
Proof.
  revert b. induction a as [|x a IH]; intros [|y b] Hlen; try done.
  cbn [zip zip_with]. rewrite filter_cons. cbn [fst snd].
  injection Hlen as Hlen. specialize (IH b Hlen).
  destruct (decide (x <> y)) as [Hne|Heq].
  - split; [done|]. intros [= ? ?]. done.
  - assert (x = y) as -> by (destruct (decide (x = y)); [done|contradiction]).
    rewrite IH. split; [by intros ->|by intros [= ->]].
Qed.

(** X1: [VerifyKeyCorrectness] answers [true] exactly when the two keys are
    equal (same length, same value at every position); keys of different
    lengths are reported with error rate 1. *)
Theorem VerifyKeyCorrectness_true_iff (aliceKey bobKey : list Bit) :
  (fst (VerifyKeyCorrectness aliceKey bobKey) = true <-> aliceKey = bobKey)
  /\ (length aliceKey <> length bobKey ->
      VerifyKeyCorrectness aliceKey bobKey = (false, 1%float)).
Proof.
  unfold VerifyKeyCorrectness.
  destruct (Nat.eqb_spec (length aliceKey) (length bobKey)) as [Hlen|Hlen]; cbn [negb fst].
  - split; [|done].
    rewrite Z.eqb_eq, <- (zip_filter_nil aliceKey bobKey Hlen).
    destruct (filter _ _); cbn [length]; split; try done; lia.
  - split; [|done]. split; [done|]. intros ->. done.
Qed.

Lemma parity_cons (x : Bit) (l : list Bit) :
  CalculateParity (x :: l) = Z.lxor x (CalculateParity l).
Proof.
  unfold CalculateParity. cbn [fold_left].
  fold (CalculateParity l).
  assert (forall acc, fold_left (fun parity bit => Z.lxor parity bit) l acc
                      = Z.lxor acc (CalculateParity l)) as Hfold.
  { unfold CalculateParity. clear. induction l as [|y l IH]; intros acc; cbn [fold_left].
    - by rewrite Z.lxor_0_r.
    - rewrite IH, (IH (Z.lxor Zero y)). unfold Zero.
      by rewrite Z.lxor_0_l, Z.lxor_assoc. }
  rewrite Hfold. unfold Zero. by rewrite Z.lxor_0_l.
Qed.

(** X2: the parity of a key of bits is the number of ones modulo 2 (so it
    is a bit, and 0 for the empty key), and the parity of a concatenation
    is the XOR of the parities. *)
Theorem CalculateParity_counts_ones (bits more : list Bit) :
  Forall is_bit bits ->
  CalculateParity bits = Z.of_nat (length (filter (fun b => b = One) bits)) mod 2
  /\ is_bit (CalculateParity bits)
  /\ CalculateParity (bits ++ more)
     = Z.lxor (CalculateParity bits) (CalculateParity more).
Proof.
  intros Hbits.
  assert (CalculateParity bits
          = Z.of_nat (length (filter (fun b => b = One) bits)) mod 2) as Hcount.
  { induction Hbits as [|x l Hx Hl IH]; [done|].
    rewrite parity_cons, IH, filter_cons.
    destruct Hx as [-> | ->]; unfold Zero, One.
    - case_decide; [done|]. by rewrite Z.lxor_0_l.
    - case_decide; [|done]. cbn [length].
      rewrite Nat2Z.inj_succ.
      rewrite <- Z.add_1_r, Z.add_mod by lia.
      match goal with
      | |- context [Z.of_nat ?m mod 2] =>
          pose proof (Z.mod_pos_bound (Z.of_nat m) 2 ltac:(lia));
          assert (Z.of_nat m mod 2 = 0 \/ Z.of_nat m mod 2 = 1) as [-> | ->] by lia
      end; done. }
  split; [exact Hcount|]. split.
  - rewrite Hcount.
    pose proof (Z.mod_pos_bound (Z.of_nat (length (filter (fun b => b = One) bits))) 2
                  ltac:(lia)) as Hb.
    revert Hb. generalize (Z.of_nat (length (filter (fun b => b = One) bits)) mod 2).
    unfold is_bit, Zero, One. intros; lia.
  - apply CascadeFacts.parity_app.
Qed.

Lemma CalculateParity_counts_ones_witness :
  CalculateParity [1; 0; 1; 1] = 3 mod 2.
Proof.
  refine (proj1 (CalculateParity_counts_ones [1; 0; 1; 1] [] _)).
  repeat constructor; (by left) || (by right).
Defined.

End VerificationFacts.

(** ** The session manager: requests and the life cycle of a session *)

Module ManagerFacts.
Import Quantum Crypto BB84 Session Scenarios.

(** X3: [Validate] accepts a request exactly when Alice's identifier is
    not empty, the key length lies in 128..4096 and the TTL is 0 (default)
    or lies in 1..10080; the accepted request has a backend and a TTL in
    1..10080 filled in. *)
Theorem Validate_accepts_iff (r : SessionCreateRequest.t) :
  (snd (Validate r) = None <->
     SessionCreateRequest.AliceID r <> ""%string
     /\ 128 <= SessionCreateRequest.KeyLength r <= 4096
     /\ (SessionCreateRequest.TTLMinutes r = 0
         \/ 1 <= SessionCreateRequest.TTLMinutes r <= 10080))
  /\ (snd (Validate r) = None ->
      SessionCreateRequest.AliceID (fst (Validate r)) = SessionCreateRequest.AliceID r
      /\ SessionCreateRequest.KeyLength (fst (Validate r)) = SessionCreateRequest.KeyLength r
      /\ SessionCreateRequest.Backend (fst (Validate r)) <> ""%string
      /\ 1 <= SessionCreateRequest.TTLMinutes (fst (Validate r)) <= 10080
      /\ (SessionCreateRequest.TTLMinutes r = 0 ->
          SessionCreateRequest.TTLMinutes (fst (Validate r)) = 1440)).
Proof.
  unfold Validate.
  destruct (String.eqb_spec (SessionCreateRequest.AliceID r) "") as [Ha|Ha].
  { cbn. split; [split; [done|tauto]|done]. }
  destruct (Z.ltb_spec (SessionCreateRequest.KeyLength r) 128) as [Hk|Hk].
  { cbn. split; [split; [done|lia]|done]. }
  destruct (Z.gtb_spec (SessionCreateRequest.KeyLength r) 4096) as [Hk'|Hk'].
  { cbn. split; [split; [done|lia]|done]. }
  cbn [orb].
  destruct (Z.eqb_spec (SessionCreateRequest.TTLMinutes r) 0) as [Ht|Ht].
  { cbn. split; [split; [intros _|done]|intros _].
    - repeat split; try done; try lia; by left.
    - repeat split; try lia.
      destruct (String.eqb_spec (SessionCreateRequest.Backend r) ""); done. }
  destruct (Z.ltb_spec (SessionCreateRequest.TTLMinutes r) 1) as [Hl|Hl].
  { cbn. split; [split; [done|lia]|done]. }
  destruct (Z.gtb_spec (SessionCreateRequest.TTLMinutes r) 10080) as [Hg|Hg].
  { cbn. split; [split; [done|lia]|done]. }
  cbn. split; [split; [intros _|done]|intros _].
  - repeat split; try done; try lia; right; lia.
  - repeat split; try lia.
    destruct (String.eqb_spec (SessionCreateRequest.Backend r) ""); done.
Qed.

Section WithBackend.
Context {B : Type}.

(** X4: a session created from an accepted request waits for Bob and
    expires between one minute and seven days after its creation; a
    [JoinSession] up to the expiry instant makes it active with Bob's
    identifier, a later one aborts it and reports that it has expired. *)
Theorem CreateSession_then_JoinSession (sm : @SessionManager B)
  (req : SessionCreateRequest.t) (bobID : string) (w : World)
  (id : positive) (us : list positive) (t0 t1 : Z) (ts : list Z) :
  snd (Validate req) = None ->
  uuids w = id :: us ->
  clock w = t0 :: t1 :: ts ->
  exists s sm1 w1,
    CreateSession sm req w = (Ok (sm1, inl s), w1)
    /\ sessions sm1 !! id = Some s
    /\ QKDSession.Status s = SessionWaitingForBob
    /\ QKDSession.AliceID s = SessionCreateRequest.AliceID req
    /\ QKDSession.KeyLength s = SessionCreateRequest.KeyLength req
    /\ t0 + Minute <= QKDSession.ExpiresAt s <= t0 + 10080 * Minute
    /\ exists sm2 r w2 s2,
         JoinSession sm1 id bobID w1 = (Ok (sm2, r), w2)
         /\ sessions sm2 !! id = Some s2
         /\ (t1 <= QKDSession.ExpiresAt s ->
             r = inl s2 /\ QKDSession.Status s2 = SessionActive
             /\ QKDSession.BobID s2 = bobID
             /\ QKDSession.AliceID s2 = SessionCreateRequest.AliceID req)
         /\ (QKDSession.ExpiresAt s < t1 ->
             r = inr ErrSessionExpired /\ QKDSession.Status s2 = SessionAborted).
Proof.
  intros Hvalid Hid Hclock.
  destruct (Validate_accepts_iff req) as [_ Hfill].
  specialize (Hfill Hvalid) as (Halice & Hlen & _ & Httl & _).
  unfold CreateSession.
  destruct (Validate req) as [req' err] eqn:Hv. cbn [fst snd] in *. subst err.
  unfold bind, uuid_New, time_Now, ret. rewrite Hid. cbn [clock]. rewrite Hclock.
  eexists _, _, _. split; [reflexivity|].
  cbn [sessions QKDSession.Status QKDSession.AliceID QKDSession.KeyLength
       QKDSession.ExpiresAt].
  rewrite lookup_insert_eq.
  repeat split; try done; try (unfold Minute; nia).
  unfold JoinSession. cbn [sessions keys backend]. rewrite lookup_insert_eq.
  unfold bind, time_Now, ret. cbn [clock QKDSession.ExpiresAt].
  destruct (Z.ltb_spec (t0 + SessionCreateRequest.TTLMinutes req' * Minute) t1) as [Hexp|Hexp].
  - eexists _, _, _, _. split; [reflexivity|]. cbn [sessions].
    rewrite lookup_insert_eq. split; [reflexivity|]. split; [lia|done].
  - cbn [QKDSession.Status bool_decide]. rewrite bool_decide_eq_true_2 by done.
    cbn [negb].
    eexists _, _, _, _. split; [reflexivity|]. cbn [sessions].
    rewrite lookup_insert_eq. split; [reflexivity|]. split; [done|lia].
Qed.

End WithBackend.
Import Quantum Crypto BB84 Session Scenarios.

Lemma CreateSession_then_JoinSession_witness :
  exists s sm1 w1,
    CreateSession fresh_manager (SessionCreateRequest.mk "alice" 128 "" 60) quiet_world
    = (Ok (sm1, inl s), w1)
    /\ QKDSession.Status s = SessionWaitingForBob
    /\ exists sm2 s2 w2,
         JoinSession sm1 7%positive "bob" w1 = (Ok (sm2, inl s2), w2)
         /\ QKDSession.Status s2 = SessionActive.
Proof.
  destruct (CreateSession_then_JoinSession fresh_manager
              (SessionCreateRequest.mk "alice" 128 "" 60) "bob" quiet_world
              7%positive [8; 9]%positive 100 200 [300; 400; 500; 600])
    as (s & sm1 & w1 & Hcreate & _ & Hwaiting & _ & _ & Hexpiry & sm2 & r & w2 & s2
        & Hjoin & _ & Hlive & _); [reflexivity..|].
  destruct Hlive as (-> & Hactive & _); [unfold Minute in Hexpiry; lia|].
  exists s, sm1, w1. split; [exact Hcreate|]. split; [exact Hwaiting|].
  exists sm2, s2, w2. split; [exact Hjoin|exact Hactive].
Defined.

End ManagerFacts.

(** ** The session manager: joining a session and executing an exchange *)

Module ExecuteFacts.
Import Quantum Crypto BB84 Session Scenarios.

Section WithBackend.
Context {B : Type}.




End WithBackend.

Section Execute.
Context {B : Type} `{QuantumBackend B} {hashes : HashFamily}.



#[local] Abbreviation processed_or_failed sm sm' id r :=
  (exists s',
     sessions sm' !! id = Some s'
     /\ match r with
        | inl key =>
            QKDSession.Status s' = SessionCompleted
            /\ QKDSession.IsSecure s' = true
            /\ QuantumKey.SessionID key = id
            /\ QuantumKey.KeyLength key = Z.of_nat (length (QuantumKey.KeyMaterial key)) * 8
            /\ QKDSession.FinalKeyLength s' = QuantumKey.KeyLength key
            /\ keys sm' !! QuantumKey.KeyID key = Some key
        | inr _ =>
            (QKDSession.Status s' = SessionFailed \/ QKDSession.Status s' = SessionAborted)
            /\ QKDSession.IsSecure s' = false
            /\ keys sm' = keys sm
        end).


End Execute.
Import Quantum Crypto BB84 Session Scenarios.




End ExecuteFacts.

(** ** The session manager: keys and clean-up *)

Module KeyStoreFacts.
Import Quantum Crypto BB84 Session Scenarios.

Section WithBackend.
Context {B : Type}.

(** X8: [GetKey] hands a key out only to Alice or Bob of the key's session
    and only up to the key's expiry instant; it then returns the stored
    key and leaves the manager as it is. *)
Theorem GetKey_authorised (sm sm' : @SessionManager B) (keyID : positive)
  (userID : string) (key : QuantumKey.t) (w w' : World) :
  GetKey sm keyID userID w = (Ok (sm', inl key), w') ->
  sm' = sm
  /\ keys sm !! keyID = Some key
  /\ exists session now,
       sessions sm !! QuantumKey.SessionID key = Some session
       /\ (QKDSession.AliceID session = userID \/ QKDSession.BobID session = userID)
       /\ clock w = now :: clock w'
       /\ now <= QuantumKey.ExpiresAt key.
Proof.
  unfold GetKey.
  destruct (keys sm !! keyID) as [k|] eqn:Hk; [|done].
  destruct (sessions sm !! QuantumKey.SessionID k) as [session|] eqn:Hs; [|done].
  destruct (String.eqb_spec (QKDSession.AliceID session) userID) as [Ha|Ha];
    destruct (String.eqb_spec (QKDSession.BobID session) userID) as [Hb|Hb];
    cbn [negb andb]; try done.
  all: unfold bind, time_Now, ret; destruct (clock w) as [|now ts] eqn:Hclock; [done|].
  all: destruct (Z.ltb_spec (QuantumKey.ExpiresAt k) now); [done|].
  all: intros [= <- <- <-]; split; [done|]; split; [done|].
  all: exists session, now; cbn [clock]; repeat split; auto.
Qed.

(** X9: revoking a key does not withdraw it.  After [RevokeKey] the key is
    marked inactive and used, yet [GetKey] still returns it, material
    included, to Alice and Bob until it expires: [GetKey] does not look at
    [IsActive]. *)
Theorem RevokeKey_then_GetKey (sm : @SessionManager B) (keyID : positive)
  (userID : string) (key : QuantumKey.t) (session : QKDSession.t)
  (w : World) (t1 t2 : Z) (ts : list Z) :
  keys sm !! keyID = Some key ->
  sessions sm !! QuantumKey.SessionID key = Some session ->
  QKDSession.AliceID session = userID \/ QKDSession.BobID session = userID ->
  clock w = t1 :: t2 :: ts ->
  t2 <= QuantumKey.ExpiresAt key ->
  exists sm1 w1 key1 w2,
    RevokeKey sm keyID w = (Ok (sm1, None), w1)
    /\ keys sm1 !! keyID = Some key1
    /\ QuantumKey.IsActive key1 = false
    /\ QuantumKey.UsedAt key1 = Some t1
    /\ QuantumKey.KeyMaterial key1 = QuantumKey.KeyMaterial key
    /\ GetKey sm1 keyID userID w1 = (Ok (sm1, inl key1), w2).
Proof.
  intros Hk Hs Huser Hclock Hlive.
  unfold RevokeKey. rewrite Hk. unfold bind, time_Now, ret. rewrite Hclock.
  eexists _, _, _, _. split; [reflexivity|].
  cbn [keys]. rewrite lookup_insert_eq. split; [reflexivity|].
  repeat split.
  unfold GetKey. cbn [keys sessions backend]. rewrite lookup_insert_eq.
  cbn [deactivated QuantumKey.SessionID QuantumKey.ExpiresAt]. rewrite Hs.
  assert (negb (String.eqb (QKDSession.AliceID session) userID)
          && negb (String.eqb (QKDSession.BobID session) userID) = false) as ->.
  { destruct Huser as [<- | <-]; rewrite String.eqb_refl; cbn [negb andb]; [done|].
    by rewrite andb_false_r. }
  unfold bind, time_Now, ret. cbn [clock].
  destruct (Z.ltb_spec (QuantumKey.ExpiresAt key) t2); [lia|].
  reflexivity.
Qed.

Lemma size_filter_complement {A} (P : positive * A -> Prop) `{!forall x, Decision (P x)}
  (m : gmap positive A) :
  (size m = size (filter P m) + size (filter (fun kv => ~ P kv) m))%nat.
Proof.
  rewrite <- (map_filter_union_complement P m) at 1.
  apply map_size_disj_union, map_disjoint_filter_complement.
Qed.

(** X10: [CleanupExpiredSessions] keeps exactly the sessions and keys whose
    expiry instant has not passed, each with its value unchanged, and
    returns the number of entries it removed. *)
Theorem CleanupExpiredSessions_removes_expired (sm : @SessionManager B) (w : World)
  (now : Z) (ts : list Z) :
  clock w = now :: ts ->
  exists sm' removed w',
    CleanupExpiredSessions sm w = (Ok (sm', removed), w')
    /\ clock w' = ts
    /\ (forall id s, sessions sm' !! id = Some s
                     <-> sessions sm !! id = Some s /\ now <= QKDSession.ExpiresAt s)
    /\ (forall id k, keys sm' !! id = Some k
                     <-> keys sm !! id = Some k /\ now <= QuantumKey.ExpiresAt k)
    /\ removed
       = Z.of_nat (size (filter (fun kv => QKDSession.ExpiresAt (snd kv) < now) (sessions sm)))
         + Z.of_nat (size (filter (fun kv => QuantumKey.ExpiresAt (snd kv) < now) (keys sm)))
    /\ Z.of_nat (size (sessions sm)) + Z.of_nat (size (keys sm))
       = removed + Z.of_nat (size (sessions sm')) + Z.of_nat (size (keys sm')).
Proof.
  intros Hclock.
  unfold CleanupExpiredSessions, bind, time_Now, ret. rewrite Hclock.
  eexists _, _, _. split; [reflexivity|]. cbn [clock sessions keys].
  split; [done|].
  split; [|split].
  - intros id s. rewrite map_lookup_filter_Some. cbn [snd]. split; intros [? ?]; split; auto; lia.
  - intros id k. rewrite map_lookup_filter_Some. cbn [snd]. split; intros [? ?]; split; auto; lia.
  - pose proof (size_filter_complement
                  (fun kv : positive * QKDSession.t => QKDSession.ExpiresAt (snd kv) < now)
                  (sessions sm)) as H1.
    pose proof (size_filter_complement
                  (fun kv : positive * QuantumKey.t => QuantumKey.ExpiresAt (snd kv) < now)
                  (keys sm)) as H2.
    split; lia.
Qed.

(** X11: a key can outlive its session.  When the session has expired and
    the key has not, [CleanupExpiredSessions] removes the session and keeps
    the key, and from then on [GetKey] answers "session not found" to every
    user, Alice and Bob included. *)
Theorem Cleanup_orphans_live_keys (sm sm' : @SessionManager B) (keyID : positive)
  (key : QuantumKey.t) (session : QKDSession.t) (w w' : World)
  (now : Z) (ts : list Z) (removed : Z) :
  keys sm !! keyID = Some key ->
  sessions sm !! QuantumKey.SessionID key = Some session ->
  clock w = now :: ts ->
  QKDSession.ExpiresAt session < now <= QuantumKey.ExpiresAt key ->
  CleanupExpiredSessions sm w = (Ok (sm', removed), w') ->
  keys sm' !! keyID = Some key
  /\ forall userID w2,
       GetKey sm' keyID userID w2 = (Ok (sm', inr ErrSessionNotFound), w2).
Proof.
  intros Hk Hs Hclock Hexp.
  unfold CleanupExpiredSessions, bind, time_Now, ret. rewrite Hclock.
  intros [= <- <- <-].
  assert (filter (fun kv : positive * QuantumKey.t => ~ QuantumKey.ExpiresAt (snd kv) < now)
            (keys sm) !! keyID = Some key) as Hk'.
  { apply map_lookup_filter_Some. split; [done|]. cbn [snd]. lia. }
  split; [exact Hk'|].
  intros userID w2. unfold GetKey. cbn [keys sessions]. rewrite Hk'.
  rewrite map_lookup_filter_None_2; [done|].
  right. intros s' Hs'. rewrite Hs in Hs'. injection Hs' as <-. cbn [snd]. lia.
Qed.

End WithBackend.
Import Quantum Crypto BB84 Session Scenarios.

Lemma GetKey_authorised_witness :
  keys keyed_manager !! 8%positive = Some stored_key
  /\ exists session now,
       sessions keyed_manager !! 7%positive = Some session
       /\ (QKDSession.AliceID session = "alice"%string
           \/ QKDSession.BobID session = "alice"%string)
       /\ clock quiet_world = now :: [200; 300; 400; 500; 600]
       /\ now <= 5000.
Proof.
  exact (proj2 (GetKey_authorised keyed_manager keyed_manager 8%positive
                  "alice" stored_key quiet_world
                  (mkWorld [] [] [] [7; 8; 9]%positive [200; 300; 400; 500; 600]) eq_refl)).
Defined.

Lemma RevokeKey_then_GetKey_witness :
  exists sm1 w1 key1 w2,
    RevokeKey keyed_manager 8%positive quiet_world = (Ok (sm1, None), w1)
    /\ keys sm1 !! 8%positive = Some key1
    /\ QuantumKey.IsActive key1 = false
    /\ QuantumKey.UsedAt key1 = Some 100
    /\ QuantumKey.KeyMaterial key1 = [165; 90]
    /\ GetKey sm1 8%positive "bob" w1 = (Ok (sm1, inl key1), w2).
Proof.
  apply (RevokeKey_then_GetKey keyed_manager 8%positive "bob" stored_key
           (QKDSession.mk 7 "alice" "bob" SessionCompleted "simulator" 16 0 64 16
              true (Sprintf "" []) 1 (Some 10) 50)
           quiet_world 100 200 [300; 400; 500; 600]).
  - reflexivity.
  - reflexivity.
  - by right.
  - reflexivity.
  - cbn. lia.
Defined.

Lemma CleanupExpiredSessions_removes_expired_witness :
  exists sm' removed w',
    CleanupExpiredSessions keyed_manager quiet_world = (Ok (sm', removed), w')
    /\ Z.of_nat (size (sessions keyed_manager)) + Z.of_nat (size (keys keyed_manager))
       = removed + Z.of_nat (size (sessions sm')) + Z.of_nat (size (keys sm')).
Proof.
  destruct (CleanupExpiredSessions_removes_expired keyed_manager quiet_world
              100 [200; 300; 400; 500; 600] eq_refl)
    as (sm' & removed & w' & Hrun & _ & _ & _ & _ & Hcount).
  exists sm', removed, w'. split; [exact Hrun|exact Hcount].
Defined.

Lemma Cleanup_orphans_live_keys_witness :
  keys (mkSessionManager ∅ {[ 8%positive := stored_key ]} quiet_backend) !! 8%positive
  = Some stored_key
  /\ GetKey (mkSessionManager ∅ {[ 8%positive := stored_key ]} quiet_backend) 8%positive
       "alice" quiet_world
     = (Ok (mkSessionManager ∅ {[ 8%positive := stored_key ]} quiet_backend,
            inr ErrSessionNotFound), quiet_world).
Proof.
  assert (CleanupExpiredSessions keyed_manager quiet_world
          = (Ok (mkSessionManager ∅ {[ 8%positive := stored_key ]} quiet_backend, 1),
             mkWorld [] [] [] [7; 8; 9]%positive [200; 300; 400; 500; 600])) as Hrun
    by (vm_compute; reflexivity).
  assert (QKDSession.ExpiresAt
            (QKDSession.mk 7 "alice" "bob" SessionCompleted "simulator" 16 0 64 16
               true (Sprintf "" []) 1 (Some 10) 50) < 100
          <= QuantumKey.ExpiresAt stored_key) as Hexp by (cbn; lia).
  destruct (Cleanup_orphans_live_keys keyed_manager
              (mkSessionManager ∅ {[ 8%positive := stored_key ]} quiet_backend)
              8%positive stored_key
              (QKDSession.mk 7 "alice" "bob" SessionCompleted "simulator" 16 0 64 16
                 true (Sprintf "" []) 1 (Some 10) 50)
              quiet_world
              (mkWorld [] [] [] [7; 8; 9]%positive [200; 300; 400; 500; 600])
              100 [200; 300; 400; 500; 600] 1 eq_refl eq_refl eq_refl Hexp Hrun)
    as [Hkept Horphan].
  split; [exact Hkept|exact (Horphan "alice"%string quiet_world)].
Defined.

End KeyStoreFacts.

(** ** Sifting, and the noise-free simulator *)

Module SiftingFacts.
Import Quantum Crypto BB84 Scenarios GoFacts.

Lemma index_nth {A} (l : list A) (i : nat) (d : A) :
  (i < length l)%nat -> index l (Z.of_nat i) = Ok (nth i l d).
Proof.
  intros Hi. destruct (lookup_lt_is_Some_2 l i Hi) as [x Hx].
  rewrite (index_nat l i x Hx). f_equal.
  by rewrite (nth_lookup_Some l i d x Hx).
Qed.

Section Protocol.
Context {B : Type} `{QuantumBackend B}.

Lemma BasisReconciliation_loop_spec (alice : AliceSession.t) (bob : BobSession.t)
  (positions : list nat) : forall sifted : SiftedKey.t,
  length (BobSession.Bases bob) = length (AliceSession.Bases alice) ->
  length (AliceSession.Bits alice) = length (AliceSession.Bases alice) ->
  length (BobSession.Measurements bob) = length (AliceSession.Bases alice) ->
  Forall (fun i => (i < length (AliceSession.Bases alice))%nat) positions ->
  BasisReconciliation_loop alice bob positions sifted
  = Ok (SiftedKey.mk
          (SiftedKey.AliceKey sifted
           ++ map (fun i => nth i (AliceSession.Bits alice) 0)
                (filter (fun i => nth i (AliceSession.Bases alice) 0
                                  = nth i (BobSession.Bases bob) 0) positions))
          (SiftedKey.BobKey sifted
           ++ map (fun i => MeasuredBit (nth i (BobSession.Measurements bob)
                                            (mkMeasurementResult 0 0)))
                (filter (fun i => nth i (AliceSession.Bases alice) 0
                                  = nth i (BobSession.Bases bob) 0) positions))
          (SiftedKey.Indices sifted
           ++ map Z.of_nat
                (filter (fun i => nth i (AliceSession.Bases alice) 0
                                  = nth i (BobSession.Bases bob) 0) positions))).
Proof.
  intros sifted Hb Hbits Hm Hpos. revert sifted.
  induction Hpos as [|i positions Hi Hpos IH]; intros sifted.
  - cbn. rewrite !app_nil_r. by destruct sifted.
  - cbn [BasisReconciliation_loop].
    rewrite (index_nth (AliceSession.Bases alice) i 0) by lia.
    rewrite (index_nth (BobSession.Bases bob) i 0) by lia.
    cbn [mbind res_bind]. rewrite filter_cons.
    destruct (Z.eqb_spec (nth i (AliceSession.Bases alice) 0)
                (nth i (BobSession.Bases bob) 0)) as [Heq|Hne].
    + rewrite decide_True by done.
      rewrite (index_nth (AliceSession.Bits alice) i 0) by lia.
      rewrite (index_nth (BobSession.Measurements bob) i (mkMeasurementResult 0 0)) by lia.
      cbn [mbind res_bind]. rewrite IH. cbn [SiftedKey.AliceKey SiftedKey.BobKey
        SiftedKey.Indices map]. by rewrite <- !app_assoc.
    + rewrite decide_False by done. apply IH.
Qed.

Lemma BasisReconciliation_spec (bb : @BB84Protocol B)
  (alice : AliceSession.t) (bob : BobSession.t) :
  length (BobSession.Bases bob) = length (AliceSession.Bases alice) ->
  length (AliceSession.Bits alice) = length (AliceSession.Bases alice) ->
  length (BobSession.Measurements bob) = length (AliceSession.Bases alice) ->
  BasisReconciliation bb alice bob
  = Ok (SiftedKey.mk
          (map (fun i => nth i (AliceSession.Bits alice) 0)
             (filter (fun i => nth i (AliceSession.Bases alice) 0
                               = nth i (BobSession.Bases bob) 0)
                (seq 0 (length (AliceSession.Bases alice)))))
          (map (fun i => MeasuredBit (nth i (BobSession.Measurements bob)
                                         (mkMeasurementResult 0 0)))
             (filter (fun i => nth i (AliceSession.Bases alice) 0
                               = nth i (BobSession.Bases bob) 0)
                (seq 0 (length (AliceSession.Bases alice)))))
          (map Z.of_nat
             (filter (fun i => nth i (AliceSession.Bases alice) 0
                               = nth i (BobSession.Bases bob) 0)
                (seq 0 (length (AliceSession.Bases alice)))))).
Proof.
  intros Hb Hbits Hm. unfold BasisReconciliation.
  rewrite Hb, Nat.eqb_refl. cbn [negb].
  rewrite BasisReconciliation_loop_spec; try done.
  apply Forall_forall. intros i Hi%elem_of_seq. lia.
Qed.

(** X12: [BasisReconciliation] keeps exactly the positions where Alice's
    and Bob's bases are equal, in increasing order: the sifted keys hold
    Alice's bit and Bob's measured bit of each such position, and
    [Indices] lists the positions. *)
Theorem BasisReconciliation_keeps_matching_bases (bb : @BB84Protocol B)
  (alice : AliceSession.t) (bob : BobSession.t) :
  length (BobSession.Bases bob) = length (AliceSession.Bases alice) ->
  length (AliceSession.Bits alice) = length (AliceSession.Bases alice) ->
  length (BobSession.Measurements bob) = length (AliceSession.Bases alice) ->
  exists sifted,
    BasisReconciliation bb alice bob = Ok sifted
    /\ SiftedKey.Indices sifted
       = map Z.of_nat
           (filter (fun i => nth i (AliceSession.Bases alice) 0
                             = nth i (BobSession.Bases bob) 0)
              (seq 0 (length (AliceSession.Bases alice))))
    /\ SiftedKey.AliceKey sifted
       = map (fun i => nth (Z.to_nat i) (AliceSession.Bits alice) 0) (SiftedKey.Indices sifted)
    /\ SiftedKey.BobKey sifted
       = map (fun i => MeasuredBit (nth (Z.to_nat i) (BobSession.Measurements bob)
                                      (mkMeasurementResult 0 0)))
           (SiftedKey.Indices sifted).
Proof.
  intros Hb Hbits Hm. eexists. split; [by apply BasisReconciliation_spec|].
  cbn [SiftedKey.Indices SiftedKey.AliceKey SiftedKey.BobKey].
  split; [done|].
  rewrite !map_map. split; apply map_ext; intros i; by rewrite Nat2Z.id.
Qed.

End Protocol.
Import Quantum Crypto BB84 Session Scenarios.

Lemma BasisReconciliation_keeps_matching_bases_witness :
  exists sifted,
    BasisReconciliation small_protocol
      (AliceSession.mk [1; 0; 1] [0; 1; 0] [] [])
      (BobSession.mk [0; 0; 0]
         [mkMeasurementResult 1 0; mkMeasurementResult 1 0; mkMeasurementResult 0 0] [])
    = Ok sifted
    /\ SiftedKey.Indices sifted = [0; 2]
    /\ SiftedKey.AliceKey sifted = [1; 1]
    /\ SiftedKey.BobKey sifted = [1; 0].
Proof.
  destruct (BasisReconciliation_keeps_matching_bases small_protocol
              (AliceSession.mk [1; 0; 1] [0; 1; 0] [] [])
              (BobSession.mk [0; 0; 0]
                 [mkMeasurementResult 1 0; mkMeasurementResult 1 0; mkMeasurementResult 0 0] [])
              eq_refl eq_refl eq_refl) as (sifted & Hrun & Hidx & Ha & Hb).
  exists sifted. split; [exact Hrun|].
  rewrite Ha, Hb, Hidx. by vm_compute.
Defined.

End SiftingFacts.
Module SimulatorFacts.
Import Quantum Crypto BB84 Scenarios GoFacts.

Lemma GenerateRandom_loop_bits (n : nat) : forall (w w' : World) (l : list Z),
  GenerateRandom_loop n w = (Ok l, w') -> length l = n /\ Forall is_bit l.
Proof.
  induction n as [|n IH]; intros w w' l; cbn [GenerateRandom_loop].
  - unfold ret. by intros [= <- <-].
  - unfold bind at 1. unfold rand_Intn2 at 1.
    destruct (mathInts w) as [|r rest]; [done|].
    unfold bind at 1.
    destruct (GenerateRandom_loop n _) as [[l'| | |] w1] eqn:Hl; try done.
    unfold ret. intros [= <- <-].
    destruct (IH _ _ _ Hl) as [Hlen Hbits].
    split; [cbn; lia|]. constructor; [|done].
    pose proof (Z.mod_pos_bound r 2 ltac:(lia)).
    unfold is_bit, Zero, One. lia.
Qed.

Lemma Simulator_prepare_noiseless (s : SimulatorBackend) (bits : list Bit) :
  forall (bases : list Basis) (w : World),
  simulateNoise s = false ->
  Simulator_prepare s bits bases w = (Ok (zip_with PrepareQubit bits bases), w).
Proof.
  induction bits as [|bit bits IH]; intros [|basis bases] w Hs; try done.
  cbn [Simulator_prepare zip_with]. rewrite Hs.
  unfold bind at 1. unfold ret at 1. unfold bind at 1.
  rewrite IH by done. done.
Qed.

Lemma MeasureQubit_spec (q : Qubit) (basis : Basis) (w w' : World) (m : MeasurementResult) :
  MeasureQubit q basis w = (Ok m, w') ->
  MeasurementBasis m = basis
  /\ (basis = PreparationBasis q -> MeasuredBit m = ClassicalValue q /\ w' = w)
  /\ (MeasuredBit m = ClassicalValue q \/ MeasuredBit m = flip (ClassicalValue q)).
Proof.
  unfold MeasureQubit.
  destruct (Z.eqb_spec basis (PreparationBasis q)) as [Heq|Hne]; cbn [negb].
  - unfold bind, ret. intros [= <- <-]. cbn. auto.
  - unfold bind at 1. unfold bind at 1. unfold rand_Float64.
    destruct (mathFloats w) as [|r rest]; [done|].
    unfold ret. intros [= <- <-]. cbn. split; [done|]. split; [done|].
    destruct (r <? 0.5)%float; auto.
Qed.

Lemma Simulator_measure_spec (qubits : list Qubit) :
  forall (bases : list Basis) (w w' : World) (ms : list MeasurementResult),
  length qubits = length bases ->
  Simulator_measure qubits bases w = (Ok ms, w') ->
  length ms = length qubits
  /\ forall i q, qubits !! i = Some q ->
       exists m, ms !! i = Some m
         /\ bases !! i = Some (MeasurementBasis m)
         /\ (MeasurementBasis m = PreparationBasis q -> MeasuredBit m = ClassicalValue q)
         /\ (MeasuredBit m = ClassicalValue q \/ MeasuredBit m = flip (ClassicalValue q)).
Proof.
  induction qubits as [|q qubits IH]; intros [|basis bases] w w' ms Hlen; try done.
  - cbn. unfold ret. intros [= <- <-]. split; [done|]. intros i q. by rewrite lookup_nil.
  - cbn [Simulator_measure]. unfold bind at 1.
    destruct (MeasureQubit q basis w) as [[m| | |] w1] eqn:Hm; try done.
    unfold bind at 1.
    destruct (Simulator_measure qubits bases w1) as [[rest| | |] w2] eqn:Hrest; try done.
    unfold ret. intros [= <- <-].
    destruct (MeasureQubit_spec _ _ _ _ _ Hm) as (Hbasis & Hsame & Hany).
    destruct (IH bases w1 w2 rest ltac:(by injection Hlen) Hrest) as [Hl Hi].
    split; [cbn; lia|].
    intros [|i] q'; cbn.
    + intros [= <-]. exists m. rewrite Hbasis. repeat split; auto.
      intros ->. by apply Hsame.
    + apply Hi.
Qed.

Lemma noiseless_sifting (bb : @BB84Protocol SimulatorBackend)
  (alice : AliceSession.t) (bob : BobSession.t) (sifted : SiftedKey.t) (w w1 w2 : World) :
  simulateNoise (backend bb) = false ->
  AliceGenerateQubits bb w = (Ok alice, w1) ->
  BobMeasureQubits bb (AliceSession.Qubits alice) w1 = (Ok bob, w2) ->
  BasisReconciliation bb alice bob = Ok sifted ->
  SiftedKey.BobKey sifted = SiftedKey.AliceKey sifted
  /\ Forall is_bit (SiftedKey.AliceKey sifted)
  /\ length (SiftedKey.Indices sifted) = length (SiftedKey.AliceKey sifted).
Proof.
  intros Hnoise Halice Hbob Hsift.
  (* Alice *)
  unfold AliceGenerateQubits in Halice.
  unfold bind at 1 in Halice. unfold GenerateRandomBits in Halice.
  destruct (wrap (keyLength bb * 4) <? 0) eqn:Hneg; [done|].
  destruct (GenerateRandom_loop _ w) as [[bits| | |] wa] eqn:Hbits; try done.
  unfold bind at 1 in Halice. unfold GenerateRandomBases in Halice. rewrite Hneg in Halice.
  destruct (GenerateRandom_loop _ wa) as [[bases| | |] wb] eqn:Hbases; try done.
  destruct (GenerateRandom_loop_bits _ _ _ _ Hbits) as [Hlbits Hisbits].
  destruct (GenerateRandom_loop_bits _ _ _ _ Hbases) as [Hlbases _].
  unfold bind at 1 in Halice. unfold try_wrap in Halice.
  cbn [PrepareAndSend SimulatorBackend_QuantumBackend] in Halice.
  unfold Simulator_PrepareAndSend in Halice.
  match type of Halice with
  | context [negb ?c] =>
      let Hc := fresh in
      assert (c = true) as Hc by (apply Nat.eqb_eq; exact (eq_trans Hlbits (eq_sym Hlbases)));
      rewrite Hc in Halice; clear Hc
  end.
  cbn [negb] in Halice.
  rewrite Simulator_prepare_noiseless in Halice by done.
  unfold ret in Halice. injection Halice as <- <-.
  cbn [AliceSession.Qubits AliceSession.Bits AliceSession.Bases] in *.
  (* Bob *)
  unfold BobMeasureQubits in Hbob.
  unfold bind at 1 in Hbob. unfold GenerateRandomBases in Hbob.
  destruct (Z.ltb_spec (Z.of_nat (length (zip_with PrepareQubit bits bases))) 0); [lia|].
  rewrite Nat2Z.id in Hbob.
  destruct (GenerateRandom_loop _ wb) as [[bobBases| | |] wc] eqn:Hbb; try done.
  destruct (GenerateRandom_loop_bits _ _ _ _ Hbb) as [Hlbb _].
  unfold bind at 1 in Hbob. unfold try_wrap in Hbob.
  cbn [ReceiveAndMeasure SimulatorBackend_QuantumBackend] in Hbob.
  unfold Simulator_ReceiveAndMeasure in Hbob.
  match type of Hbob with
  | context [negb ?c] =>
      let Hc := fresh in
      assert (c = true) as Hc by (apply Nat.eqb_eq; exact (eq_sym Hlbb));
      rewrite Hc in Hbob; clear Hc
  end.
  cbn [negb] in Hbob.
  destruct (Simulator_measure _ bobBases wc) as [[ms| | |] wd] eqn:Hms; try done.
  unfold ret in Hbob. injection Hbob as <- <-.
  destruct (Simulator_measure_spec _ _ _ _ _ (eq_sym Hlbb) Hms) as [Hlms Hmeas].
  assert (length (zip_with PrepareQubit bits bases) = length bases) as Hlq.
  { rewrite length_zip_with. unfold Bit, Basis in *. lia. }
  unfold Bit, Basis in *.
  (* sifting *)
  rewrite SiftingFacts.BasisReconciliation_spec in Hsift;
    cbn [AliceSession.Bits AliceSession.Bases BobSession.Bases BobSession.Measurements];
    [|unfold Bit, Basis in *; lia..].
  injection Hsift as <-.
  cbn [SiftedKey.AliceKey SiftedKey.BobKey SiftedKey.Indices].
  split; [|split].
  - apply map_ext_in. intros i [Hsame Hi]%list_elem_of_In%list_elem_of_filter.
    apply elem_of_seq in Hi. unfold Bit, Basis in *.
    assert (zip_with PrepareQubit bits bases !! i
            = Some (PrepareQubit (nth i bits 0) (nth i bases 0))) as Hq.
    { rewrite lookup_zip_with.
      destruct (lookup_lt_is_Some_2 bits i ltac:(lia)) as [x Hx].
      destruct (lookup_lt_is_Some_2 bases i ltac:(lia)) as [y Hy].
      unfold Bit, Basis in *. rewrite Hx, Hy. cbn.
      by rewrite (nth_lookup_Some _ _ _ _ Hx), (nth_lookup_Some _ _ _ _ Hy). }
    destruct (Hmeas i _ Hq) as (m & Hm & Hmb & Hkeep & _).
    rewrite (nth_lookup_Some _ _ _ _ Hm).
    rewrite (nth_lookup_Some _ _ _ _ Hmb) in Hsame.
    by rewrite Hkeep.
  - apply Forall_forall. intros x (i & -> & Hi)%list_elem_of_fmap.
    apply list_elem_of_filter in Hi as [_ Hi%elem_of_seq]. unfold Bit, Basis in *.
    rewrite Forall_forall in Hisbits. apply Hisbits.
    apply list_elem_of_lookup. exists i.
    destruct (lookup_lt_is_Some_2 bits i ltac:(lia)) as [x Hx].
    by rewrite (nth_lookup_Some _ _ _ _ Hx).
  - by rewrite !length_map.
Qed.
(** X13: over a simulator that does not simulate noise, sifting yields the
    same key on both sides.  Whatever the random bits and bases, after
    [AliceGenerateQubits], [BobMeasureQubits] and [BasisReconciliation]
    Alice's and Bob's sifted keys are equal lists of bits, one per kept
    index. *)
Theorem noiseless_sifted_keys_agree (bb : @BB84Protocol SimulatorBackend)
  (alice : AliceSession.t) (bob : BobSession.t) (sifted : SiftedKey.t) (w w1 w2 : World) :
  simulateNoise (backend bb) = false ->
  AliceGenerateQubits bb w = (Ok alice, w1) ->
  BobMeasureQubits bb (AliceSession.Qubits alice) w1 = (Ok bob, w2) ->
  BasisReconciliation bb alice bob = Ok sifted ->
  SiftedKey.BobKey sifted = SiftedKey.AliceKey sifted
  /\ Forall is_bit (SiftedKey.AliceKey sifted)
  /\ length (SiftedKey.Indices sifted) = length (SiftedKey.AliceKey sifted).
Proof. apply noiseless_sifting. Qed.

Import Quantum Crypto BB84 Session Scenarios.

Lemma noiseless_sifted_keys_agree_witness :
  SiftedKey.BobKey small_sifted = SiftedKey.AliceKey small_sifted
  /\ Forall is_bit (SiftedKey.AliceKey small_sifted)
  /\ length (SiftedKey.Indices small_sifted) = length (SiftedKey.AliceKey small_sifted).
Proof.
  apply (noiseless_sifted_keys_agree small_protocol
           (AliceSession.mk (repeat 0 64) (repeat 0 64) (repeat (mkQubit 0 0) 64) [])
           (BobSession.mk (repeat 0 64) (repeat (mkMeasurementResult 0 0) 64) [])
           small_sifted small_world (flat_world 64 0 4 0%float) small_world_sifted).
  - reflexivity.
  - vm_compute. reflexivity.
  - vm_compute. reflexivity.
  - vm_compute. reflexivity.
Defined.

End SimulatorFacts.

(** ** Results of the BB84 driver *)

Module ExchangeFacts.
Import Quantum Crypto BB84 Scenarios GoFacts.

Lemma zero_div_float (x : float) :
  Prim2SF (float64_of_int 0 / x)%float = S754_nan
  \/ exists s, Prim2SF (float64_of_int 0 / x)%float = S754_zero s.
Proof.
  rewrite div_spec. change (Prim2SF (float64_of_int 0)) with (S754_zero false).
  destruct (Prim2SF x) as [s|s| |s m e]; cbn; eauto.
Qed.

Lemma ltb_zero_or_nan (t q : float) :
  (t <? 0)%float = false ->
  Prim2SF q = S754_nan \/ (exists s, Prim2SF q = S754_zero s) ->
  (t <? q)%float = false.
Proof.
  rewrite !ltb_spec. change (Prim2SF 0) with (S754_zero false).
  intros Ht [-> | [s ->]].
  - unfold SFltb, SFcompare. by destruct (Prim2SF t).
  - revert Ht. unfold SFltb, SFcompare. by destruct (Prim2SF t).
Qed.

Section Protocol.
Context {B : Type} `{QuantumBackend B}.

Lemma EstimateQBER_errors_equal_keys (sifted : SiftedKey.t) (idxs : list Z) :
  forall errors out,
  SiftedKey.BobKey sifted = SiftedKey.AliceKey sifted ->
  EstimateQBER_errors sifted idxs errors = Ok out -> out = errors.
Proof.
  induction idxs as [|idx idxs IH]; intros errors out Heq; cbn [EstimateQBER_errors].
  - by intros [= <-].
  - rewrite Heq.
    destruct (index (SiftedKey.AliceKey sifted) idx) as [a| | |]; try done.
    cbn [mbind res_bind]. rewrite Z.eqb_refl. cbn [negb]. by apply IH.
Qed.

Lemma EstimateQBER_equal_keys (bb : @BB84Protocol B) (sifted : SiftedKey.t)
  (w w' : World) (qber : float) :
  SiftedKey.BobKey sifted = SiftedKey.AliceKey sifted ->
  EstimateQBER bb sifted w = (Ok qber, w') ->
  Prim2SF qber = S754_nan \/ exists s, Prim2SF qber = S754_zero s.
Proof.
  intros Heq. unfold EstimateQBER.
  destruct (_ =? 0); [done|].
  unfold bind at 1.
  destruct (EstimateQBER_sample _ _ _ _ w) as [[sampled| | |] w1]; try done.
  unfold bind at 1. unfold lift at 1.
  destruct (EstimateQBER_errors _ _ _) as [errors| | |] eqn:Herr; try done.
  apply EstimateQBER_errors_equal_keys in Herr; [|done]. subst errors.
  unfold ret. intros [= <- <-]. apply zero_div_float.
Qed.

Lemma RemoveSampledBits_loop_spec (sifted : SiftedKey.t) (toRemove : gset Z)
  (positions : list nat) : forall newSifted out : SiftedKey.t,
  RemoveSampledBits_loop sifted toRemove positions newSifted = Ok out ->
  (SiftedKey.BobKey sifted = SiftedKey.AliceKey sifted ->
   SiftedKey.BobKey newSifted = SiftedKey.AliceKey newSifted ->
   SiftedKey.BobKey out = SiftedKey.AliceKey out)
  /\ (length (SiftedKey.AliceKey out)
      <= length (SiftedKey.AliceKey newSifted) + length positions)%nat
  /\ (length (SiftedKey.BobKey newSifted) = length (SiftedKey.AliceKey newSifted) ->
      length (SiftedKey.BobKey out) = length (SiftedKey.AliceKey out)).
Proof.
  induction positions as [|i positions IH]; intros newSifted out;
    cbn [RemoveSampledBits_loop].
  - intros [= <-]. cbn. split; [auto|]. split; [lia|auto].
  - destruct (negb _).
    + destruct (index (SiftedKey.AliceKey sifted) _) as [a| | |] eqn:Ha; try done.
      destruct (index (SiftedKey.BobKey sifted) _) as [b| | |] eqn:Hb; try done.
      destruct (index (SiftedKey.Indices sifted) _) as [k| | |]; try done.
      cbn [mbind res_bind]. intros Hout.
      destruct (IH _ _ Hout) as (Hsame & Hlen & Hlens).
      cbn [SiftedKey.AliceKey SiftedKey.BobKey length] in *.
      split; [|split].
      * intros Hs Hn. apply Hsame; [done|].
        rewrite Hs, Ha in Hb. injection Hb as <-. by rewrite Hn.
      * rewrite length_app in Hlen. cbn in Hlen. lia.
      * intros Hn. apply Hlens. rewrite !length_app. cbn. lia.
    + intros Hout. destruct (IH _ _ Hout) as (Hsame & Hlen & Hlens).
      split; [done|]. split; [cbn; lia|done].
Qed.

Lemma keys_match_refl (key : list Bit) : keys_match key key = true.
Proof.
  induction key as [|a key IH]; [done|]. cbn. by rewrite Z.eqb_refl.
Qed.

Lemma slice_prefix_length {A} (l out : list A) (n : Z) :
  slice l 0 n = Ok out -> Z.of_nat (length out) = n.
Proof.
  intros Hs. pose proof (slice_Ok_inv _ _ _ _ Hs) as [? ?].
  revert Hs. unfold slice. destruct (_ && _); [|done]. intros [= <-].
  rewrite length_take, length_drop. lia.
Qed.

(** X14: the shape of a result of [PerformKeyExchange].  A result that is
    not secure carries no key material and a final length of 0.  A secure
    result has exactly the requested [keyLength] bits packed into
    [(keyLength + 7) / 8] bytes, taken from a sifted key at least that
    long, and its QBER does not exceed the threshold. *)
Theorem PerformKeyExchange_result_shape (bb : @BB84Protocol B) (w w' : World)
  (result : KeyExchangeResult.t) :
  PerformKeyExchange bb w = (Ok result, w') ->
  0 < KeyExchangeResult.RawKeyLength result
  /\ (KeyExchangeResult.Secure result = false ->
      KeyExchangeResult.Key result = [] /\ KeyExchangeResult.FinalKeyLength result = 0)
  /\ (KeyExchangeResult.Secure result = true ->
      KeyExchangeResult.FinalKeyLength result = keyLength bb
      /\ Z.of_nat (length (KeyExchangeResult.Key result)) = (keyLength bb + 7) / 8
      /\ 0 <= keyLength bb <= KeyExchangeResult.RawKeyLength result
      /\ (qberThreshold bb <? KeyExchangeResult.QBER result)%float = false).
Proof.
  unfold PerformKeyExchange.
  unfold bind at 1. unfold try_wrap at 1.
  destruct (AliceGenerateQubits bb w) as [[alice| | |] w1]; try done.
  unfold bind at 1. unfold try_wrap at 1.
  destruct (BobMeasureQubits bb _ w1) as [[bob| | |] w2]; try done.
  unfold bind at 1. unfold try_wrap at 1. unfold lift at 1.
  destruct (BasisReconciliation bb alice bob) as [sifted| | |]; try done.
  destruct (Z.eqb_spec (Z.of_nat (length (SiftedKey.AliceKey sifted))) 0) as [|Hraw]; [done|].
  unfold bind at 1. unfold try_wrap at 1.
  destruct (EstimateQBER bb sifted w2) as [[qber| | |] w3]; try done.
  destruct (qberThreshold bb <? qber)%float eqn:Hq.
  { unfold ret. intros [= <- <-]. cbn. split; [lia|]. split; done. }
  unfold bind at 1.
  destruct (removal_indices bb sifted w3) as [[sampled| | |] w4]; try done.
  unfold bind at 1. unfold lift at 1.
  destruct (RemoveSampledBits bb sifted sampled) as [final| | |] eqn:Hfinal; try done.
  destruct (Z.ltb_spec (Z.of_nat (length (SiftedKey.AliceKey final))) (keyLength bb)) as [|Hlen].
  { unfold ret. intros [= <- <-]. cbn. split; [lia|]. split; done. }
  unfold bind at 1. unfold lift at 1.
  destruct (slice (SiftedKey.AliceKey final) 0 (keyLength bb)) as [aliceKey| | |] eqn:Ha;
    try done.
  unfold bind at 1. unfold lift at 1.
  destruct (slice (SiftedKey.BobKey final) 0 (keyLength bb)) as [bobKey| | |]; try done.
  destruct (negb _).
  { unfold ret. intros [= <- <-]. cbn. split; [lia|]. split; done. }
  unfold ret. intros [= <- <-]. cbn.
  split; [lia|]. split; [done|]. intros _.
  pose proof (slice_prefix_length _ _ _ Ha) as Hk.
  unfold RemoveSampledBits in Hfinal.
  apply RemoveSampledBits_loop_spec in Hfinal as (_ & Hle & _).
  rewrite length_seq in Hle. cbn in Hle.
  split; [done|]. split; [|split; [lia|done]].
  rewrite PackingFacts.BitsToBytes_length, Nat2Z.inj_div, Nat2Z.inj_add, Hk. done.
Qed.

End Protocol.

(** X15: over a simulator that does not simulate noise, and with a
    threshold that is not negative, [PerformKeyExchange] never reports
    eavesdropping or a key mismatch: the QBER it computes does not exceed
    the threshold, and a result is either secure or short of key
    material. *)
Theorem noiseless_exchange_not_insecure (bb : @BB84Protocol SimulatorBackend)
  (w w' : World) (result : KeyExchangeResult.t) :
  simulateNoise (backend bb) = false ->
  (qberThreshold bb <? 0)%float = false ->
  PerformKeyExchange bb w = (Ok result, w') ->
  (qberThreshold bb <? KeyExchangeResult.QBER result)%float = false
  /\ (KeyExchangeResult.Secure result = true
      \/ exists got,
           got < keyLength bb
           /\ KeyExchangeResult.Message result
              = Sprintf "Insufficient key material: got %d bits, need %d bits"
                  [AInt got; AInt (keyLength bb)]).
Proof.
  intros Hnoise Hthreshold.
  unfold PerformKeyExchange.
  unfold bind at 1. unfold try_wrap at 1.
  destruct (AliceGenerateQubits bb w) as [[alice| | |] w1] eqn:Halice; try done.
  unfold bind at 1. unfold try_wrap at 1.
  destruct (BobMeasureQubits bb _ w1) as [[bob| | |] w2] eqn:Hbob; try done.
  unfold bind at 1. unfold try_wrap at 1. unfold lift at 1.
  destruct (BasisReconciliation bb alice bob) as [sifted| | |] eqn:Hsift; try done.
  destruct (SimulatorFacts.noiseless_sifting bb alice bob sifted w w1 w2
              Hnoise Halice Hbob Hsift) as (Hsame & _ & _).
  destruct (Z.eqb_spec (Z.of_nat (length (SiftedKey.AliceKey sifted))) 0) as [|Hraw]; [done|].
  unfold bind at 1. unfold try_wrap at 1.
  destruct (EstimateQBER bb sifted w2) as [[qber| | |] w3] eqn:Hqber; try done.
  apply EstimateQBER_equal_keys in Hqber; [|done].
  rewrite (ltb_zero_or_nan _ _ Hthreshold Hqber).
  unfold bind at 1.
  destruct (removal_indices bb sifted w3) as [[sampled| | |] w4]; try done.
  unfold bind at 1. unfold lift at 1.
  destruct (RemoveSampledBits bb sifted sampled) as [final| | |] eqn:Hfinal; try done.
  unfold RemoveSampledBits in Hfinal.
  apply RemoveSampledBits_loop_spec in Hfinal as (Hfsame & _ & _).
  specialize (Hfsame Hsame eq_refl).
  destruct (Z.ltb_spec (Z.of_nat (length (SiftedKey.AliceKey final))) (keyLength bb)) as [Hshort|Hlen].
  { unfold ret. intros [= <- <-]. cbn. split; [by apply ltb_zero_or_nan|].
    right. eexists. split; [exact Hshort|done]. }
  unfold bind at 1. unfold lift at 1. rewrite Hfsame.
  destruct (slice (SiftedKey.AliceKey final) 0 (keyLength bb)) as [aliceKey| | |] eqn:Ha;
    try done.
  unfold bind at 1. unfold lift at 1.
  rewrite keys_match_refl. cbn [negb].
  unfold ret. intros [= <- <-]. cbn. split; [by apply ltb_zero_or_nan|by left].
Qed.

Import Quantum Crypto BB84 Session Scenarios.

Lemma PerformKeyExchange_result_shape_witness :
  Z.of_nat (length [0; 0]) = (keyLength small_protocol + 7) / 8
  /\ 0 <= keyLength small_protocol <= 64.
Proof.
  destruct (PerformKeyExchange_result_shape small_protocol small_world
              small_world_sampled
              (KeyExchangeResult.mk [0; 0] 64 16 0%float true
                 (Sprintf "Secure key generated successfully! QBER: %.2f%%" [AFloat 0%float])))
    as (_ & _ & Hsecure); [vm_compute; reflexivity|].
  destruct (Hsecure eq_refl) as (_ & Hbytes & Hlen & _).
  split; [exact Hbytes|exact Hlen].
Defined.

Lemma noiseless_exchange_not_insecure_witness :
  (qberThreshold small_protocol <? 0)%float = false.
Proof.
  refine (proj1 (noiseless_exchange_not_insecure small_protocol small_world
                   small_world_sampled
                   (KeyExchangeResult.mk [0; 0] 64 16 0%float true
                      (Sprintf "Secure key generated successfully! QBER: %.2f%%"
                         [AFloat 0%float])) _ _ _)).
  - reflexivity.
  - reflexivity.
  - vm_compute. reflexivity.
Defined.

End ExchangeFacts.

(** ** The channel and the simulator round trip *)

Module ChannelFacts.
Import Quantum Crypto BB84 GoFacts.

Lemma flip_flip (b : Bit) : is_bit b -> flip (flip b) = b.
Proof. by intros [-> | ->]. Qed.

(** X21: the channel never changes the basis of a qubit, and the value of
    a qubit that carries a bit comes out unchanged or flipped.  A
    transmission that returns draws two or three numbers from
    [rand.Float64] and at most one from [rand.Intn]. *)
Theorem Transmit_keeps_basis (qc : QuantumChannel) (qubit out : Qubit) (w w' : World) :
  is_bit (ClassicalValue qubit) ->
  Transmit qc qubit w = (Ok out, w') ->
  PreparationBasis out = PreparationBasis qubit
  /\ (ClassicalValue out = ClassicalValue qubit
      \/ ClassicalValue out = flip (ClassicalValue qubit))
  /\ (exists used, (2 <= length used <= 3)%nat /\ mathFloats w = used ++ mathFloats w')
  /\ (mathInts w' = mathInts w \/ exists r, mathInts w = r :: mathInts w').
Proof.
  intros Hbit. unfold Transmit.
  unfold bind at 1. unfold rand_Float64 at 1.
  destruct (mathFloats w) as [|r1 fs] eqn:Hfs; [done|].
  destruct (r1 <? InterceptProbability qc)%float.
  - unfold bind at 1. unfold bind at 1. unfold rand_Intn2. cbn [mathInts].
    destruct (mathInts w) as [|i is_] eqn:His; [done|].
    destruct (negb _).
    + unfold bind at 1. unfold rand_Float64 at 1. cbn [mathFloats].
      destruct fs as [|r2 fs]; [done|].
      unfold ret at 1. unfold bind at 1. unfold rand_Float64. cbn [mathFloats].
      destruct fs as [|r3 fs]; [done|].
      unfold ret. intros [= <- <-]. cbn [mathFloats mathInts].
      split; [by destruct (r3 <? _)%float, (r2 <? _)%float|].
      split.
      * destruct (r3 <? _)%float, (r2 <? _)%float; cbn; rewrite ?flip_flip by done; auto.
      * split; [exists [r1; r2; r3]; cbn; split; [lia|done]|right; by exists i].
    + unfold ret at 1. unfold bind at 1. unfold rand_Float64. cbn [mathFloats].
      destruct fs as [|r3 fs]; [done|].
      unfold ret. intros [= <- <-]. cbn [mathFloats mathInts].
      split; [by destruct (r3 <? _)%float|].
      split; [destruct (r3 <? _)%float; cbn; auto|].
      split; [exists [r1; r3]; cbn; split; [lia|done]|right; by exists i].
  - unfold ret at 1. unfold bind at 1. unfold rand_Float64. cbn [mathFloats].
    destruct fs as [|r3 fs]; [done|].
    unfold ret. intros [= <- <-]. cbn [mathFloats mathInts].
    split; [by destruct (r3 <? _)%float|].
    split; [destruct (r3 <? _)%float; cbn; auto|].
    split; [exists [r1; r3]; cbn; split; [lia|done]|by left].
Qed.

Lemma Simulator_measure_same_bases (bits : list Bit) : forall (bases : list Basis) (w : World),
  Simulator_measure (zip_with PrepareQubit bits bases) bases w
  = (Ok (zip_with mkMeasurementResult bits bases), w).
Proof.
  induction bits as [|bit bits IH]; intros [|basis bases] w; try done.
  cbn [zip_with Simulator_measure].
  unfold bind at 1. unfold MeasureQubit. cbn [PrepareQubit PreparationBasis ClassicalValue].
  rewrite Z.eqb_refl. cbn [negb]. unfold bind at 1. unfold ret at 1 2.
  unfold bind at 1. rewrite IH. done.
Qed.

(** X22: the noise-free simulator is a faithful channel.  Qubits prepared
    by [PrepareAndSend] and measured by [ReceiveAndMeasure] in the bases
    they were prepared in give back the bits sent, and neither call
    consumes randomness; slices of different lengths are refused. *)
Theorem Simulator_round_trip (s : SimulatorBackend) (bits : list Bit) (bases : list Basis)
  (w : World) :
  simulateNoise s = false ->
  (length bits = length bases ->
   exists qubits measurements,
     PrepareAndSend s bits bases w = (Ok qubits, w)
     /\ ReceiveAndMeasure s qubits bases w = (Ok measurements, w)
     /\ map MeasuredBit measurements = bits
     /\ map MeasurementBasis measurements = bases)
  /\ (length bits <> length bases ->
      PrepareAndSend s bits bases w
      = (Err (Sprintf "bits and bases must have the same length" []), w)).
Proof.
  intros Hnoise. cbn [PrepareAndSend ReceiveAndMeasure SimulatorBackend_QuantumBackend].
  unfold Simulator_PrepareAndSend, Simulator_ReceiveAndMeasure.
  split.
  - intros Hlen. rewrite Hlen, Nat.eqb_refl. cbn [negb].
    rewrite SimulatorFacts.Simulator_prepare_noiseless by done.
    eexists _, _. split; [reflexivity|].
    rewrite length_zip_with, Hlen, Nat.min_id, Nat.eqb_refl. cbn [negb].
    rewrite Simulator_measure_same_bases. split; [reflexivity|].
    clear Hnoise. revert bases Hlen.
    induction bits as [|bit bits IH]; intros [|basis bases] Hlen; try done.
    cbn [zip_with map MeasuredBit MeasurementBasis].
    destruct (IH bases) as [-> ->]; [by injection Hlen|done].
  - intros Hlen. by destruct (Nat.eqb_spec (length bits) (length bases)).
Qed.

Import Quantum Crypto BB84 Session Scenarios.

Lemma Transmit_keeps_basis_witness :
  Transmit (NewQuantumChannel 0.5 0.5) (mkQubit 1 0)
    (mkWorld [1] [0.1; 0.2; 0.9]%float [] [] [])
  = (Ok (mkQubit 0 0), mkWorld [] [] [] [] [])
  /\ PreparationBasis (mkQubit 0 0) = PreparationBasis (mkQubit 1 0).
Proof.
  assert (Transmit (NewQuantumChannel 0.5 0.5) (mkQubit 1 0)
            (mkWorld [1] [0.1; 0.2; 0.9]%float [] [] [])
          = (Ok (mkQubit 0 0), mkWorld [] [] [] [] [])) as Hrun
    by (vm_compute; reflexivity).
  split; [exact Hrun|].
  refine (proj1 (Transmit_keeps_basis (NewQuantumChannel 0.5 0.5)
                   (mkQubit 1 0) (mkQubit 0 0)
                   (mkWorld [1] [0.1; 0.2; 0.9]%float [] [] [])
                   (mkWorld [] [] [] [] []) _ Hrun)).
  by right.
Defined.

Lemma Simulator_round_trip_witness :
  exists qubits measurements,
    PrepareAndSend quiet_backend [1; 0] [0; 1] quiet_world = (Ok qubits, quiet_world)
    /\ ReceiveAndMeasure quiet_backend qubits [0; 1] quiet_world
       = (Ok measurements, quiet_world)
    /\ map MeasuredBit measurements = [1; 0]
    /\ map MeasurementBasis measurements = [0; 1].
Proof.
  exact (proj1 (Simulator_round_trip quiet_backend [1; 0] [0; 1] quiet_world
                  eq_refl) eq_refl).
Defined.

End ChannelFacts.

(** ** Sampling for the QBER estimate *)

Module SamplingFacts.
Import Quantum Crypto BB84 GoFacts.

Lemma cryptoRandInt_range (n : Z) (w w' : World) (v : Z) :
  cryptoRandInt n w = (Ok v, w') -> 0 <= v < n.
Proof.
  unfold cryptoRandInt. destruct (Z.leb_spec n 0); [done|].
  destruct (cryptoInts w) as [|[r|] rest]; try done.
  intros [= <- <-]. apply Z.mod_pos_bound. lia.
Qed.

Lemma cryptoRandInt_no_panic (n : Z) (w w' : World) (p : panic) :
  cryptoRandInt n w <> (Panic p, w').
Proof.
  unfold cryptoRandInt, fail. destruct (n <=? 0); [done|].
  destruct (cryptoInts w) as [|[r|] rest]; done.
Qed.

Lemma size_add (idx : Z) (S : gset Z) :
  (size S <= size ({[ idx ]} ∪ S) <= size S + 1)%nat.
Proof.
  destruct (decide (idx ∈ S)) as [Hin|Hnot].
  - rewrite (subseteq_union_1_L {[idx]} S) by (by apply singleton_subseteq_l). lia.
  - rewrite size_union, size_singleton by (by apply disjoint_singleton_l). lia.
Qed.

Lemma EstimateQBER_sample_spec (n sampleCount : Z) :
  forall fuel (S : gset Z) (w w' : World) (r : res (gset Z)),
    Z.of_nat (size S) <= sampleCount ->
    (forall i, i ∈ S -> 0 <= i < n) ->
    EstimateQBER_sample fuel n sampleCount S w = (r, w') ->
    (forall p, r <> Panic p)
    /\ forall S', r = Ok S' ->
         Z.of_nat (size S') = sampleCount /\ (forall i, i ∈ S' -> 0 <= i < n).
Proof.
  induction fuel as [|fuel IH]; intros S w w' r Hsize Hrange; cbn [EstimateQBER_sample].
  - destruct (Z.ltb_spec (Z.of_nat (size S)) sampleCount).
    + unfold lift. intros [= <- <-]. split; [done|]. by intros S'.
    + unfold ret. intros [= <- <-]. split; [done|]. intros S' [= <-]. split; [lia|done].
  - destruct (Z.ltb_spec (Z.of_nat (size S)) sampleCount).
    + unfold bind at 1.
      destruct (cryptoRandInt n w) as [[idx|e|p|] w1] eqn:Hdraw.
      * apply cryptoRandInt_range in Hdraw.
        apply IH.
        -- pose proof (size_add idx S). lia.
        -- intros i [->%elem_of_singleton|Hi]%elem_of_union; [done|by apply Hrange].
      * intros [= <- <-]. split; [done|]. by intros S'.
      * by apply cryptoRandInt_no_panic in Hdraw.
      * intros [= <- <-]. split; [done|]. by intros S'.
    + unfold ret. intros [= <- <-]. split; [done|]. intros S' [= <-]. split; [lia|done].
Qed.

Lemma EstimateQBER_errors_count (sifted : SiftedKey.t) (idxs : list Z) :
  forall errors,
  length (SiftedKey.BobKey sifted) = length (SiftedKey.AliceKey sifted) ->
  (forall i, i ∈ idxs -> 0 <= i < Z.of_nat (length (SiftedKey.AliceKey sifted))) ->
  EstimateQBER_errors sifted idxs errors
  = Ok (errors
        + Z.of_nat (length (filter (fun i => nth (Z.to_nat i) (SiftedKey.AliceKey sifted) 0
                                             <> nth (Z.to_nat i) (SiftedKey.BobKey sifted) 0)
                              idxs))).
Proof.
  induction idxs as [|idx idxs IH]; intros errors Hlen Hrange; cbn [EstimateQBER_errors].
  - cbn. by rewrite Z.add_0_r.
  - assert (0 <= idx < Z.of_nat (length (SiftedKey.AliceKey sifted))) as Hidx
      by (apply Hrange; left).
    destruct (Z_of_nat_complete idx) as [k ->]; [lia|].
    rewrite (SiftingFacts.index_nth (SiftedKey.AliceKey sifted) _ 0) by lia.
    rewrite (SiftingFacts.index_nth (SiftedKey.BobKey sifted) _ 0) by lia.
    cbn [mbind res_bind]. rewrite IH; [|done|intros i Hi; apply Hrange; by right].
    rewrite filter_cons, Nat2Z.id.
    destruct (Z.eqb_spec (nth k (SiftedKey.AliceKey sifted) 0)
                (nth k (SiftedKey.BobKey sifted) 0)) as [Heq|Hne]; cbn [negb].
    + by rewrite decide_False by (by intros ?).
    + rewrite decide_True by done. cbn [length]. f_equal. lia.
Qed.

Section Protocol.
Context {B : Type} `{QuantumBackend B}.

(** X23: [EstimateQBER] never panics on a sifted key whose two halves have
    the same length.  When it returns a rate, that rate is the number of
    mismatches over a set of exactly [sampleCount] distinct positions of
    the key, divided by [sampleCount], where [sampleCount] is
    [int(n * sampleSize)] clamped to 1..n. *)
Theorem EstimateQBER_samples_distinct_positions (bb : @BB84Protocol B)
  (sifted : SiftedKey.t) (w w' : World) (r : res float) :
  length (SiftedKey.BobKey sifted) = length (SiftedKey.AliceKey sifted) ->
  EstimateQBER bb sifted w = (r, w') ->
  (forall p, r <> Panic p)
  /\ forall qber, r = Ok qber ->
       exists sampled : gset Z,
         Z.of_nat (size sampled)
         = Z.min (Z.of_nat (length (SiftedKey.AliceKey sifted)))
             (Z.max 1 (int_of_float64
                         (float64_of_int (Z.of_nat (length (SiftedKey.AliceKey sifted)))
                          * sampleSize bb)%float))
         /\ (forall i, i ∈ sampled ->
                       0 <= i < Z.of_nat (length (SiftedKey.AliceKey sifted)))
         /\ qber
            = (float64_of_int
                 (Z.of_nat (length (filter
                    (fun i => nth (Z.to_nat i) (SiftedKey.AliceKey sifted) 0%Z
                              <> nth (Z.to_nat i) (SiftedKey.BobKey sifted) 0%Z)
                    (elements sampled))))
               / float64_of_int (Z.of_nat (size sampled)))%float.
Proof.
  intros Hlen. unfold EstimateQBER.
  set (n := Z.of_nat (length (SiftedKey.AliceKey sifted))).
  destruct (Z.eqb_spec n 0) as [|Hn].
  { unfold fail. intros [= <- <-]. split; [done|]. by intros qber. }
  set (raw := int_of_float64 _).
  set (sc := if (if raw <? 1 then 1 else raw) >? n then n else if raw <? 1 then 1 else raw).
  assert (sc = Z.min n (Z.max 1 raw)) as Hsc.
  { subst sc. destruct (Z.ltb_spec raw 1);
      [destruct (Z.gtb_spec 1 n)|destruct (Z.gtb_spec raw n)]; lia. }
  assert (Z.of_nat (size (∅ : gset Z)) <= sc) as Hsize0 by (rewrite size_empty; lia).
  assert (forall i, i ∈ (∅ : gset Z) -> 0 <= i < n) as Hrange0
    by (intros i Hi; by apply not_elem_of_empty in Hi).
  unfold bind at 1.
  destruct (EstimateQBER_sample _ n sc ∅ w) as [[sampled|e|p|] w1] eqn:Hsample.
  - destruct (EstimateQBER_sample_spec n sc _ ∅ w w1 _ Hsize0 Hrange0 Hsample) as [_ Hset].
    destruct (Hset sampled eq_refl) as [Hsize Hrange].
    unfold bind at 1. unfold lift at 1.
    rewrite EstimateQBER_errors_count;
      [|done|intros i Hi%elem_of_elements; by apply Hrange].
    unfold ret. intros [= <- <-]. split; [done|].
    intros qber [= <-]. exists sampled. rewrite Hsize, <- Hsc, Z.add_0_l. done.
  - intros [= <- <-]. split; [done|]. by intros qber.
  - destruct (EstimateQBER_sample_spec n sc _ ∅ w w1 _ Hsize0 Hrange0 Hsample) as [Hnp _].
    by destruct (Hnp p).
  - intros [= <- <-]. split; [done|]. by intros qber.
Qed.

End Protocol.
Import Quantum Crypto BB84 Session Scenarios.

Lemma EstimateQBER_samples_distinct_positions_witness :
  exists sampled : gset Z,
    Z.of_nat (size sampled) = 1
    /\ (forall i, i ∈ sampled -> 0 <= i < 64).
Proof.
  assert (EstimateQBER small_protocol small_sifted small_world_sifted
          = (Ok 0%float, small_world_sampled)) as Hrun by (vm_compute; reflexivity).
  destruct (proj2 (EstimateQBER_samples_distinct_positions small_protocol
                     small_sifted small_world_sifted small_world_sampled (Ok 0%float)
                     eq_refl Hrun) 0%float eq_refl)
    as (sampled & Hsize & Hrange & _).
  exists sampled. split; [|exact Hrange].
  rewrite Hsize. vm_compute. reflexivity.
Defined.

End SamplingFacts.

(** ** Removing the sampled positions *)

Module RemovalFacts.
Import Quantum Crypto BB84 GoFacts SamplingFacts.

Lemma removal_sample_spec (n sampleCount : Z) :
  forall fuel (sampledMap : gset Z) (sampledIndices out : list Z) (w w' : World),
    NoDup sampledIndices ->
    sampledMap = list_to_set sampledIndices ->
    Z.of_nat (length sampledIndices) <= Z.max 0 sampleCount ->
    (forall i, i ∈ sampledIndices -> 0 <= i < n) ->
    removal_sample fuel n sampleCount sampledMap sampledIndices w = (Ok out, w') ->
    NoDup out
    /\ Z.of_nat (length out) = Z.max 0 sampleCount
    /\ (forall i, i ∈ out -> 0 <= i < n).
Proof.
  induction fuel as [|fuel IH]; intros M l out w w' Hnd HM Hlen Hrange;
    cbn [removal_sample]; rewrite HM, size_list_to_set by done.
  - destruct (Z.ltb_spec (Z.of_nat (length l)) sampleCount); [by unfold lift|].
    unfold ret. intros [= <- <-]. split; [done|]. split; [lia|done].
  - destruct (Z.ltb_spec (Z.of_nat (length l)) sampleCount).
    + unfold bind at 1.
      destruct (cryptoRandInt n w) as [[idx| | |] w1] eqn:Hdraw; try done.
      apply cryptoRandInt_range in Hdraw.
      destruct (decide (idx ∈ (list_to_set l : gset Z))) as [Hin|Hnot].
      * rewrite bool_decide_eq_true_2 by done. cbn [negb]. by apply IH.
      * rewrite bool_decide_eq_false_2 by done. cbn [negb].
        rewrite elem_of_list_to_set in Hnot.
        apply IH.
        -- apply NoDup_app. split; [done|]. split; [|apply NoDup_singleton].
           intros x Hx ->%list_elem_of_singleton. done.
        -- apply leibniz_equiv. rewrite list_to_set_app, list_to_set_singleton.
           apply (comm _).
        -- rewrite length_app. cbn [length]. lia.
        -- intros i [Hi| ->%list_elem_of_singleton]%elem_of_app; [by apply Hrange|done].
    + unfold ret. intros [= <- <-]. split; [done|]. split; [lia|done].
Qed.

Lemma RemoveSampledBits_loop_keeps (sifted : SiftedKey.t) (toRemove : gset Z)
  (positions : list nat) : forall newSifted : SiftedKey.t,
  length (SiftedKey.BobKey sifted) = length (SiftedKey.AliceKey sifted) ->
  length (SiftedKey.Indices sifted) = length (SiftedKey.AliceKey sifted) ->
  Forall (fun i => (i < length (SiftedKey.AliceKey sifted))%nat) positions ->
  RemoveSampledBits_loop sifted toRemove positions newSifted
  = Ok (SiftedKey.mk
          (SiftedKey.AliceKey newSifted
           ++ map (fun i => nth i (SiftedKey.AliceKey sifted) 0)
                (filter (fun i => Z.of_nat i ∉ toRemove) positions))
          (SiftedKey.BobKey newSifted
           ++ map (fun i => nth i (SiftedKey.BobKey sifted) 0)
                (filter (fun i => Z.of_nat i ∉ toRemove) positions))
          (SiftedKey.Indices newSifted
           ++ map (fun i => nth i (SiftedKey.Indices sifted) 0)
                (filter (fun i => Z.of_nat i ∉ toRemove) positions))).
Proof.
  intros newSifted Hb Hi Hpos. revert newSifted.
  induction Hpos as [|i positions Hlt Hpos IH]; intros newSifted.
  - cbn. rewrite !app_nil_r. by destruct newSifted.
  - cbn [RemoveSampledBits_loop]. rewrite filter_cons.
    destruct (decide (Z.of_nat i ∈ toRemove)) as [Hin|Hnot].
    + rewrite bool_decide_eq_true_2 by done. cbn [negb].
      rewrite decide_False by (by intros ?). apply IH.
    + rewrite bool_decide_eq_false_2 by done. cbn [negb].
      rewrite decide_True by done.
      rewrite (SiftingFacts.index_nth (SiftedKey.AliceKey sifted) i 0) by lia.
      rewrite (SiftingFacts.index_nth (SiftedKey.BobKey sifted) i 0) by lia.
      rewrite (SiftingFacts.index_nth (SiftedKey.Indices sifted) i 0) by lia.
      cbn [mbind res_bind]. rewrite IH.
      cbn [SiftedKey.AliceKey SiftedKey.BobKey SiftedKey.Indices map].
      by rewrite <- !app_assoc.
Qed.

Lemma kept_length (l : list Z) (n : nat) :
  NoDup l ->
  (forall i, i ∈ l -> 0 <= i < Z.of_nat n) ->
  (length (filter (fun i : nat => Z.of_nat i ∉ (list_to_set l : gset Z)) (seq 0 n))
   + length l = n)%nat.
Proof.
  intros Hnd Hrange.
  pose proof (filter_app_complement
                (fun i : nat => Z.of_nat i ∈ (list_to_set l : gset Z)) (seq 0 n)) as Hsplit.
  apply Permutation_length in Hsplit. rewrite length_app, length_seq in Hsplit.
  assert (length (filter (fun i : nat => Z.of_nat i ∈ (list_to_set l : gset Z)) (seq 0 n))
          = length l) as Hsame.
  { rewrite <- (length_fmap Z.of_nat). apply Permutation_length.
    apply NoDup_Permutation; [|done|].
    - apply NoDup_fmap_2; [apply Nat2Z.inj'|]. apply NoDup_filter, NoDup_seq.
    - intros x. rewrite list_elem_of_fmap. split.
      + intros (i & -> & [Hi _]%list_elem_of_filter). by apply elem_of_list_to_set in Hi.
      + intros Hx. specialize (Hrange x Hx). exists (Z.to_nat x).
        split; [lia|]. apply list_elem_of_filter. split.
        * rewrite Z2Nat.id by lia. by apply elem_of_list_to_set.
        * apply elem_of_seq. lia. }
  lia.
Qed.

Section Protocol.
Context {B : Type} `{QuantumBackend B}.

(** X24: step 6 of the exchange removes exactly [int(n * sampleSize)]
    positions (none when that number is not positive).  The indices drawn
    by the removal step are distinct positions of the sifted key, and
    [RemoveSampledBits] returns the key without them, in order: the three
    slices of the result have [n - int(n * sampleSize)] entries each. *)
Theorem removal_accounting (bb : @BB84Protocol B) (sifted : SiftedKey.t)
  (sampledIndices : list Z) (w w' : World) :
  length (SiftedKey.BobKey sifted) = length (SiftedKey.AliceKey sifted) ->
  length (SiftedKey.Indices sifted) = length (SiftedKey.AliceKey sifted) ->
  removal_indices bb sifted w = (Ok sampledIndices, w') ->
  NoDup sampledIndices
  /\ (forall i, i ∈ sampledIndices ->
                0 <= i < Z.of_nat (length (SiftedKey.AliceKey sifted)))
  /\ Z.of_nat (length sampledIndices)
     = Z.max 0 (int_of_float64
                  (float64_of_int (Z.of_nat (length (SiftedKey.AliceKey sifted)))
                   * sampleSize bb)%float)
  /\ exists final,
       RemoveSampledBits bb sifted sampledIndices = Ok final
       /\ SiftedKey.AliceKey final
          = map (fun i => nth i (SiftedKey.AliceKey sifted) 0)
              (filter (fun i => Z.of_nat i ∉ sampledIndices)
                 (seq 0 (length (SiftedKey.AliceKey sifted))))
       /\ SiftedKey.BobKey final
          = map (fun i => nth i (SiftedKey.BobKey sifted) 0)
              (filter (fun i => Z.of_nat i ∉ sampledIndices)
                 (seq 0 (length (SiftedKey.AliceKey sifted))))
       /\ (length (SiftedKey.AliceKey final) + length sampledIndices
           = length (SiftedKey.AliceKey sifted))%nat
       /\ length (SiftedKey.BobKey final) = length (SiftedKey.AliceKey final)
       /\ length (SiftedKey.Indices final) = length (SiftedKey.AliceKey final).
Proof.
  intros Hb Hi. unfold removal_indices. intros Hdraw.
  apply removal_sample_spec in Hdraw as (Hnd & Hlen & Hrange);
    [|apply NoDup_nil_2|done|cbn; lia|by intros i Hi'%elem_of_nil].
  split; [done|]. split; [done|]. split; [done|].
  unfold RemoveSampledBits.
  rewrite RemoveSampledBits_loop_keeps;
    [|done|done|apply Forall_forall; intros i Hi'%elem_of_seq; lia].
  eexists. split; [reflexivity|].
  cbn [SiftedKey.AliceKey SiftedKey.BobKey SiftedKey.Indices app].
  pose proof (kept_length sampledIndices (length (SiftedKey.AliceKey sifted)) Hnd Hrange)
    as Hkept.
  assert (filter (fun i : nat => Z.of_nat i ∉ (list_to_set sampledIndices : gset Z))
            (seq 0 (length (SiftedKey.AliceKey sifted)))
          = filter (fun i : nat => Z.of_nat i ∉ sampledIndices)
              (seq 0 (length (SiftedKey.AliceKey sifted)))) as Hfilter.
  { apply list_filter_iff. intros i. by rewrite elem_of_list_to_set. }
  rewrite Hfilter in *.
  rewrite !length_map. repeat split; done.
Qed.

End Protocol.
Import Quantum Crypto BB84 Session Scenarios.

Lemma removal_accounting_witness :
  NoDup [0; 1; 2; 3; 4; 5]
  /\ (forall i, i ∈ [0; 1; 2; 3; 4; 5] ->
                0 <= i < Z.of_nat (length (SiftedKey.AliceKey small_sifted))).
Proof.
  destruct (removal_accounting (NewBB84Protocol quiet_backend 16) small_sifted
              [0; 1; 2; 3; 4; 5] (flat_world 0 0 6 0%float)
              (mkWorld [] [] [] [7; 8; 9]%positive [100; 200; 300; 400; 500; 600]))
    as (Hnd & Hrange & _); [reflexivity|reflexivity|vm_compute; reflexivity|].
  split; [exact Hnd|exact Hrange].
Defined.

End RemovalFacts.

(** ** Cascade on arbitrary keys *)

Module CascadeSafety.
Import Quantum Crypto GoFacts CascadeFacts.

#[local] Arguments Nat.div : simpl never.
#[local] Arguments Nat.modulo : simpl never.

#[local] Abbreviation seg l s e := (take (e - s) (drop s l)).

(** Position by position, [cur'] holds the value of [cur] or that of [a]. *)
#[local] Abbreviation towards a cur cur' :=
  (forall j : nat, cur' !! j = cur !! j \/ cur' !! j = a !! j).

(** The binary search on a segment whose parities differ ends on a
    position where the keys differ. *)
Lemma binarySearch_loop_odd (a c : list Bit) :
  length a = length c -> 2 * Z.of_nat (length a) <= max_int ->
  forall fuel s e d g,
    (s < e <= length a)%nat -> (e - s <= fuel)%nat ->
    CalculateParity (seg a s e) <> CalculateParity (seg c s e) ->
    exists p k, 0 <= k /\ (s <= p < e)%nat /\ a !! p <> c !! p /\
      binarySearch_loop fuel a c (Z.of_nat s) (Z.of_nat e) d g
      = Ok (Z.of_nat p, d + k, g + k).
Proof.
  intros Hlen Hbound. unfold max_int in Hbound.
  induction fuel as [|fuel IH]; intros s e d g Hse Hfuel Hodd; [lia|].
  cbn [binarySearch_loop].
  rewrite wrap_id by (unfold min_int, max_int; lia).
  destruct (Z.ltb_spec (Z.of_nat s) (Z.of_nat e - 1)) as [Hlt|Hge].
  - rewrite wrap_id by (unfold min_int, max_int; lia).
    rewrite <- Nat2Z.inj_add.
    pose proof (div_nat (s + e) 2 ltac:(lia) ltac:(unfold max_int; lia)) as Hdiv.
    change (Z.of_nat 2) with 2 in Hdiv. rewrite Hdiv. clear Hdiv.
    set (m := ((s + e) / 2)%nat).
    assert (s < m < e)%nat as Hm.
    { subst m. pose proof (Nat.div_mod_eq (s + e) 2).
      pose proof (Nat.mod_upper_bound (s + e) 2 ltac:(lia)). lia. }
    cbn [mbind res_bind].
    rewrite (slice_nat a s m), (slice_nat c s m) by lia.
    cbn [mbind res_bind].
    destruct (Z.eqb_spec (CalculateParity (seg a s m)) (CalculateParity (seg c s m)))
      as [Heq|Hne]; cbn [negb].
    + assert (CalculateParity (seg a m e) <> CalculateParity (seg c m e)) as Hright.
      { intros Heq'. apply Hodd.
        rewrite (seg_split a s m e), (seg_split c s m e) by lia.
        by rewrite !parity_app, Heq, Heq'. }
      destruct (IH m e (d + 1) (g + 1)) as (p & k & Hk & Hp & Hdiff & ->); [lia..|done|].
      exists p, (1 + k). repeat split; try lia; try done. by rewrite !Z.add_assoc.
    + destruct (IH s m (d + 1) (g + 1)) as (p & k & Hk & Hp & Hdiff & ->); [lia..|done|].
      exists p, (1 + k). repeat split; try lia; try done. by rewrite !Z.add_assoc.
  - assert (e = S s) as -> by lia.
    exists s, 0. rewrite !Z.add_0_r. repeat split; try lia; try done.
    destruct (lookup_lt_is_Some_2 a s ltac:(lia)) as [x Hx].
    destruct (lookup_lt_is_Some_2 c s ltac:(lia)) as [y Hy].
    rewrite (seg_single a s x Hx), (seg_single c s y Hy), !parity_single in Hodd.
    congruence.
Qed.

Lemma Correct_block_safe (c : CascadeCorrector) (a cur : list Bit) (d g : Z) (s e : nat) :
  length a = length cur -> 2 * Z.of_nat (length a) <= max_int ->
  Forall is_bit a -> Forall is_bit cur ->
  (s <= e <= length a)%nat ->
  exists cur' d' g',
    Correct_block c a (cur, d, g) (mkBlock (Z.of_nat s) (Z.of_nat e) 0) = Ok (cur', d', g')
    /\ d < d'
    /\ length cur' = length cur /\ Forall is_bit cur'
    /\ towards a cur cur'.
Proof.
  intros Hlen Hbound Ha Hcur Hse.
  unfold Correct_block. cbn [StartIndex EndIndex].
  rewrite (slice_nat a s e), (slice_nat cur s e) by lia.
  cbn [mbind res_bind].
  destruct (Z.eqb_spec (CalculateParity (seg a s e)) (CalculateParity (seg cur s e)))
    as [Heq|Hne]; cbn [negb].
  - cbn. exists cur, (d + 1), (g + 1). repeat split; try done; try lia. by left.
  - assert (s < e)%nat as Hlt.
    { destruct (decide (s < e)%nat); [done|]. exfalso. apply Hne.
      by replace (e - s)%nat with 0%nat by lia. }
    unfold binarySearch.
    destruct (binarySearch_loop_odd a cur Hlen Hbound
                (S (Z.to_nat (Z.of_nat e - Z.of_nat s))) s e 0 0)
      as (p & k & Hk & Hp & Hdiff & ->); [lia..|done|].
    cbn [mbind res_bind].
    destruct (Z.leb_spec 0 (Z.of_nat p)); [|lia].
    destruct (lookup_lt_is_Some_2 a p ltac:(lia)) as [x Hx].
    destruct (lookup_lt_is_Some_2 cur p ltac:(lia)) as [y Hy].
    rewrite (index_nat cur p y Hy). cbn [mbind res_bind].
    rewrite (store_nat cur p (flip y)) by lia. cbn [mbind res_bind].
    assert (flip y = x) as Hflip.
    { apply flip_bit;
        [exact (is_bit_lookup a p x Ha Hx)|exact (is_bit_lookup cur p y Hcur Hy)|congruence]. }
    rewrite Hflip.
    exists (<[p := x]> cur), (d + (0 + k) + 1), (g + 1 + (0 + k)).
    repeat split; try lia.
    + apply length_insert.
    + apply Forall_insert; [done|]. exact (is_bit_lookup a p x Ha Hx).
    + intros j. destruct (decide (j = p)) as [->|Hne'].
      * right. rewrite list_lookup_insert_eq by lia. done.
      * left. by rewrite list_lookup_insert_ne.
Qed.

Lemma Correct_blocks_safe (c : CascadeCorrector) (a : list Bit) (bs : nat) :
  2 * Z.of_nat (length a) <= max_int ->
  Z.of_nat (length a) + Z.of_nat bs <= max_int ->
  Forall is_bit a -> (1 <= bs)%nat ->
  forall cnt i0 cur d g,
    length a = length cur -> Forall is_bit cur ->
    (forall i, (i0 <= i < i0 + cnt)%nat -> (i * bs < length a)%nat) ->
    exists cur' d' g',
      Correct_blocks c a
        (map (fun i => make_block (Z.of_nat (length a)) (Z.of_nat bs) (Z.of_nat i))
             (seq i0 cnt)) (cur, d, g) = Ok (cur', d', g')
      /\ d' = d + Z.of_nat cnt + (g' - g - Z.of_nat cnt) /\ d + Z.of_nat cnt <= d'
      /\ length a = length cur' /\ Forall is_bit cur'
      /\ towards a cur cur'.
Proof.
  intros Hbound Hmax Ha Hbs.
  induction cnt as [|cnt IH]; intros i0 cur d g Hlen Hcur Hin.
  { exists cur, d, g. repeat split; try done; try lia. by left. }
  cbn [seq map Correct_blocks].
  rewrite make_block_nat by (try apply Hin; lia).
  destruct (Correct_block_safe c a cur d g (i0 * bs)
              (Nat.min (i0 * bs + bs) (length a)) Hlen Hbound Ha Hcur)
    as (cur1 & d1 & g1 & Hrun & Hd & Hlen1 & Hcur1 & Hto1).
  { specialize (Hin i0 ltac:(lia)). lia. }
  pose proof (Correct_block_counts _ _ _ _ _ _ _ _ _ Hrun) as [Hdg1 _].
  rewrite Hrun. cbn [mbind res_bind].
  destruct (IH (S i0) cur1 d1 g1) as (cur2 & d2 & g2 & -> & Hdg2 & Hd2 & Hlen2 & Hcur2 & Hto2).
  - congruence.
  - done.
  - intros i Hi. apply Hin. lia.
  - exists cur2, d2, g2. repeat split; try done; try lia.
    intros j. destruct (Hto2 j) as [-> | ->]; [apply Hto1|by right].
Qed.

Lemma Correct_pass_safe (c : CascadeCorrector) (a cur : list Bit) (bs : nat) (d g : Z) :
  2 * Z.of_nat (length a) <= max_int ->
  Z.of_nat (length a) + Z.of_nat bs <= max_int ->
  Forall is_bit a -> Forall is_bit cur -> length a = length cur -> (1 <= bs)%nat ->
  exists cur' d' g',
    Correct_pass c a (Z.of_nat bs) (cur, d, g) = Ok (cur', d', g')
    /\ d + Z.of_nat ((length a + bs - 1) / bs) <= d'
    /\ length a = length cur' /\ Forall is_bit cur'
    /\ towards a cur cur'.
Proof.
  intros Hbound Hmax Ha Hcur Hlen Hbs.
  unfold Correct_pass.
  rewrite <- Nat2Z.inj_add.
  rewrite (wrap_id (Z.of_nat (length a + bs))) by (unfold min_int, max_int in *; lia).
  replace (Z.of_nat (length a + bs) - 1) with (Z.of_nat (length a + bs - 1)) by lia.
  rewrite wrap_id by (unfold min_int, max_int in *; lia).
  rewrite div_nat by (unfold max_int in *; lia).
  cbn [mbind res_bind].
  set (nb := ((length a + bs - 1) / bs)%nat).
  destruct (Z.ltb_spec (Z.of_nat nb) 0); [lia|].
  rewrite Nat2Z.id.
  assert (forall i, (i < nb)%nat -> (i * bs < length a)%nat) as Hin.
  { intros i Hi. subst nb.
    pose proof (Nat.div_mod_eq (length a + bs - 1) bs).
    pose proof (Nat.mod_upper_bound (length a + bs - 1) bs ltac:(lia)). nia. }
  destruct (Correct_blocks_safe c a bs Hbound Hmax Ha Hbs nb 0%nat cur d g Hlen Hcur)
    as (cur' & d' & g' & -> & Hdg & Hd & Hlen' & Hcur' & Hto).
  - intros i Hi. apply Hin. lia.
  - exists cur', d', g'. repeat split; try done.
Qed.

Lemma Correct_passes_safe (c : CascadeCorrector) (a : list Bit) :
  2 * Z.of_nat (length a) <= max_int -> Forall is_bit a ->
  forall k bs cur d g,
    (1 <= bs)%nat ->
    Z.of_nat (length a) + Z.of_nat bs * 2 ^ Z.of_nat k <= max_int ->
    length a = length cur -> Forall is_bit cur ->
    exists cur' d' g',
      Correct_passes c a k (Z.of_nat bs) (cur, d, g) = Ok (cur', d', g')
      /\ d <= d'
      /\ length a = length cur' /\ Forall is_bit cur'
      /\ towards a cur cur'.
Proof.
  intros Hbound Ha.
  induction k as [|k IH]; intros bs cur d g Hbs Hmax Hlen Hcur.
  { exists cur, d, g. repeat split; try done; try lia. by left. }
  rewrite Nat2Z.inj_succ, Z.pow_succ_r in Hmax by lia.
  assert (0 < 2 ^ Z.of_nat k) by (apply Z.pow_pos_nonneg; lia).
  cbn [Correct_passes].
  destruct (Correct_pass_safe c a cur bs d g)
    as (cur1 & d1 & g1 & -> & Hd1 & Hlen1 & Hcur1 & Hto1); try done; [nia|].
  cbn [mbind res_bind].
  replace (Z.of_nat bs * 2) with (Z.of_nat (bs * 2)) by lia.
  rewrite wrap_id by (unfold min_int, max_int in *; nia).
  destruct (IH (bs * 2)%nat cur1 d1 g1)
    as (cur2 & d2 & g2 & -> & Hd2 & Hlen2 & Hcur2 & Hto2); [lia|nia|done..|].
  exists cur2, d2, g2. repeat split; try done; try lia.
  intros j. destruct (Hto2 j) as [-> | ->]; [apply Hto1|by right].
Qed.

(** X16: Cascade never makes Bob's key worse.  For keys of bits of equal
    length, with a positive block size and sizes that fit in an [int],
    [Correct] returns without panic a key of bits of the same length in
    which every position holds Bob's original bit or Alice's bit: a
    position where Bob agreed with Alice still agrees.  The disclosed-bit
    count is not negative. *)
Theorem Cascade_never_adds_errors (c : CascadeCorrector) (alice bob : list Bit) :
  Forall is_bit alice -> Forall is_bit bob ->
  length alice = length bob ->
  0 <= passes c -> 1 <= blockSize c ->
  2 * Z.of_nat (length alice) <= max_int ->
  Z.of_nat (length alice) + blockSize c * 2 ^ passes c <= max_int ->
  exists corrected disclosed,
    Correct c alice bob = Ok (corrected, disclosed)
    /\ 0 <= disclosed
    /\ length corrected = length bob
    /\ Forall is_bit corrected
    /\ (forall j, corrected !! j = bob !! j \/ corrected !! j = alice !! j)
    /\ (forall j, alice !! j = bob !! j -> corrected !! j = alice !! j).
Proof.
  intros Ha Hb Hlen Hpasses Hbs Hbound Hmax.
  unfold Correct, Correct_traced.
  destruct (Nat.eqb_spec (length alice) (length bob)); [|done]. cbn [negb].
  set (bs := Z.to_nat (blockSize c)). set (k := Z.to_nat (passes c)).
  assert (blockSize c = Z.of_nat bs) as Hbs' by lia.
  assert (passes c = Z.of_nat k) as Hk by lia.
  rewrite Hbs', Hk in *.
  destruct (Correct_passes_safe c alice Hbound Ha k bs bob 0 0)
    as (cur & d & g & -> & Hd & Hlen' & Hcur & Hto); [lia|done..|].
  cbn [mbind res_bind].
  exists cur, d. repeat split; try done; try lia.
  intros j Hj. destruct (Hto j) as [-> | ->]; done.
Qed.

Import Quantum Crypto BB84 Session Scenarios.

Lemma Cascade_never_adds_errors_witness :
  exists corrected disclosed,
    Correct (NewCascadeCorrector 0.1) [0; 1; 0; 1; 0; 1; 0; 1] [0; 0; 1; 1; 0; 1; 0; 1]
    = Ok (corrected, disclosed)
    /\ 0 <= disclosed
    /\ length corrected = 8%nat
    /\ Forall is_bit corrected
    /\ (forall j, corrected !! j = [0; 0; 1; 1; 0; 1; 0; 1] !! j
                  \/ corrected !! j = [0; 1; 0; 1; 0; 1; 0; 1] !! j)
    /\ (forall j, [0; 1; 0; 1; 0; 1; 0; 1] !! j = [0; 0; 1; 1; 0; 1; 0; 1] !! j ->
                  corrected !! j = [0; 1; 0; 1; 0; 1; 0; 1] !! j).
Proof.
  apply (Cascade_never_adds_errors (NewCascadeCorrector 0.1)
           [0; 1; 0; 1; 0; 1; 0; 1] [0; 0; 1; 1; 0; 1; 0; 1]).
  - repeat constructor; (by left) || (by right).
  - repeat constructor; (by left) || (by right).
  - reflexivity.
  - vm_compute. discriminate.
  - vm_compute. discriminate.
  - vm_compute. discriminate.
  - vm_compute. discriminate.
Defined.

End CascadeSafety.

(** ** The simple parity corrector *)

Module SimpleParityFacts.
Import Quantum Crypto GoFacts CascadeFacts.

#[local] Arguments Nat.div : simpl never.
#[local] Arguments Nat.modulo : simpl never.

#[local] Abbreviation seg l s e := (take (e - s) (drop s l)).

#[local] Abbreviation towards a cur cur' :=
  (forall j : nat, cur' !! j = cur !! j \/ cur' !! j = a !! j).





Import Quantum Crypto BB84 Session Scenarios.


End SimpleParityFacts.

(** ** The 2-universal variant of privacy amplification *)

Module UniversalHashFacts.
Import Quantum Crypto GoFacts.

#[local] Arguments Nat.div : simpl never.
#[local] Arguments Nat.modulo : simpl never.




Import Quantum Crypto BB84 Session Scenarios.


End UniversalHashFacts.

(** ** Unpacking and packing bytes *)

Module UnpackingFacts.
Import Quantum GoFacts PackingFacts.

#[local] Arguments Nat.div : simpl never.
#[local] Arguments Nat.modulo : simpl never.

(** A byte: not negative, no bit set from position 8 on. *)
#[local] Abbreviation byte_bits b :=
  (0 <= b /\ forall n, 8 <= n -> Z.testbit b n = false).

Lemma byte_bits_range (b : Z) : byte_bits b <-> 0 <= b < 256.
Proof.
  split.
  - intros [Hb Hhigh]. split; [done|].
    assert (b = b mod 2 ^ 8) as ->.
    { apply Z.bits_inj'. intros n Hn.
      destruct (Z.lt_ge_cases n 8).
      - by rewrite Z.mod_pow2_bits_low.
      - rewrite Z.mod_pow2_bits_high by lia. by apply Hhigh. }
    apply Z.mod_pos_bound. lia.
  - intros [Hb Hlt]. split; [done|]. intros n Hn.
    destruct (decide (b = 0)) as [->|Hnz]; [apply Z.bits_0|].
    apply Z.bits_above_log2; [done|].
    assert (Z.log2 b < 8) by (apply Z.log2_lt_pow2; lia). lia.
Qed.

Lemma BitsToBytes_step_bytes (bytes : list Z) (i : nat) (bit : Bit) :
  Forall (fun b => byte_bits b) bytes ->
  Forall (fun b => byte_bits b) (BitsToBytes_step bytes i bit).
Proof.
  intros Hbytes. unfold BitsToBytes_step. destruct (bit =? One); [|done].
  apply Forall_alter; [done|]. intros b _ [Hb Hhigh].
  pose proof (Nat.mod_upper_bound i 8 ltac:(lia)).
  split.
  - apply Z.lor_nonneg. split; [done|]. apply Z.shiftl_nonneg. lia.
  - intros n Hn. rewrite setbit_test by lia. rewrite Hhigh by done.
    apply Z.eqb_neq. lia.
Qed.

Lemma BitsToBytes_loop_bytes (bits : list Bit) : forall i bytes,
  Forall (fun b => byte_bits b) bytes ->
  Forall (fun b => byte_bits b) (BitsToBytes_loop bits i bytes).
Proof.
  induction bits as [|bit bits IH]; intros i bytes Hbytes; cbn [BitsToBytes_loop]; [done|].
  apply IH. by apply BitsToBytes_step_bytes.
Qed.

Lemma BitsToBytes_bytes (bits : list Bit) :
  Forall (fun b => 0 <= b < 256) (BitsToBytes bits).
Proof.
  eapply Forall_impl; [|intros b Hb; apply byte_bits_range; exact Hb].
  unfold BitsToBytes. apply BitsToBytes_loop_bytes.
  apply Forall_forall. intros b [-> _]%elem_of_replicate.
  split; [done|]. intros n _. apply Z.bits_0.
Qed.

Lemma bit_at_ext (x y : list Z) :
  length x = length y ->
  Forall (fun b => 0 <= b < 256) x ->
  Forall (fun b => 0 <= b < 256) y ->
  (forall p, (p < 8 * length x)%nat -> bit_at x p = bit_at y p) ->
  x = y.
Proof.
  intros Hlen Hx Hy Hbits.
  apply list_eq. intros k.
  destruct (decide (k < length x)%nat) as [Hk|Hk];
    [|by rewrite !lookup_ge_None_2 by lia].
  destruct (lookup_lt_is_Some_2 x k Hk) as [a Ha].
  destruct (lookup_lt_is_Some_2 y k ltac:(lia)) as [b Hb].
  rewrite Ha, Hb. f_equal.
  pose proof (proj2 (byte_bits_range a) (Forall_lookup_1 _ _ _ _ Hx Ha)) as [_ Hahigh].
  pose proof (proj2 (byte_bits_range b) (Forall_lookup_1 _ _ _ _ Hy Hb)) as [_ Hbhigh].
  apply Z.bits_inj'. intros n Hn.
  destruct (Z.lt_ge_cases n 8) as [Hlow|Hhigh];
    [|by rewrite Hahigh, Hbhigh].
  specialize (Hbits (8 * k + (7 - Z.to_nat n))%nat ltac:(lia)).
  unfold bit_at in Hbits.
  replace ((8 * k + (7 - Z.to_nat n)) / 8)%nat with k in Hbits
    by (apply (Nat.div_unique _ 8 k (7 - Z.to_nat n)); lia).
  replace ((8 * k + (7 - Z.to_nat n)) mod 8)%nat with (7 - Z.to_nat n)%nat in Hbits
    by (apply (Nat.mod_unique _ 8 k (7 - Z.to_nat n)); lia).
  rewrite !nth_lookup_Z, Ha, Hb in Hbits. cbn [default] in Hbits.
  by replace (7 - Z.of_nat (7 - Z.to_nat n)) with n in Hbits by lia.
Qed.

(** X19: the round trip in the other direction.  [BitsToBytes] always
    yields bytes in 0..255, and for such bytes unpacking all [8 * n] bits
    and packing them again gives the bytes back; the unpacked values are
    bits. *)
Theorem BitsToBytes_BytesToBits (bytes : list Z) (bits : list Bit) :
  Forall (fun b => 0 <= b < 256) bytes ->
  Forall (fun b => 0 <= b < 256) (BitsToBytes bits)
  /\ exists unpacked,
       BytesToBits bytes (8 * Z.of_nat (length bytes)) = Ok unpacked
       /\ length unpacked = (8 * length bytes)%nat
       /\ Forall is_bit unpacked
       /\ BitsToBytes unpacked = bytes.
Proof.
  intros Hbytes. split; [apply BitsToBytes_bytes|].
  unfold BytesToBits.
  destruct (Z.ltb_spec (8 * Z.of_nat (length bytes)) 0); [lia|].
  replace (Z.to_nat (8 * Z.of_nat (length bytes))) with (8 * length bytes)%nat by lia.
  rewrite BytesToBits_loop_ok by lia.
  set (unpacked := map _ _).
  assert (length unpacked = (8 * length bytes)%nat) as Hlen
    by (subst unpacked; by rewrite length_map, length_seq).
  exists unpacked. split; [done|]. split; [done|]. split.
  - apply Forall_forall. intros b (p & -> & _)%list_elem_of_fmap.
    destruct (bit_at bytes p); [by right|by left].
  - assert (length (BitsToBytes unpacked) = length bytes) as Hl.
    { rewrite BitsToBytes_length, Hlen.
      symmetry. apply (Nat.div_unique _ 8 _ 7); lia. }
    apply bit_at_ext; [done|apply BitsToBytes_bytes|done|].
    intros p Hp. rewrite Hl in Hp.
    rewrite bit_at_BitsToBytes, Hlen.
    destruct (Nat.ltb_spec p (8 * length bytes)); [|lia]. cbn [andb].
    subst unpacked.
    rewrite (nth_indep _ 0 ((fun p => if bit_at bytes p then One else Zero) 0%nat))
      by (rewrite length_map, length_seq; lia).
    rewrite (map_nth (fun p => if bit_at bytes p then One else Zero)), seq_nth by lia.
    cbn beta. rewrite Nat.add_0_l.
    by destruct (bit_at bytes p).
Qed.

Import Quantum Crypto BB84 Session Scenarios.

Lemma BitsToBytes_BytesToBits_witness :
  exists unpacked,
    BytesToBits [165; 0; 255] 24 = Ok unpacked
    /\ BitsToBytes unpacked = [165; 0; 255].
Proof.
  destruct (BitsToBytes_BytesToBits [165; 0; 255] [])
    as (_ & unpacked & Hrun & _ & _ & Hback).
  - repeat constructor; lia.
  - exists unpacked. split; [exact Hrun|exact Hback].
Defined.

End UnpackingFacts.

(** ** Secure key length at the ends of the QBER range *)

Module SecureLengthEdges.
Import Quantum Crypto GoFacts.

Lemma int_of_zero_times (x : float) : int_of_float64 (0 * x)%float = 0.
Proof.
  unfold int_of_float64. rewrite mul_spec.
  change (Prim2SF 0) with (S754_zero false).
  by destruct (Prim2SF x) as [s|s| |s m e].
Qed.

Lemma CalculateSecureKeyLength_no_entropy
  (rawKeyLength : Z) (qber : float) (disclosedBits securityParameter : Z) :
  (qber <=? 0)%float = true \/ (1 <=? qber)%float = true ->
  0 <= rawKeyLength <= 2 ^ 62 ->
  0 <= disclosedBits <= 2 ^ 62 ->
  0 <= securityParameter <= 2 ^ 62 ->
  CalculateSecureKeyLength rawKeyLength qber disclosedBits securityParameter
  = Z.max 0 (rawKeyLength - disclosedBits - securityParameter).
Proof.
  intros Hq Hraw Hd Hs. unfold CalculateSecureKeyLength, binaryEntropy.
  assert ((qber <=? 0)%float || (1 <=? qber)%float = true) as ->.
  { destruct Hq as [-> | ->]; [done|apply orb_true_r]. }
  rewrite int_of_zero_times, Z.add_0_l.
  rewrite (wrap_id disclosedBits) by (unfold min_int, max_int; lia).
  rewrite (wrap_id (rawKeyLength - disclosedBits)) by (unfold min_int, max_int; lia).
  rewrite wrap_id by (unfold min_int, max_int; lia).
  destruct (Z.ltb_spec (rawKeyLength - disclosedBits - securityParameter) 0); lia.
Qed.

(** X20: outside the open interval (0, 1) the QBER contributes nothing.
    For a QBER of 0 or less, or of 1 or more, the binary entropy is taken
    as 0 and [CalculateSecureKeyLength] returns
    [rawKeyLength - disclosedBits - securityParameter], or 0 when that is
    negative: a key whose every bit is wrong is rated like an error-free
    one. *)
Theorem CalculateSecureKeyLength_outside_unit_interval
  (rawKeyLength : Z) (qber : float) (disclosedBits securityParameter : Z) :
  (qber <=? 0)%float = true \/ (1 <=? qber)%float = true ->
  0 <= rawKeyLength <= 2 ^ 62 ->
  0 <= disclosedBits <= 2 ^ 62 ->
  0 <= securityParameter <= 2 ^ 62 ->
  CalculateSecureKeyLength rawKeyLength qber disclosedBits securityParameter
  = Z.max 0 (rawKeyLength - disclosedBits - securityParameter)
  /\ CalculateSecureKeyLength rawKeyLength qber disclosedBits securityParameter
     = CalculateSecureKeyLength rawKeyLength 0 disclosedBits securityParameter.
Proof.
  intros Hq Hraw Hd Hs.
  rewrite !CalculateSecureKeyLength_no_entropy; try done. by left.
Qed.

Import Quantum Crypto BB84 Session Scenarios.

Lemma CalculateSecureKeyLength_outside_unit_interval_witness :
  CalculateSecureKeyLength 1000 1 100 64 = Z.max 0 (1000 - 100 - 64).
Proof.
  refine (proj1 (CalculateSecureKeyLength_outside_unit_interval
                   1000 1%float 100 64 _ _ _ _)).
  - by right.
  - lia.
  - lia.
  - lia.
Defined.

End SecureLengthEdges.

(** ** Post-processing of an error-free exchange *)

Module ErrorFreeFacts.
Import Quantum Crypto BB84 Session GoFacts CascadeFacts.

#[local] Arguments Nat.div : simpl never.
#[local] Arguments Nat.modulo : simpl never.

Lemma leb_zero_not_pos (q : float) : (q <=? 0)%float = true -> (0 <? q)%float = false.
Proof.
  rewrite leb_spec, ltb_spec. change (Prim2SF 0) with (S754_zero false).
  unfold SFleb, SFltb, SFcompare.
  destruct (Prim2SF q) as [s|s| |s m e]; try done; by destruct s.
Qed.

Lemma binarySearch_loop_bound (a b : list Bit) :
  forall fuel s e d g i d' g',
    binarySearch_loop fuel a b s e d g = Ok (i, d', g') ->
    d <= d' <= d + Z.of_nat fuel.
Proof.
  induction fuel as [|fuel IH]; intros s e d g i d' g'; cbn [binarySearch_loop];
    destruct (s <? wrap (e - 1)); try done; try (intros [= <- <- <-]; lia).
  destruct (div _ 2) as [mid| | |]; cbn [mbind res_bind]; try done.
  destruct (slice a s mid) as [aliceBlock| | |]; cbn [mbind res_bind]; try done.
  destruct (slice b s mid) as [bobBlock| | |]; cbn [mbind res_bind]; try done.
  destruct (negb _); intros Hrec; apply IH in Hrec; lia.
Qed.

Lemma Correct_block_bound (c : CascadeCorrector) (a cur cur' : list Bit) (blk : Block)
  (d g d' g' : Z) :
  Correct_block c a (cur, d, g) blk = Ok (cur', d', g') ->
  d + 1 <= d' <= d + Z.of_nat (length a) + 2.
Proof.
  unfold Correct_block.
  destruct (slice a _ _) as [aliceBlock| | |] eqn:Ha; cbn [mbind res_bind]; try done.
  apply slice_Ok_inv in Ha.
  destruct (slice cur _ _) as [bobBlock| | |]; cbn [mbind res_bind]; try done.
  destruct (negb _); [|cbn; intros [= <- <- <-]; lia].
  unfold binarySearch.
  destruct (binarySearch_loop _ _ _ _ _ _ _) as [[[errorIdx disclosed] cmp]| | |] eqn:Hsearch;
    cbn [mbind res_bind]; try done.
  apply binarySearch_loop_bound in Hsearch.
  assert (0 <= disclosed <= Z.of_nat (length a) + 1) by lia.
  destruct (0 <=? errorIdx); [|cbn; intros [= <- <- <-]; lia].
  destruct (index cur errorIdx) as [old| | |]; cbn [mbind res_bind]; try done.
  destruct (store cur errorIdx _) as [corrected| | |]; cbn [mbind res_bind]; try done.
  intros [= <- <- <-]. lia.
Qed.

Lemma Correct_blocks_bound (c : CascadeCorrector) (a : list Bit) :
  forall blocks cur d g cur' d' g',
    Correct_blocks c a blocks (cur, d, g) = Ok (cur', d', g') ->
    d + Z.of_nat (length blocks) <= d'
    <= d + Z.of_nat (length blocks) * (Z.of_nat (length a) + 2).
Proof.
  induction blocks as [|blk blocks IH]; intros cur d g cur' d' g'; cbn [Correct_blocks].
  { intros [= <- <- <-]. cbn. lia. }
  destruct (Correct_block c a (cur, d, g) blk) as [[[cur1 d1] g1]| | |] eqn:Hblk;
    cbn [mbind res_bind]; try done.
  apply Correct_block_bound in Hblk.
  intros Hrest. apply IH in Hrest. cbn [length]. nia.
Qed.

Lemma Correct_pass_bound (c : CascadeCorrector) (a cur cur' : list Bit) (bs : nat)
  (d g d' g' : Z) :
  (1 <= bs)%nat -> Z.of_nat (length a) + Z.of_nat bs <= max_int ->
  Correct_pass c a (Z.of_nat bs) (cur, d, g) = Ok (cur', d', g') ->
  d + Z.of_nat ((length a + bs - 1) / bs) <= d'
  <= d + Z.of_nat (length a) * (Z.of_nat (length a) + 2).
Proof.
  intros Hbs Hmax. unfold Correct_pass.
  rewrite <- Nat2Z.inj_add.
  rewrite (wrap_id (Z.of_nat (length a + bs))) by (unfold min_int, max_int in *; lia).
  replace (Z.of_nat (length a + bs) - 1) with (Z.of_nat (length a + bs - 1)) by lia.
  rewrite wrap_id by (unfold min_int, max_int in *; lia).
  rewrite div_nat by (unfold max_int in *; lia).
  cbn [mbind res_bind].
  set (nb := ((length a + bs - 1) / bs)%nat).
  destruct (Z.ltb_spec (Z.of_nat nb) 0); [lia|].
  rewrite Nat2Z.id. intros Hrun. apply Correct_blocks_bound in Hrun.
  rewrite length_map, length_seq in Hrun.
  assert (nb < S (length a))%nat.
  { subst nb. apply Nat.Div0.div_lt_upper_bound. nia. }
  nia.
Qed.

(** Cascade at block size 1 discloses at least one bit per key bit. *)
Lemma Correct_unit_blocks_bound (c : CascadeCorrector) (a b corrected : list Bit) (d : Z) :
  passes c = 4 -> blockSize c = 1 ->
  Z.of_nat (length a) <= 2 ^ 20 ->
  Correct c a b = Ok (corrected, d) ->
  Z.of_nat (length a) <= d <= 2 ^ 44.
Proof.
  intros Hp Hb Hlen. unfold Correct, Correct_traced.
  destruct (negb _); [done|]. rewrite Hp, Hb.
  change (Z.to_nat 4) with 4%nat. cbn [Correct_passes].
  change 1 with (Z.of_nat 1).
  destruct (Correct_pass c a (Z.of_nat 1) (b, 0, 0)) as [[[c1 d1] g1]| | |] eqn:H1;
    cbn [mbind res_bind]; try done.
  apply Correct_pass_bound in H1; [|lia|unfold max_int; lia].
  change (wrap (Z.of_nat 1 * 2)) with (Z.of_nat 2).
  destruct (Correct_pass c a (Z.of_nat 2) (c1, d1, g1)) as [[[c2 d2] g2]| | |] eqn:H2;
    cbn [mbind res_bind]; try done.
  apply Correct_pass_bound in H2; [|lia|unfold max_int; lia].
  change (wrap (Z.of_nat 2 * 2)) with (Z.of_nat 4).
  destruct (Correct_pass c a (Z.of_nat 4) (c2, d2, g2)) as [[[c3 d3] g3]| | |] eqn:H3;
    cbn [mbind res_bind]; try done.
  apply Correct_pass_bound in H3; [|lia|unfold max_int; lia].
  change (wrap (Z.of_nat 4 * 2)) with (Z.of_nat 8).
  destruct (Correct_pass c a (Z.of_nat 8) (c3, d3, g3)) as [[[c4 d4] g4]| | |] eqn:H4;
    cbn [mbind res_bind]; try done.
  apply Correct_pass_bound in H4; [|lia|unfold max_int; lia].
  intros [= <- <-].
  rewrite Nat.add_sub, Nat.div_1_r in H1.
  assert (Z.of_nat (length a) * (Z.of_nat (length a) + 2) <= 2 ^ 42) by nia.
  lia.
Qed.


Section Manager.
Context {B : Type} `{QuantumBackend B} {hashes : HashFamily}.

Lemma BasisReconciliation_loop_length (alice : AliceSession.t) (bob : BobSession.t)
  (positions : list nat) : forall sifted out : SiftedKey.t,
  BasisReconciliation_loop alice bob positions sifted = Ok out ->
  (length (SiftedKey.AliceKey out)
   <= length (SiftedKey.AliceKey sifted) + length positions)%nat.
Proof.
  induction positions as [|i positions IH]; intros sifted out;
    cbn [BasisReconciliation_loop].
  - intros [= <-]. cbn. lia.
  - destruct (index (AliceSession.Bases alice) _) as [x| | |]; cbn [mbind res_bind]; try done.
    destruct (index (BobSession.Bases bob) _) as [y| | |]; cbn [mbind res_bind]; try done.
    destruct (x =? y).
    + destruct (index (AliceSession.Bits alice) _) as [a| | |]; cbn [mbind res_bind]; try done.
      destruct (index (BobSession.Measurements bob) _) as [m| | |]; cbn [mbind res_bind];
        try done.
      intros Hout. apply IH in Hout. cbn [SiftedKey.AliceKey length] in *.
      rewrite length_app in Hout. cbn [length] in *. lia.
    + intros Hout. apply IH in Hout. cbn [length]. lia.
Qed.

Lemma sifted_length_bound (bb : @BB84Protocol B) (alice : AliceSession.t)
  (bob : BobSession.t) (sifted : SiftedKey.t) (w w1 : World) :
  AliceGenerateQubits bb w = (Ok alice, w1) ->
  BasisReconciliation bb alice bob = Ok sifted ->
  Z.of_nat (length (SiftedKey.AliceKey sifted)) <= Z.max 0 (wrap (keyLength bb * 4)).
Proof.
  unfold AliceGenerateQubits. unfold bind at 1. unfold GenerateRandomBits.
  destruct (wrap (keyLength bb * 4) <? 0) eqn:Hneg; [done|].
  destruct (GenerateRandom_loop _ w) as [[bits| | |] wa] eqn:Hbits; try done.
  unfold bind at 1. unfold GenerateRandomBases. rewrite Hneg.
  destruct (GenerateRandom_loop _ wa) as [[bases| | |] wb] eqn:Hbases; try done.
  apply SimulatorFacts.GenerateRandom_loop_bits in Hbases as [Hlen _].
  unfold bind at 1.
  destruct (try_wrap _ _ wb) as [[qubits| | |] wc]; try done.
  unfold ret. intros [= <- <-].
  unfold BasisReconciliation. cbn [AliceSession.Bases].
  destruct (negb _); [done|].
  intros Hloop%BasisReconciliation_loop_length.
  rewrite length_seq in Hloop. cbn [SiftedKey.AliceKey length] in Hloop.
  unfold Basis in *. lia.
Qed.

Lemma updateSessionStatus_qber (sm sm' : @SessionManager B) (id : positive)
  (status : SessionStatus) (qber : float) (raw final : Z) (secure : bool) (m : msg)
  (s : QKDSession.t) (w w' : World) :
  sessions sm !! id = Some s ->
  updateSessionStatus sm id status qber raw final secure m w = (Ok sm', w') ->
  exists s', sessions sm' !! id = Some s' /\ QKDSession.QBER s' = qber.
Proof.
  intros Hs. unfold updateSessionStatus. rewrite Hs.
  unfold bind at 1.
  destruct (_ || _).
  - unfold bind, time_Now, ret. destruct (clock w); [done|].
    intros [= <- <-]. cbn [sessions]. rewrite lookup_insert_eq. eauto.
  - unfold ret. intros [= <- <-]. cbn [sessions]. rewrite lookup_insert_eq. eauto.
Qed.

(** X25: post-processing cannot turn an error-free exchange into a key.
    For a session asking for 1 to 4096 bits, whenever
    [ExecuteKeyExchangeWithPostProcessing] returns a key, the QBER it
    estimated and recorded in the session is not 0 (nor below): at QBER 0
    Cascade runs at block size 1 and discloses at least as many bits as
    the sifted key has, so the secure length is computed as 0 and the
    session fails. *)
Theorem post_processing_needs_errors (sm sm' : @SessionManager B) (id : positive)
  (s : QKDSession.t) (key : QuantumKey.t) (w w' : World) :
  sessions sm !! id = Some s ->
  0 < QKDSession.KeyLength s <= 4096 ->
  ExecuteKeyExchangeWithPostProcessing sm id w = (Ok (sm', inl key), w') ->
  exists s',
    sessions sm' !! id = Some s'
    /\ (QKDSession.QBER s' <=? 0)%float = false.
Proof.
  intros Hs Hkl.
  unfold ExecuteKeyExchangeWithPostProcessing. rewrite Hs.
  destruct (negb _); [done|].
  cbn [backend QKDSession.with_status QKDSession.KeyLength].
  set (sm0 := mkSessionManager _ _ _).
  assert (sessions sm0 !! id = Some (QKDSession.with_status s SessionInitiating)) as Hs0.
  { subst sm0. cbn [sessions]. by rewrite lookup_insert_eq. }
  clearbody sm0.
  set (bb84 := NewBB84Protocol _ _).
  assert (keyLength bb84 = QKDSession.KeyLength s * 4) as Hbbk.
  { subst bb84. cbn [keyLength NewBB84Protocol]. apply wrap_id.
    unfold min_int, max_int. lia. }
  unfold bind at 1. unfold catch at 1.
  destruct (AliceGenerateQubits bb84 w) as [[alice|e| |] w1] eqn:Halice;
    [|by intros ?%SessionFacts.fail_session_no_key|done..].
  unfold bind at 1. unfold catch at 1.
  destruct (BobMeasureQubits bb84 (AliceSession.Qubits alice) w1) as [[bob|e| |] w2] eqn:Hbob;
    [|by intros ?%SessionFacts.fail_session_no_key|done..].
  unfold bind at 1. unfold catch at 1. unfold lift at 1.
  destruct (BasisReconciliation bb84 alice bob) as [sifted|e| |] eqn:Hsifted;
    [|by intros ?%SessionFacts.fail_session_no_key|done..].
  pose proof (sifted_length_bound bb84 alice bob sifted w w1 Halice Hsifted) as Hlen.
  rewrite Hbbk, wrap_id in Hlen by (unfold min_int, max_int; lia).
  unfold bind at 1. unfold catch at 1.
  destruct (EstimateQBER bb84 sifted w2) as [[qber|e| |] w3] eqn:Hqber;
    [|by intros ?%SessionFacts.fail_session_no_key|done..].
  destruct (_ <? _)%float.
  { unfold bind, ret. destruct (updateSessionStatus _ _ _ _ _ _ _ _ _) as [[?| | |] ?]; done. }
  unfold post_process. cbn [QKDSession.KeyLength QKDSession.with_status].
  unfold bind at 1. unfold catch at 1. unfold lift at 1.
  destruct (Correct _ _ _) as [[bobCorrected disclosedBits]|e| |] eqn:Hcorrect;
    [|by intros ?%SessionFacts.fail_session_no_key|done..].
  destruct (VerifyKeyCorrectness _ _) as [keysMatch errorRate].
  destruct (negb keysMatch); [by intros ?%SessionFacts.fail_session_no_key|].
  destruct (Z.ltb_spec (CalculateSecureKeyLength
                          (Z.of_nat (length (SiftedKey.AliceKey sifted))) qber disclosedBits 64)
              (QKDSession.KeyLength s)) as [|Hsecure];
    [by intros ?%SessionFacts.fail_session_no_key|].
  unfold bind at 1. unfold catch at 1. unfold lift at 1.
  destruct (Amplify _ _ _ _) as [finalKey|e| |] eqn:Hamplify;
    [|by intros ?%SessionFacts.fail_session_no_key|done..].
  unfold bind at 1.
  destruct (updateSessionStatus _ _ _ _ _ _ _ _ _) as [[sm1| | |] w4] eqn:Hup; try done.
  destruct (updateSessionStatus_qber _ _ _ _ _ _ _ _ _ _ _ _ Hs0 Hup) as (s' & Hs' & Hq).
  intros (_ & _ & _ & Hsessions)%SessionFacts.store_key_inv.
  exists s'. rewrite Hsessions. split; [done|]. rewrite Hq.
  destruct (qber <=? 0)%float eqn:Hzero; [exfalso|done].
  assert (blockSize (NewCascadeCorrector qber) = 1) as Hbs.
  { unfold NewCascadeCorrector. by rewrite (leb_zero_not_pos _ Hzero). }
  apply Correct_unit_blocks_bound in Hcorrect; [|done|done|lia].
  rewrite SecureLengthEdges.CalculateSecureKeyLength_no_entropy in Hsecure;
    [lia|by left|lia..].
Qed.

End Manager.
Import Quantum Crypto BB84 Session Scenarios.

Lemma post_processing_needs_errors_witness :
  exists s',
    sessions processed_manager !! 7%positive = Some s'
    /\ (QKDSession.QBER s' <=? 0)%float = false.
Proof.
  assert (sessions (fst joined) !! 7%positive = Some active_session) as Hs
    by (vm_compute; reflexivity).
  assert (0 < QKDSession.KeyLength active_session <= 4096) as Hlen by (cbn; lia).
  assert (ExecuteKeyExchangeWithPostProcessing (hashes := padding_hashes)
            (fst joined) 7%positive (snd joined)
          = (Ok (processed_manager, inl processed_key), snd processed)) as Hrun
    by (vm_compute; reflexivity).
  exact (post_processing_needs_errors (hashes := padding_hashes)
           (fst joined) processed_manager 7%positive active_session processed_key
           (snd joined) (snd processed) Hs Hlen Hrun).
Defined.

End ErrorFreeFacts.
